(** * The chat request handlers, the text adapter and the image fallback chain

    A shallow embedding of the server side of the chat application:
    [lib/geminiService.ts] (text adapter, input sanitizer, image fallback
    chain), [lib/supabaseClient.ts] (the message store helpers),
    [server/trpc/context.ts] and [server/trpc/routers/chat.ts] (the RPC
    operations).

    JavaScript strings are sequences of UTF-16 code units, and [length],
    [slice] and the schema bounds all count code units, so a string is a
    [list N] here.  Asynchronous functions become computations in a small
    state-and-exception monad over a [World]: the store's table, its clock
    and id source, the faults the store is going to answer with, the log of
    every request sent to an external service, and the events pushed to a
    subscriber.  What the external services answer is read from an
    [External] record. *)

From Stdlib Require Import List NArith ZArith QArith Bool Ascii String Lia.
From Stdlib Require Import DecimalString Sorted Permutation.
Import ListNotations.
Close Scope Q_scope.

Set Implicit Arguments.

(* ================================================================== *)
(** ** JavaScript strings *)
(* ================================================================== *)

Module JS.

Definition code_unit := N.
Definition jsstring := list code_unit.

(** An ASCII literal of the source, as code units. *)
Definition lit (s : string) : jsstring :=
  map N_of_ascii (list_ascii_of_string s).

Definition jsstring_eqb (a b : jsstring) : bool :=
  if list_eq_dec N.eq_dec a b then true else false.

(** [!s] is false exactly for the non-empty strings. *)
Definition truthy (s : jsstring) : bool :=
  match s with [] => false | _ :: _ => true end.

(** [a || b] on strings. *)
Definition or_else (a b : jsstring) : jsstring :=
  if truthy a then a else b.

Fixpoint startsWith (s prefix : jsstring) : bool :=
  match prefix, s with
  | [], _ => true
  | p :: ps, c :: cs => N.eqb p c && startsWith cs ps
  | _ :: _, [] => false
  end.

Fixpoint includes (s needle : jsstring) : bool :=
  startsWith s needle ||
  match s with
  | [] => false
  | _ :: cs => includes cs needle
  end.

(** ECMAScript WhiteSpace and LineTerminator code points, the characters
    [String.prototype.trim] removes. *)
Definition isWhiteSpace (c : code_unit) : bool :=
  existsb (N.eqb c)
    [ 9; 10; 11; 12; 13; 32; 160; 5760;
      8192; 8193; 8194; 8195; 8196; 8197; 8198; 8199; 8200; 8201; 8202;
      8232; 8233; 8239; 8287; 12288; 65279 ]%N.

Fixpoint trimStart (s : jsstring) : jsstring :=
  match s with
  | [] => []
  | c :: cs => if isWhiteSpace c then trimStart cs else s
  end.

Definition trimEnd (s : jsstring) : jsstring := rev (trimStart (rev s)).

Definition trim (s : jsstring) : jsstring := trimEnd (trimStart s).

(** [s.slice(0, n)]. *)
Definition slice0 (n : nat) (s : jsstring) : jsstring := firstn n s.

(** [s.replace(/[<>]/g, '')]. *)
Definition isAngleBracket (c : code_unit) : bool :=
  (N.eqb c 60 || N.eqb c 62)%N.

Definition stripAngleBrackets (s : jsstring) : jsstring :=
  filter (fun c => negb (isAngleBracket c)) s.

(** Decimal rendering of a non-negative integer ([`${seed}`]). *)
Definition decimal (n : N) : jsstring :=
  lit (NilZero.string_of_uint (N.to_uint n)).

(** *** encodeURIComponent *)

Definition between (lo hi c : N) : bool := (N.leb lo c && N.leb c hi)%N.

Definition isUnreserved (c : code_unit) : bool :=
  between 65 90 c || between 97 122 c || between 48 57 c ||
  existsb (N.eqb c) [45; 95; 46; 33; 126; 42; 39; 40; 41]%N.

Definition hexDigit (n : N) : code_unit :=
  (if n <? 10 then 48 + n else 55 + n)%N.

Definition percent (byte : N) : jsstring :=
  [37%N; hexDigit (byte / 16); hexDigit (byte mod 16)].

Definition utf8 (cp : N) : list N :=
  (if cp <? 128 then [cp]
   else if cp <? 2048 then [192 + cp / 64; 128 + cp mod 64]
   else if cp <? 65536 then
     [224 + cp / 4096; 128 + (cp / 64) mod 64; 128 + cp mod 64]
   else
     [240 + cp / 262144; 128 + (cp / 4096) mod 64;
      128 + (cp / 64) mod 64; 128 + cp mod 64])%N.

Definition isHighSurrogate (c : code_unit) : bool := between 55296 56319 c.
Definition isLowSurrogate (c : code_unit) : bool := between 56320 57343 c.

(** [None] stands for the URIError thrown on a lone surrogate. *)
Fixpoint encodeURIComponent (s : jsstring) : option jsstring :=
  match s with
  | [] => Some []
  | c :: rest =>
      if isUnreserved c then option_map (cons c) (encodeURIComponent rest)
      else if isLowSurrogate c then None
      else if isHighSurrogate c then
        match rest with
        | d :: rest' =>
            if isLowSurrogate d then
              option_map
                (app (flat_map percent
                        (utf8 ((c - 55296) * 1024 + (d - 56320) + 65536)%N)))
                (encodeURIComponent rest')
            else None
        | [] => None
        end
      else option_map (app (flat_map percent (utf8 c)))
                      (encodeURIComponent rest)
  end.

(** *** Buffer.toString('base64') *)

Definition base64Char (n : N) : code_unit :=
  (if n <? 26 then 65 + n
   else if n <? 52 then 71 + n
   else if n <? 62 then n - 4
   else if n =? 62 then 43 else 47)%N.

Fixpoint base64 (bytes : list N) : jsstring :=
  match bytes with
  | [] => []
  | [a] =>
      [base64Char (a / 4); base64Char ((a mod 4) * 16); 61; 61]%N
  | [a; b] =>
      [base64Char (a / 4); base64Char ((a mod 4) * 16 + b / 16);
       base64Char ((b mod 16) * 4); 61]%N
  | a :: b :: c :: rest =>
      [base64Char (a / 4); base64Char ((a mod 4) * 16 + b / 16);
       base64Char ((b mod 16) * 4 + c / 64); base64Char (c mod 64)]%N
      ++ base64 rest
  end.

End JS.
Import JS.

(* ================================================================== *)
(** ** Values that can be thrown, and the RPC error codes *)
(* ================================================================== *)

Inductive trpc_code := UNAUTHORIZED | BAD_REQUEST | INTERNAL_SERVER_ERROR.

(** A thrown value: an [Error] with its message, a [TRPCError] (a
    subclass of [Error]) with its code and message, or anything else. *)
Inductive thrown :=
| JsError (message : jsstring)
| TRPCError (code : trpc_code) (message : jsstring)
| NonError.

Definition instanceof_Error (e : thrown) : bool :=
  match e with JsError _ | TRPCError _ _ => true | NonError => false end.

Definition instanceof_TRPCError (e : thrown) : bool :=
  match e with TRPCError _ _ => true | _ => false end.

Definition error_message (e : thrown) : jsstring :=
  match e with
  | JsError m | TRPCError _ m => m
  | NonError => []
  end.

(** [error instanceof Error ? error.message : "Unknown error"]. *)
Definition message_or_unknown (e : thrown) : jsstring :=
  if instanceof_Error e then error_message e else lit "Unknown error".

(* ================================================================== *)
(** ** Data model ([lib/supabaseClient.ts]) *)
(* ================================================================== *)

Inductive Role := user_role | model_role.
Inductive ContentType := text_type | image_type.

(** A row of [chat_history].  The store assigns [id] and [created_at];
    both are opaque to the program, an id is modelled by the value of the
    store's id counter and a timestamp by the value of its clock. *)
Record ChatMessage := {
  id : nat;
  user_id : jsstring;
  created_at : nat;
  role : Role;
  content : jsstring;
  content_type : ContentType
}.

(** [Omit<ChatMessage, 'id' | 'created_at'>]. *)
Record NewMessage := {
  new_user_id : jsstring;
  new_role : Role;
  new_content : jsstring;
  new_content_type : ContentType
}.

(* ================================================================== *)
(** ** JSON values: request bodies and raw RPC inputs *)
(* ================================================================== *)

#[local] Unset Elimination Schemes.
Inductive json :=
| JUndefined
| JNull
| JBool (b : bool)
| JNumber (q : Q)
| JString (s : jsstring)
| JArray (items : list json)
| JObject (fields : list (jsstring * json)).
#[local] Set Elimination Schemes.

(** [object[key]]: the value bound to [key], [undefined] when there is
    none.  The fields of an object have distinct keys. *)
Fixpoint get_field (fields : list (jsstring * json)) (key : jsstring) : json :=
  match fields with
  | [] => JUndefined
  | (k, v) :: rest => if jsstring_eqb k key then v else get_field rest key
  end.

(* ================================================================== *)
(** ** The outside world *)
(* ================================================================== *)

(** What [fetch] is called with. *)
Record FetchRequest := {
  url : jsstring;
  method : jsstring;
  authorization : option jsstring;
  body : json
}.

(** The image-generation endpoint answers [{data: [{url}, ...]}]. *)
Record ImageDatum := { datum_url : option jsstring }.
Record ImagesBody := { data : option (list ImageDatum) }.

(** What [fetch] resolves to: the status flag, the content-type header and
    the three ways the handlers read the body, each of which may throw. *)
Record Response := {
  ok : bool;
  header_content_type : option jsstring;
  blob : thrown + list N;
  text : thrown + jsstring;
  json_body : thrown + ImagesBody
}.

(** A chunk of a streamed completion: [chunk.text()] may throw.  The
    stream ends normally or by throwing. *)
Record GeminiStream := {
  stream_chunks : list (thrown + jsstring);
  stream_end : option thrown
}.

(** A validation issue of the schema library. *)
Record ZodIssue := { issue_path : list jsstring; issue_message : jsstring }.

(** Every request the server sends to an external service. *)
Inductive request :=
| Fetch (r : FetchRequest)
| GenerateContent (prompt : jsstring)
| GenerateContentStream (prompt : jsstring)
| DbInsert (m : NewMessage)
| DbSelect (userId : jsstring)
| DbDelete (userId : jsstring).

(** The behaviour of the external services, and two library functions
    whose code is not part of the repository. *)
Record External := {
  (** [fetch(url, init)]: throws, or resolves to a response. *)
  fetch_answer : FetchRequest -> thrown + Response;
  (** [model.generateContent(prompt)] followed by [response.text()]. *)
  generateContent_answer : jsstring -> thrown + jsstring;
  (** [model.generateContentStream(prompt)]. *)
  generateContentStream_answer : jsstring -> thrown + GeminiStream;
  (** [Math.floor(Math.random() * 1000000)] is [random_draw mod 1000000]. *)
  random_draw : N;
  (** The message the RPC library gives a failed input validation. *)
  zod_message : list ZodIssue -> jsstring
}.

(** [process.env]. *)
Record Env := {
  GEMINI_API_KEY : option jsstring;
  HUGGINGFACE_API_KEY : option jsstring;
  OPENAI_API_KEY : option jsstring
}.

(** [if (process.env.X)]: set and not the empty string. *)
Definition configured (v : option jsstring) : bool :=
  match v with Some s => truthy s | None => false end.

(** [process.env.X] interpolated in a template literal. *)
Definition env_text (v : option jsstring) : jsstring :=
  match v with Some s => s | None => lit "undefined" end.

(** Events a subscription pushes to its subscriber
    ([sendMessageStream]). *)
Inductive StreamEvent :=
| userMessageSaved (userMessage : ChatMessage)
| chunk_event (chunk fullResponse : jsstring) (success : bool)
| complete_event (aiMessage : ChatMessage) (fullResponse : jsstring)
| error_event (aiMessage : option ChatMessage) (error : jsstring).

Record World := {
  table : list ChatMessage;          (* rows of chat_history, oldest insert first *)
  next_id : nat;                     (* id the next insert receives *)
  now : nat;                         (* the store's clock *)
  faults : list (option thrown);     (* answers to the coming store requests:
                                        [Some e] is a failure with error [e] *)
  log : list request;                (* requests sent so far, oldest first *)
  outbox : list StreamEvent          (* events yielded so far, oldest first *)
}.

(* ================================================================== *)
(** ** The monad of asynchronous functions *)
(* ================================================================== *)

(** An async function runs on a world and either returns or throws; the
    effects it had before throwing stay. *)
Definition M (A : Type) : Type := World -> (thrown + A) * World.

Definition ret {A} (a : A) : M A := fun w => (inr a, w).

Definition throw {A} (e : thrown) : M A := fun w => (inl e, w).

Definition bind {A B} (m : M A) (k : A -> M B) : M B :=
  fun w =>
    match m w with
    | (inr a, w') => k a w'
    | (inl e, w') => (inl e, w')
    end.

(** [try { body } catch (e) { handler }]. *)
Definition try_catch {A} (body : M A) (handler : thrown -> M A) : M A :=
  fun w =>
    match body w with
    | (inr a, w') => (inr a, w')
    | (inl e, w') => handler e w'
    end.

(** Awaiting a value that may reject. *)
Definition await {A} (r : thrown + A) : M A :=
  match r with inl e => throw e | inr a => ret a end.

Declare Scope async_scope.
Delimit Scope async_scope with async.
Notation "x <- m ;; k" := (bind m (fun x => k))
  (at level 100, m at next level, right associativity) : async_scope.
Notation "m ;;; k" := (bind m (fun _ => k))
  (at level 100, right associativity) : async_scope.
Open Scope async_scope.

(** Sending a request: it is logged and the clock advances. *)
Definition send (r : request) : M unit :=
  fun w =>
    (inr tt,
     {| table := table w; next_id := next_id w; now := S (now w);
        faults := faults w; log := log w ++ [r]; outbox := outbox w |}).

(** [yield ev] of a subscription. *)
Definition yield (ev : StreamEvent) : M unit :=
  fun w =>
    (inr tt,
     {| table := table w; next_id := next_id w; now := now w;
        faults := faults w; log := log w; outbox := outbox w ++ [ev] |}).

(* ================================================================== *)
(** ** The store behind the Supabase client *)
(* ================================================================== *)

(** The client answers every query with [{data, error}]: [inl e] is an
    answer whose [error] is set.  The table lives in the external
    database; the model keeps its rows in insertion order, stamps a new
    row with the clock and the id counter, and lets the head of [faults]
    decide whether the request fails.  Every request takes time: the
    clock has advanced when the answer arrives. *)

Definition next_fault (w : World) : option thrown :=
  match faults w with
  | f :: _ => f
  | [] => None
  end.

Definition stored (m : NewMessage) (w : World) : ChatMessage :=
  {| id := next_id w; user_id := new_user_id m; created_at := now w;
     role := new_role m; content := new_content m;
     content_type := new_content_type m |}.

(** [.order('created_at', { ascending: true })]: a stable sort. *)
Fixpoint insert_by_created_at (r : ChatMessage) (l : list ChatMessage)
  : list ChatMessage :=
  match l with
  | [] => [r]
  | x :: xs =>
      if created_at r <=? created_at x then r :: l
      else x :: insert_by_created_at r xs
  end.

Definition order_by_created_at (l : list ChatMessage) : list ChatMessage :=
  fold_right insert_by_created_at [] l.

(** [.eq('user_id', userId)]. *)
Definition owned_by (userId : jsstring) (r : ChatMessage) : bool :=
  jsstring_eqb (user_id r) userId.

(** The world after the store accepted the insert of [m]. *)
Definition inserted (m : NewMessage) (w : World) : World :=
  {| table := table w ++ [stored m w]; next_id := S (next_id w);
     now := S (now w); faults := tl (faults w);
     log := log w ++ [DbInsert m]; outbox := outbox w |}.

(** The world after the store answered request [r] without changing the
    table: a read, or a refused write. *)
Definition answered (r : request) (w : World) : World :=
  {| table := table w; next_id := next_id w; now := S (now w);
     faults := tl (faults w); log := log w ++ [r]; outbox := outbox w |}.

(** The world after the store deleted the rows of [userId]. *)
Definition cleared (userId : jsstring) (w : World) : World :=
  {| table := filter (fun r => negb (owned_by userId r)) (table w);
     next_id := next_id w; now := S (now w); faults := tl (faults w);
     log := log w ++ [DbDelete userId]; outbox := outbox w |}.

(** [supabase.from('chat_history').insert([message]).select().single()] *)
Definition supabase_insert (m : NewMessage) : M (thrown + ChatMessage) :=
  fun w =>
    match next_fault w with
    | Some e => (inr (inl e), answered (DbInsert m) w)
    | None => (inr (inr (stored m w)), inserted m w)
    end.

(** [supabase.from('chat_history').select('*').eq('user_id', userId)
      .order('created_at', { ascending: true })] *)
Definition supabase_select (userId : jsstring)
  : M (thrown + list ChatMessage) :=
  fun w =>
    (inr match next_fault w with
         | Some e => inl e
         | None =>
             inr (order_by_created_at (filter (owned_by userId) (table w)))
         end,
     answered (DbSelect userId) w).

(** [supabase.from('chat_history').delete().eq('user_id', userId)] *)
Definition supabase_delete (userId : jsstring) : M (thrown + unit) :=
  fun w =>
    match next_fault w with
    | Some e => (inr (inl e), answered (DbDelete userId) w)
    | None => (inr (inr tt), cleared userId w)
    end.

(** *** chatHistoryService *)

Definition getMessagesForUser (userId : jsstring) : M (list ChatMessage) :=
  answer <- supabase_select userId ;;
  match answer with
  | inl error => throw error
  | inr data => ret data
  end.

Definition addMessage (message : NewMessage) : M ChatMessage :=
  answer <- supabase_insert message ;;
  match answer with
  | inl error => throw error
  | inr data => ret data
  end.

Definition clearUserHistory (userId : jsstring) : M unit :=
  answer <- supabase_delete userId ;;
  match answer with
  | inl error => throw error
  | inr _ => ret tt
  end.

(* ================================================================== *)
(** ** The AI service ([lib/geminiService.ts]) *)
(* ================================================================== *)

Record GeminiResponse := {
  response : jsstring;
  success : bool;
  error : option jsstring
}.

Record GeminiStreamResponse := {
  chunk : jsstring;
  done : bool;
  chunk_success : bool;
  chunk_error : option jsstring
}.

Record GeminiImageResponse := {
  imageUrl : jsstring;
  image_success : bool;
  image_error : option jsstring
}.

(** [sanitizeUserInput] *)
Definition sanitizeUserInput (input : jsstring) : jsstring :=
  stripAngleBrackets (slice0 2000 (trim input)).

(** The prompt template of both text functions. *)
Definition text_prompt (userMessage : jsstring) : jsstring :=
  lit "You are a helpful AI assistant. Please respond to the following message in a friendly and informative way:"
  ++ [10; 10]%N ++ lit "User: " ++ userMessage ++ [10; 10]%N
  ++ lit "Please provide a helpful and engaging response.".

Definition not_configured_text : jsstring :=
  lit "I apologize, but the AI service is not configured. Please check the API key configuration.".

Definition invalid_key_text : jsstring :=
  lit "I apologize, but there's an issue with the AI service configuration.".

(** The robot and the light bulb are outside the basic plane: two
    surrogate pairs. *)
Definition overloaded_text : jsstring :=
  [55358; 56598]%N
  ++ lit " I apologize, but the AI text service is temporarily overloaded due to high demand. Please try again in a few minutes."
  ++ [10; 10]%N ++ [55357; 56481]%N
  ++ lit " **Good news:** Image generation is still working! Try typing `/image` followed by your image description to generate pictures instead."
  ++ [10; 10]%N
  ++ lit "Example: `/image a beautiful sunset over mountains`".

Definition difficulties_text : jsstring :=
  lit "I apologize, but I'm experiencing technical difficulties right now. Please try again later.".

(** [message.includes('quota') || ... || message.includes('503')] *)
Definition is_quota_message (message : jsstring) : bool :=
  includes message (lit "quota") || includes message (lit "limit")
  || includes message (lit "overloaded") || includes message (lit "503").

Section Service.

Variable env : Env.
Variable ext : External.

(** [generateGeminiResponse] *)
Definition generateGeminiResponse (userMessage : jsstring) : M GeminiResponse :=
  try_catch
    (if negb (configured (GEMINI_API_KEY env)) then
       ret {| response := not_configured_text; success := false;
              error := Some (lit "Gemini API key not configured") |}
     else
       let prompt := text_prompt userMessage in
       send (GenerateContent prompt) ;;;
       text <- await (generateContent_answer ext prompt) ;;
       ret {| response := text; success := true; error := None |})
    (fun error =>
       if instanceof_Error error
          && includes (error_message error) (lit "API_KEY") then
         ret {| response := invalid_key_text; success := false;
                error := Some (lit "Invalid API key") |}
       else if instanceof_Error error
               && is_quota_message (error_message error) then
         ret {| response := overloaded_text; success := false;
                error := Some (lit "Service temporarily overloaded") |}
       else
         ret {| response := difficulties_text; success := false;
                error := Some (message_or_unknown error) |}).

(** The last item [generateGeminiStreamResponse] yields from its [catch]. *)
Definition stream_failure (error : thrown) : GeminiStreamResponse :=
  let errorMessage :=
    if instanceof_Error error
       && includes (error_message error) (lit "API_KEY")
    then invalid_key_text
    else if instanceof_Error error
            && is_quota_message (error_message error)
    then overloaded_text
    else difficulties_text in
  {| chunk := errorMessage; done := true; chunk_success := false;
     chunk_error := Some (message_or_unknown error) |}.

(** [generateGeminiStreamResponse]: the items the generator yields, in
    order.  Its only effect is the upstream request; a chunk whose text
    cannot be read is skipped, and the sequence ends with the completion
    marker or, when the call or the iteration throws, with the failure
    item. *)
Definition generateGeminiStreamResponse (userMessage : jsstring)
  : M (list GeminiStreamResponse) :=
  if negb (configured (GEMINI_API_KEY env)) then
    ret [ {| chunk := not_configured_text; done := true;
             chunk_success := false;
             chunk_error := Some (lit "Gemini API key not configured") |} ]
  else
    let prompt := text_prompt userMessage in
    send (GenerateContentStream prompt) ;;;
    match generateContentStream_answer ext prompt with
    | inl error => ret [stream_failure error]
    | inr result =>
        ret (flat_map
               (fun c =>
                  match c with
                  | inr chunkText =>
                      [ {| chunk := chunkText; done := false;
                           chunk_success := true; chunk_error := None |} ]
                  | inl _ => []
                  end)
               (stream_chunks result)
             ++ [ match stream_end result with
                  | None => {| chunk := []; done := true;
                               chunk_success := true; chunk_error := None |}
                  | Some error => stream_failure error
                  end ])
    end.

(** [fetch(url, init)] *)
Definition fetch (r : FetchRequest) : M Response :=
  send (Fetch r) ;;; await (fetch_answer ext r).

Definition huggingface_url : jsstring :=
  lit "https://api-inference.huggingface.co/models/stabilityai/stable-diffusion-xl-base-1.0".

Definition pollinations_prefix : jsstring :=
  lit "https://image.pollinations.ai/prompt/".

Definition openai_url : jsstring :=
  lit "https://api.openai.com/v1/images/generations".

Definition huggingface_request (sanitizedPrompt : jsstring) : FetchRequest :=
  {| url := huggingface_url;
     method := lit "POST";
     authorization :=
       Some (lit "Bearer " ++ env_text (HUGGINGFACE_API_KEY env));
     body :=
       JObject
         [ (lit "inputs", JString sanitizedPrompt);
           (lit "parameters",
            JObject
              [ (lit "negative_prompt",
                 JString (lit "blurry, bad quality, distorted"));
                (lit "num_inference_steps", JNumber 20);
                (lit "guidance_scale", JNumber (15 # 2)) ]) ] |}.

Definition pollinations_request (imageUrl : jsstring) : FetchRequest :=
  {| url := imageUrl; method := lit "HEAD"; authorization := None;
     body := JUndefined |}.

Definition openai_request (sanitizedPrompt : jsstring) : FetchRequest :=
  {| url := openai_url;
     method := lit "POST";
     authorization := Some (lit "Bearer " ++ env_text (OPENAI_API_KEY env));
     body :=
       JObject
         [ (lit "model", JString (lit "dall-e-3"));
           (lit "prompt", JString sanitizedPrompt);
           (lit "n", JNumber 1);
           (lit "size", JString (lit "1024x1024"));
           (lit "quality", JString (lit "standard")) ] |}.

(** The three attempts of the chain.  Each is the body of one inner
    [try]: [Some r] is a [return r] out of [generateGeminiImage], [None]
    falls through to the code after the block. *)

Definition tryHuggingFace (sanitizedPrompt : jsstring)
  : M (option GeminiImageResponse) :=
  try_catch
    (response <- fetch (huggingface_request sanitizedPrompt) ;;
     if ok response then
       bytes <- await (blob response) ;;
       let dataUrl := lit "data:image/png;base64," ++ base64 bytes in
       ret (Some {| imageUrl := dataUrl; image_success := true;
                    image_error := None |})
     else
       errorText <- await (text response) ;;
       ret None)
    (fun hfError => ret None).

Definition pollinations_url (encodedPrompt : jsstring) (seed : N) : jsstring :=
  pollinations_prefix ++ encodedPrompt
  ++ lit "?width=512&height=512&seed=" ++ decimal seed
  ++ lit "&model=flux&nologo=true".

Definition tryPollinations (sanitizedPrompt : jsstring)
  : M (option GeminiImageResponse) :=
  try_catch
    (encodedPrompt <-
       await match encodeURIComponent sanitizedPrompt with
             | Some s => inr s
             | None => inl (JsError (lit "URI malformed"))
             end ;;
     let seed := (random_draw ext mod 1000000)%N in
     let imageUrl := pollinations_url encodedPrompt seed in
     testResponse <- fetch (pollinations_request imageUrl) ;;
     if ok testResponse
        && match header_content_type testResponse with
           | Some ct => startsWith ct (lit "image/")
           | None => false
           end
     then ret (Some {| imageUrl := imageUrl; image_success := true;
                       image_error := None |})
     else ret None)
    (fun pollError => ret None).

Definition paid_note : jsstring :=
  lit "Note: This used OpenAI DALL-E (paid). Cost: ~$0.04. Add HUGGINGFACE_API_KEY for free images.".

Definition unavailable_note : jsstring :=
  lit "Image generation services temporarily unavailable. We tried Hugging Face and Pollinations.ai free services.".

(** [result.data && result.data[0] && result.data[0].url] *)
Definition first_url (result : ImagesBody) : option jsstring :=
  match data result with
  | Some (first :: _) =>
      match datum_url first with
      | Some u => if truthy u then Some u else None
      | None => None
      end
  | _ => None
  end.

Definition tryOpenAI (sanitizedPrompt : jsstring)
  : M (option GeminiImageResponse) :=
  try_catch
    (response <- fetch (openai_request sanitizedPrompt) ;;
     if ok response then
       result <- await (json_body response) ;;
       match first_url result with
       | Some imageUrl =>
           ret (Some {| imageUrl := imageUrl; image_success := true;
                        image_error :=
                          Some paid_note |})
       | None => ret None
       end
     else
       errorData <- await (json_body response) ;;
       ret None)
    (fun openaiError => ret None).

Definition placeholder_text : jsstring :=
  lit "Image generation temporarily unavailable. Trying multiple free services...".

Definition placeholder_prefix : jsstring :=
  lit "https://via.placeholder.com/1024x1024/3498db/ffffff?text=".

Definition image_failure (message : jsstring) : GeminiImageResponse :=
  {| imageUrl := []; image_success := false; image_error := Some message |}.

(** [generateGeminiImage] *)
Definition generateGeminiImage (prompt : jsstring) : M GeminiImageResponse :=
  try_catch
    (if negb (configured (GEMINI_API_KEY env)) then
       ret (image_failure (lit "Gemini API key not configured"))
     else
       let sanitizedPrompt := sanitizeUserInput prompt in
       if negb (truthy sanitizedPrompt) then
         ret (image_failure (lit "Prompt cannot be empty"))
       else if 2000 <? List.length sanitizedPrompt then
         ret (image_failure (lit "Prompt is too long (max 2000 characters)"))
       else
         a <- (if configured (HUGGINGFACE_API_KEY env)
               then tryHuggingFace sanitizedPrompt else ret None) ;;
         match a with
         | Some r => ret r
         | None =>
             b <- tryPollinations sanitizedPrompt ;;
             match b with
             | Some r => ret r
             | None =>
                 c <- (if configured (OPENAI_API_KEY env)
                       then tryOpenAI sanitizedPrompt else ret None) ;;
                 match c with
                 | Some r => ret r
                 | None =>
                     encoded <-
                       await match encodeURIComponent placeholder_text with
                             | Some s => inr s
                             | None => inl (JsError (lit "URI malformed"))
                             end ;;
                     let placeholderUrl := placeholder_prefix ++ encoded in
                     ret {| imageUrl := placeholderUrl;
                            image_success := true;
                            image_error :=
                              Some unavailable_note |}
                 end
             end
         end)
    (fun error =>
       let message := error_message error in
       if instanceof_Error error
          && includes message (lit "API_KEY_INVALID") then
         ret (image_failure (lit "Invalid Gemini API key"))
       else if instanceof_Error error
               && includes message (lit "QUOTA_EXCEEDED") then
         ret (image_failure
                (lit "API quota exceeded. Please check your billing."))
       else if instanceof_Error error && includes message (lit "SAFETY") then
         ret (image_failure
                (lit "Content filtered by safety settings. Try a different prompt."))
       else if instanceof_Error error
               && includes message (lit "MODEL_NOT_FOUND") then
         ret (image_failure
                (lit "Imagen 3.0 model not available. Please check model access."))
       else ret (image_failure (message_or_unknown error))).

End Service.

(* ================================================================== *)
(** ** [server/trpc/context.ts] *)
(* ================================================================== *)

Record User := {
  sub : jsstring;
  name : option jsstring;
  email : option jsstring;
  picture : option jsstring
}.

(** The parts of [Context] the procedures can observe.  The Supabase
    client handle and the request object are carried along unused. *)
Record Context := { user : option User }.

(** The header list of the request: names with their values, in the
    order they were appended.  A [Headers] object holds only names that
    are tokens and values without line breaks inside. *)
Definition Headers := list (jsstring * jsstring).

(** Names are matched without regard to ASCII case. *)
Definition asciiLower (c : code_unit) : code_unit :=
  if JS.between 65 90 c then (c + 32)%N else c.

Definition byteLowercase (s : jsstring) : jsstring := map asciiLower s.

(** HTTP whitespace: tab, line feed, carriage return, space.  A value is
    kept without the whitespace around it. *)
Definition isHttpWhitespace (c : code_unit) : bool :=
  (N.eqb c 9 || N.eqb c 10 || N.eqb c 13 || N.eqb c 32)%N.

Fixpoint stripLeading (s : jsstring) : jsstring :=
  match s with
  | [] => []
  | c :: cs => if isHttpWhitespace c then stripLeading cs else s
  end.

Definition normalizeValue (v : jsstring) : jsstring :=
  rev (stripLeading (rev (stripLeading v))).

(** The values of the headers named [key], in order. *)
Fixpoint header_values (h : Headers) (key : jsstring) : list jsstring :=
  match h with
  | [] => []
  | (k, v) :: rest =>
      if jsstring_eqb (byteLowercase k) (byteLowercase key)
      then normalizeValue v :: header_values rest key
      else header_values rest key
  end.

(** [req.headers.get(key)]: [null] when no header has the name, else the
    values of the headers that have it, joined by a comma and a space. *)
Definition headers_get (h : Headers) (key : jsstring) : option jsstring :=
  match header_values h key with
  | [] => None
  | v :: vs => Some (fold_left (fun acc x => acc ++ lit ", " ++ x) vs v)
  end.

(** [value || undefined] *)
Definition or_undefined (v : option jsstring) : option jsstring :=
  match v with
  | Some s => if truthy s then Some s else None
  | None => None
  end.

(** [createContext] *)
Definition createContext (headers : Headers) : Context :=
  let userId := headers_get headers (lit "x-user-id") in
  let userName := headers_get headers (lit "x-user-name") in
  let userEmail := headers_get headers (lit "x-user-email") in
  {| user :=
       match or_undefined userId with
       | Some userId =>
           Some {| sub := userId; name := or_undefined userName;
                   email := or_undefined userEmail; picture := None |}
       | None => None
       end |}.

(* ================================================================== *)
(** ** Input schemas *)
(* ================================================================== *)

Module Zod.

Definition parsedType (v : json) : jsstring :=
  match v with
  | JUndefined => lit "undefined"
  | JNull => lit "null"
  | JBool _ => lit "boolean"
  | JNumber _ => lit "number"
  | JString _ => lit "string"
  | JArray _ => lit "array"
  | JObject _ => lit "object"
  end.

Definition invalid_type (expected : jsstring) (path : list jsstring) (v : json)
  : ZodIssue :=
  {| issue_path := path;
     issue_message :=
       match v with
       | JUndefined => lit "Required"
       | _ => lit "Expected " ++ expected ++ lit ", received " ++ parsedType v
       end |}.

(** A check of a string schema: [min n msg] or [max n msg]. *)
Inductive check :=
| min (n : nat) (msg : jsstring)
| max (n : nat) (msg : jsstring).

Definition violated (s : jsstring) (c : check) : option jsstring :=
  match c with
  | min n msg => if List.length s <? n then Some msg else None
  | max n msg => if n <? List.length s then Some msg else None
  end.

Definition issues_of (checks : list check) (path : list jsstring)
  (s : jsstring) : list ZodIssue :=
  flat_map
    (fun c =>
       match violated s c with
       | Some msg => [ {| issue_path := path; issue_message := msg |} ]
       | None => []
       end)
    checks.

(** [z.string().min(..).max(..)] applied to the value found at [path]. *)
Definition string (checks : list check) (path : list jsstring) (v : json)
  : list ZodIssue + jsstring :=
  match v with
  | JString s =>
      match issues_of checks path s with
      | [] => inr s
      | issues => inl issues
      end
  | _ => inl [invalid_type (lit "string") path v]
  end.

Definition issues {A} (r : list ZodIssue + A) : list ZodIssue :=
  match r with inl i => i | inr _ => [] end.

End Zod.

Record SendMessageInput := { sm_message : jsstring; sm_userId : jsstring }.
Record GenerateImageInput := { gi_prompt : jsstring; gi_userId : jsstring }.
Record UserIdInput := { ui_userId : jsstring }.

(** [z.object({ message: z.string().min(1, ..).max(2000, ..),
                userId: z.string() })] *)
Definition sendMessageInput (raw : json) : list ZodIssue + SendMessageInput :=
  match raw with
  | JObject fields =>
      let m := Zod.string
                 [Zod.min 1 (lit "Message cannot be empty");
                  Zod.max 2000 (lit "Message too long")]
                 [lit "message"] (get_field fields (lit "message")) in
      let u := Zod.string [] [lit "userId"] (get_field fields (lit "userId")) in
      match m, u with
      | inr message, inr userId =>
          inr {| sm_message := message; sm_userId := userId |}
      | _, _ => inl (Zod.issues m ++ Zod.issues u)
      end
  | _ => inl [Zod.invalid_type (lit "object") [] raw]
  end.

(** [generateImageInput] *)
Definition generateImageInput (raw : json)
  : list ZodIssue + GenerateImageInput :=
  match raw with
  | JObject fields =>
      let p := Zod.string
                 [Zod.min 1 (lit "Prompt cannot be empty");
                  Zod.max 1000 (lit "Prompt too long")]
                 [lit "prompt"] (get_field fields (lit "prompt")) in
      let u := Zod.string [Zod.min 1 (lit "User ID is required")]
                 [lit "userId"] (get_field fields (lit "userId")) in
      match p, u with
      | inr prompt, inr userId =>
          inr {| gi_prompt := prompt; gi_userId := userId |}
      | _, _ => inl (Zod.issues p ++ Zod.issues u)
      end
  | _ => inl [Zod.invalid_type (lit "object") [] raw]
  end.

(** [z.object({ userId: z.string() })] *)
Definition userIdInput (raw : json) : list ZodIssue + UserIdInput :=
  match raw with
  | JObject fields =>
      match Zod.string [] [lit "userId"] (get_field fields (lit "userId")) with
      | inr userId => inr {| ui_userId := userId |}
      | inl issues => inl issues
      end
  | _ => inl [Zod.invalid_type (lit "object") [] raw]
  end.

(* ================================================================== *)
(** ** [server/trpc/routers/chat.ts] *)
(* ================================================================== *)

Record HistoryOutput := {
  history_success : bool;
  messages : list ChatMessage;
  count : nat
}.

Record SendMessageOutput := {
  send_success : bool;
  userMessage : ChatMessage;
  aiMessage : ChatMessage;
  aiResponse : jsstring;
  geminiSuccess : bool;
  geminiError : option jsstring
}.

Record ClearOutput := {
  clear_success : bool;
  clear_message : jsstring
}.

Record GenerateImageOutput := {
  generate_success : bool;
  generated_imageUrl : jsstring;
  generated_userMessage : ChatMessage;
  generated_aiMessage : ChatMessage;
  generated_prompt : jsstring
}.

(** A middleware receives the context and the rest of the chain. *)
Definition middleware : Type :=
  forall O : Type, Context -> (Context -> M O) -> M O.

(** [isAuthenticated] *)
Definition isAuthenticated : middleware :=
  fun O ctx next =>
    match user ctx with
    | None =>
        throw (TRPCError UNAUTHORIZED
                 (lit "You must be logged in to access this resource"))
    | Some u => next {| user := Some u |}
    end.

Record ProcedureBuilder := { middlewares : list middleware }.

(** [t.procedure] *)
Definition t_procedure : ProcedureBuilder := {| middlewares := [] |}.

(** [builder.use(mw)] *)
Definition use (b : ProcedureBuilder) (mw : middleware) : ProcedureBuilder :=
  {| middlewares := middlewares b ++ [mw] |}.

(** [protectedProcedure] *)
Definition protectedProcedure : ProcedureBuilder :=
  use t_procedure isAuthenticated.

Fixpoint run_middlewares {O} (mws : list middleware) (ctx : Context)
  (k : Context -> M O) : M O :=
  match mws with
  | [] => k ctx
  | mw :: rest => mw O ctx (fun ctx' => run_middlewares rest ctx' k)
  end.

Definition apology_text : jsstring :=
  lit "I apologize, but I encountered an error processing your message. Please try again.".

Definition user_text (userId text : jsstring) : NewMessage :=
  {| new_user_id := userId; new_role := user_role; new_content := text;
     new_content_type := text_type |}.

Definition model_text (userId text : jsstring) : NewMessage :=
  {| new_user_id := userId; new_role := model_role; new_content := text;
     new_content_type := text_type |}.

Definition model_image (userId imageUrl : jsstring) : NewMessage :=
  {| new_user_id := userId; new_role := model_role; new_content := imageUrl;
     new_content_type := image_type |}.

(** [e || fallback] for an optional string. *)
Definition opt_or_else (e : option jsstring) (fallback : jsstring) : jsstring :=
  match e with
  | Some s => or_else s fallback
  | None => fallback
  end.

Section Router.

Variable env : Env.
Variable ext : External.

(** [builder.input(schema).query(resolver)], [.mutation(resolver)] or
    [.subscription(resolver)]: the middlewares run first, in the order
    they were added, then the input is parsed, then the resolver runs. *)
Definition procedure {I O} (b : ProcedureBuilder)
  (schema : json -> list ZodIssue + I) (resolver : Context -> I -> M O)
  : Context -> json -> M O :=
  fun ctx rawInput =>
    run_middlewares (middlewares b) ctx
      (fun ctx' =>
         match schema rawInput with
         | inl issues => throw (TRPCError BAD_REQUEST (zod_message ext issues))
         | inr input => resolver ctx' input
         end).

Definition getChatHistory_resolver (ctx : Context) (input : UserIdInput)
  : M HistoryOutput :=
  try_catch
    (messages <- getMessagesForUser (ui_userId input) ;;
     ret {| history_success := true; messages := messages;
            count := List.length messages |})
    (fun error =>
       throw (TRPCError INTERNAL_SERVER_ERROR
                (lit "Failed to fetch chat history"))).

Definition sendMessage_resolver (ctx : Context) (input : SendMessageInput)
  : M SendMessageOutput :=
  let userId := sm_userId input in
  let sanitizedMessage := sanitizeUserInput (sm_message input) in
  try_catch
    (userMessage <- addMessage (user_text userId sanitizedMessage) ;;
     geminiResponse <- generateGeminiResponse env ext sanitizedMessage ;;
     aiMessage <- addMessage (model_text userId (response geminiResponse)) ;;
     ret {| send_success := true;
            userMessage := userMessage;
            aiMessage := aiMessage;
            aiResponse := response geminiResponse;
            geminiSuccess := success geminiResponse;
            geminiError := error geminiResponse |})
    (fun error =>
       try_catch
         (addMessage (model_text userId apology_text) ;;; ret tt)
         (fun dbError => ret tt) ;;;
       throw (TRPCError INTERNAL_SERVER_ERROR
                (lit "Failed to process your message"))).

(** The [for await] loop of [sendMessageStream] over the items of the
    generator; it stops at the first item marked done. *)
Fixpoint consume (userId : jsstring) (items : list GeminiStreamResponse)
  (fullResponse : jsstring) : M unit :=
  match items with
  | [] => ret tt
  | c :: rest =>
      if negb (done c) then
        let fullResponse := fullResponse ++ chunk c in
        yield (chunk_event (chunk c) fullResponse (chunk_success c)) ;;;
        consume userId rest fullResponse
      else if chunk_success c then
        aiMessage <- addMessage (model_text userId fullResponse) ;;
        yield (complete_event aiMessage fullResponse)
      else
        let errorMessage := or_else (chunk c) apology_text in
        try_catch
          (aiMessage <- addMessage (model_text userId errorMessage) ;;
           yield (error_event (Some aiMessage)
                    (opt_or_else (chunk_error c) (lit "Unknown error"))))
          (fun dbError =>
             yield (error_event None (lit "Failed to save error message")))
  end.

Definition sendMessageStream_resolver (ctx : Context)
  (input : SendMessageInput) : M unit :=
  let userId := sm_userId input in
  let sanitizedMessage := sanitizeUserInput (sm_message input) in
  try_catch
    (userMessage <- addMessage (user_text userId sanitizedMessage) ;;
     yield (userMessageSaved userMessage) ;;;
     items <- generateGeminiStreamResponse env ext sanitizedMessage ;;
     consume userId items [])
    (fun error =>
       try_catch
         (aiMessage <- addMessage (model_text userId apology_text) ;;
          yield (error_event (Some aiMessage) (message_or_unknown error)))
         (fun dbError =>
            yield (error_event None (lit "Failed to save error message")))).

Definition clearHistory_resolver (ctx : Context) (input : UserIdInput)
  : M ClearOutput :=
  try_catch
    (clearUserHistory (ui_userId input) ;;;
     ret {| clear_success := true;
            clear_message := lit "Chat history cleared successfully" |})
    (fun error =>
       throw (TRPCError INTERNAL_SERVER_ERROR
                (lit "Failed to clear chat history"))).

Definition generateImage_resolver (ctx : Context) (input : GenerateImageInput)
  : M GenerateImageOutput :=
  try_catch
    (let prompt := gi_prompt input in
     let userId := gi_userId input in
     let sanitizedPrompt := sanitizeUserInput prompt in
     savedUserMessage <- addMessage (user_text userId sanitizedPrompt) ;;
     imageResponse <- generateGeminiImage env ext sanitizedPrompt ;;
     if negb (image_success imageResponse) then
       throw (TRPCError INTERNAL_SERVER_ERROR
                (opt_or_else (image_error imageResponse)
                   (lit "Failed to generate image")))
     else
       savedAiMessage <-
         addMessage (model_image userId (imageUrl imageResponse)) ;;
       ret {| generate_success := true;
              generated_imageUrl := imageUrl imageResponse;
              generated_userMessage := savedUserMessage;
              generated_aiMessage := savedAiMessage;
              generated_prompt := sanitizedPrompt |})
    (fun error =>
       if instanceof_TRPCError error then throw error
       else throw (TRPCError INTERNAL_SERVER_ERROR
                     (lit "Failed to generate image"))).

(** *** chatRouter: every operation is built on [t.procedure] *)

Definition getChatHistory : Context -> json -> M HistoryOutput :=
  procedure t_procedure userIdInput getChatHistory_resolver.

Definition sendMessage : Context -> json -> M SendMessageOutput :=
  procedure t_procedure sendMessageInput sendMessage_resolver.

Definition sendMessageStream : Context -> json -> M unit :=
  procedure t_procedure sendMessageInput sendMessageStream_resolver.

Definition clearHistory : Context -> json -> M ClearOutput :=
  procedure t_procedure userIdInput clearHistory_resolver.

Definition generateImage : Context -> json -> M GenerateImageOutput :=
  procedure t_procedure generateImageInput generateImage_resolver.

End Router.

(* ================================================================== *)
(** ** Observing a run *)
(* ================================================================== *)

(** The world after the requests [reqs] were sent and nothing else
    happened. *)
Definition advance (reqs : list request) (w : World) : World :=
  {| table := table w; next_id := next_id w;
     now := List.length reqs + now w; faults := faults w;
     log := log w ++ reqs; outbox := outbox w |}.

(** The requests sent between two worlds of one run. *)
Definition issued (before after : World) : list request :=
  skipn (List.length (log before)) (log after).

Inductive provider := ProviderA | ProviderB | ProviderC.

Definition provider_eqb (p q : provider) : bool :=
  match p, q with
  | ProviderA, ProviderA | ProviderB, ProviderB | ProviderC, ProviderC => true
  | _, _ => false
  end.

(** Which provider a request goes to, by its address. *)
Definition provider_of (r : request) : option provider :=
  match r with
  | Fetch f =>
      if jsstring_eqb (url f) huggingface_url then Some ProviderA
      else if startsWith (url f) pollinations_prefix then Some ProviderB
      else if jsstring_eqb (url f) openai_url then Some ProviderC
      else None
  | _ => None
  end.

(** What the chain makes of a provider's answer: the response it returns
    with, or [None] when it moves on. *)
Definition huggingface_outcome (a : thrown + Response)
  : option GeminiImageResponse :=
  match a with
  | inr r =>
      if ok r then
        match blob r with
        | inr bytes =>
            Some {| imageUrl := lit "data:image/png;base64," ++ base64 bytes;
                    image_success := true; image_error := None |}
        | inl _ => None
        end
      else None
  | inl _ => None
  end.

Definition pollinations_outcome (imageUrl : jsstring) (a : thrown + Response)
  : option GeminiImageResponse :=
  match a with
  | inr r =>
      if ok r
         && match header_content_type r with
            | Some ct => startsWith ct (lit "image/")
            | None => false
            end
      then Some {| imageUrl := imageUrl; image_success := true;
                   image_error := None |}
      else None
  | inl _ => None
  end.

Definition openai_outcome (a : thrown + Response)
  : option GeminiImageResponse :=
  match a with
  | inr r =>
      if ok r then
        match json_body r with
        | inr result =>
            match first_url result with
            | Some u =>
                Some {| imageUrl := u; image_success := true;
                        image_error :=
                          Some paid_note |}
            | None => None
            end
        | inl _ => None
        end
      else None
  | inl _ => None
  end.

Definition is_some {A} (o : option A) : bool :=
  match o with Some _ => true | None => false end.

(** Whether the chain accepts the answer the outside gives to a request. *)
Definition answer_accepted (ext : External) (r : request) : bool :=
  match r with
  | Fetch f =>
      match provider_of r with
      | Some ProviderA => is_some (huggingface_outcome (fetch_answer ext f))
      | Some ProviderB =>
          is_some (pollinations_outcome (url f) (fetch_answer ext f))
      | Some ProviderC => is_some (openai_outcome (fetch_answer ext f))
      | None => false
      end
  | _ => false
  end.

(** The attempts among [reqs]: which provider was asked, and whether its
    answer was accepted. *)
Definition attempts (ext : External) (reqs : list request)
  : list (provider * bool) :=
  flat_map (fun r => match provider_of r with
                     | Some p => [(p, answer_accepted ext r)]
                     | None => []
                     end) reqs.

Definition providers (ext : External) (reqs : list request) : list provider :=
  map fst (attempts ext reqs).

Definition invoked (ext : External) (reqs : list request) (p : provider)
  : bool :=
  existsb (fun a => provider_eqb p (fst a)) (attempts ext reqs).

(** Provider [p] was tried among [reqs] and its answer was accepted. *)
Definition succeeded (ext : External) (reqs : list request) (p : provider)
  : bool :=
  existsb (fun a => provider_eqb p (fst a) && snd a) (attempts ext reqs).

Definition placeholder_response : GeminiImageResponse :=
  {| imageUrl :=
       placeholder_prefix
       ++ lit "Image%20generation%20temporarily%20unavailable.%20Trying%20multiple%20free%20services...";
     image_success := true;
     image_error :=
       Some unavailable_note |}.

(** The three steps of the chain as functions of the environment: the
    requests a step sends and the response it returns with, if any. *)
Definition stepA (env : Env) (ext : External) (p : jsstring)
  : list request * option GeminiImageResponse :=
  if configured (HUGGINGFACE_API_KEY env) then
    ([Fetch (huggingface_request env p)],
     huggingface_outcome (fetch_answer ext (huggingface_request env p)))
  else ([], None).

Definition stepB (ext : External) (p : jsstring)
  : list request * option GeminiImageResponse :=
  match encodeURIComponent p with
  | Some encoded =>
      let u := pollinations_url encoded (random_draw ext mod 1000000)%N in
      ([Fetch (pollinations_request u)],
       pollinations_outcome u (fetch_answer ext (pollinations_request u)))
  | None => ([], None)
  end.

Definition stepC (env : Env) (ext : External) (p : jsstring)
  : list request * option GeminiImageResponse :=
  if configured (OPENAI_API_KEY env) then
    ([Fetch (openai_request env p)],
     openai_outcome (fetch_answer ext (openai_request env p)))
  else ([], None).

(** The chain after the early checks, on a sanitized prompt. *)
Definition chain (env : Env) (ext : External) (p : jsstring)
  : list request * GeminiImageResponse :=
  match stepA env ext p with
  | (ra, Some r) => (ra, r)
  | (ra, None) =>
      match stepB ext p with
      | (rb, Some r) => (ra ++ rb, r)
      | (rb, None) =>
          match stepC env ext p with
          | (rc, Some r) => (ra ++ rb ++ rc, r)
          | (rc, None) => (ra ++ rb ++ rc, placeholder_response)
          end
      end
  end.

(** The request the chain has for a provider on the sanitized prompt [p]:
    none for A or C without its key, none for B when the prompt cannot be
    encoded. *)
Definition request_for (env : Env) (ext : External) (p : jsstring)
  (q : provider) : list request :=
  match q with
  | ProviderA =>
      if configured (HUGGINGFACE_API_KEY env)
      then [Fetch (huggingface_request env p)] else []
  | ProviderB =>
      match encodeURIComponent p with
      | Some encoded =>
          [Fetch (pollinations_request
                    (pollinations_url encoded
                       (random_draw ext mod 1000000)%N))]
      | None => []
      end
  | ProviderC =>
      if configured (OPENAI_API_KEY env)
      then [Fetch (openai_request env p)] else []
  end.

(** A provider succeeds in an environment when the chain has a request
    for it and the outside answers that request with what the chain
    accepts; otherwise it fails. *)
Definition provider_succeeds (env : Env) (ext : External) (p : jsstring)
  (q : provider) : bool :=
  existsb (answer_accepted ext) (request_for env ext p q).

(** [generateGeminiImage] as a function of the environment. *)
Definition image_run (env : Env) (ext : External) (prompt : jsstring)
  : list request * GeminiImageResponse :=
  if negb (configured (GEMINI_API_KEY env)) then
    ([], image_failure (lit "Gemini API key not configured"))
  else if negb (truthy (sanitizeUserInput prompt)) then
    ([], image_failure (lit "Prompt cannot be empty"))
  else chain env ext (sanitizeUserInput prompt).

(** The store answers its next [n] requests without error. *)
Definition store_accepts (n : nat) (w : World) : Prop :=
  Forall (fun f => f = None) (firstn n (faults w)).

Definition older (a b : ChatMessage) : Prop := created_at a < created_at b.

(** Rows are kept in the order of their timestamps, all in the past. *)
Definition store_wf (w : World) : Prop :=
  StronglySorted older (table w)
  /\ Forall (fun r => created_at r < now w) (table w).

(** A raw input of [sendMessage] and of [generateImage]. *)
Definition message_input (message userId : jsstring) : json :=
  JObject [ (lit "message", JString message); (lit "userId", JString userId) ].

Definition prompt_input (prompt userId : jsstring) : json :=
  JObject [ (lit "prompt", JString prompt); (lit "userId", JString userId) ].

Definition userId_input (userId : jsstring) : json :=
  JObject [ (lit "userId", JString userId) ].

(** What the [catch] of [generateGeminiResponse] returns. *)
Definition text_failure (error : thrown) : GeminiResponse :=
  if instanceof_Error error
     && includes (error_message error) (lit "API_KEY") then
    {| response := invalid_key_text; success := false;
       error := Some (lit "Invalid API key") |}
  else if instanceof_Error error
          && is_quota_message (error_message error) then
    {| response := overloaded_text; success := false;
       error := Some (lit "Service temporarily overloaded") |}
  else
    {| response := difficulties_text; success := false;
       error := Some (message_or_unknown error) |}.

(** [generateGeminiResponse] as a function of the environment: the
    requests it sends and what it returns. *)
Definition text_run (env : Env) (ext : External) (userMessage : jsstring)
  : list request * GeminiResponse :=
  if negb (configured (GEMINI_API_KEY env)) then
    ([], {| response := not_configured_text; success := false;
            error := Some (lit "Gemini API key not configured") |})
  else
    ([GenerateContent (text_prompt userMessage)],
     match generateContent_answer ext (text_prompt userMessage) with
     | inr text => {| response := text; success := true; error := None |}
     | inl e => text_failure e
     end).

Definition is_insert (r : request) : bool :=
  match r with DbInsert _ => true | _ => false end.

(** What [getMessagesForUser] reads for [userId] in a world. *)
Definition history (userId : jsstring) (w : World) : list ChatMessage :=
  order_by_created_at (filter (owned_by userId) (table w)).

(* ================================================================== *)
(** ** Sessions ([lib/auth0.ts]) *)
(* ================================================================== *)

(** The cookie store of the request: cookie names with their values. *)
Definition CookieStore := list (jsstring * jsstring).

(** [cookieStore.get(name)], of which only [.value] is read. *)
Fixpoint cookie_get (store : CookieStore) (name : jsstring) : option jsstring :=
  match store with
  | [] => None
  | (n, v) :: rest => if jsstring_eqb n name then Some v else cookie_get rest name
  end.

(** Truthiness of a value. *)
Definition json_truthy (v : json) : bool :=
  match v with
  | JUndefined | JNull => false
  | JBool b => b
  | JNumber q => negb (Qeq_bool q 0)
  | JString s => truthy s
  | JArray _ | JObject _ => true
  end.

(** [session.expiresAt]: reading a property of [null] throws, a value
    that is not an object has no such property. *)
Definition read_expiresAt (session : json) : thrown + json :=
  match session with
  | JObject fields => inr (get_field fields (lit "expiresAt"))
  | JNull | JUndefined =>
      inl (JsError (lit "Cannot read properties of null (reading 'expiresAt')"))
  | _ => inr JUndefined
  end.

Section Session.

(** [JSON.parse], and the conversion to a number of a string, an array or
    an object, are the language's; they are not rebuilt here. *)
Variable JSON_parse : jsstring -> thrown + json.
Variable ToNumber : json -> option Q.

(** [Date.now() > v]: [v] is converted to a number, and no number is
    greater than a value that converts to none. *)
Definition now_greater_than (now : Z) (v : json) : bool :=
  match match v with
        | JNumber q => Some q
        | JBool true => Some 1%Q
        | JBool false | JNull => Some 0%Q
        | JUndefined => None
        | JString _ | JArray _ | JObject _ => ToNumber v
        end with
  | Some q => negb (Qle_bool (inject_Z now) q)
  | None => false
  end.

(** [auth0.getSession]: [cookies] is what [await cookies()] gives, [now]
    is [Date.now()]; [None] is the [null] the function returns. *)
Definition getSession (cookies : thrown + CookieStore) (now : Z) : option json :=
  match
    match cookies with
    | inl e => inl e
    | inr cookieStore =>
        let isAuthenticated :=
          cookie_get cookieStore (lit "auth0.is.authenticated") in
        let sessionCookie := cookie_get cookieStore (lit "auth0.session") in
        match isAuthenticated, sessionCookie with
        | Some flag, Some value =>
            if negb (jsstring_eqb flag (lit "true")) then inr None
            else
              match JSON_parse value with
              | inl e => inl e
              | inr session =>
                  match read_expiresAt session with
                  | inl e => inl e
                  | inr expiresAt =>
                      if json_truthy expiresAt
                         && now_greater_than now expiresAt
                      then inr None
                      else inr (Some session)
                  end
              end
        | _, _ => inr None
        end
    end
  with
  | inr result => result
  | inl error => None
  end.

End Session.

(* ================================================================== *)
(** ** [server/trpc/router.ts] *)
(* ================================================================== *)

Record ProfileOutput := {
  profile_user : option User;
  authenticated : bool
}.

(** [appRouter.user.profile]: a query on [t.procedure] without input. *)
Definition profile (ctx : Context) : M ProfileOutput :=
  run_middlewares (middlewares t_procedure) ctx
    (fun ctx' =>
       ret {| profile_user := user ctx';
              authenticated := match user ctx' with
                               | Some _ => true
                               | None => false
                               end |}).

(* ================================================================== *)
(** ** Observing more runs *)
(* ================================================================== *)

(** [generateGeminiStreamResponse] as a function of the environment: the
    requests it sends and the items it yields. *)
Definition readable (c : thrown + jsstring) : list GeminiStreamResponse :=
  match c with
  | inr chunkText =>
      [ {| chunk := chunkText; done := false; chunk_success := true;
           chunk_error := None |} ]
  | inl _ => []
  end.

Definition stream_run (env : Env) (ext : External) (userMessage : jsstring)
  : list request * list GeminiStreamResponse :=
  if negb (configured (GEMINI_API_KEY env)) then
    ([], [ {| chunk := not_configured_text; done := true;
              chunk_success := false;
              chunk_error := Some (lit "Gemini API key not configured") |} ])
  else
    ([GenerateContentStream (text_prompt userMessage)],
     match generateContentStream_answer ext (text_prompt userMessage) with
     | inl e => [stream_failure e]
     | inr result =>
         flat_map readable (stream_chunks result)
         ++ [ match stream_end result with
              | None => {| chunk := []; done := true; chunk_success := true;
                           chunk_error := None |}
              | Some e => stream_failure e
              end ]
     end).

(** The events the loop of [sendMessageStream] yields for items that are
    not done, starting from the text accumulated so far. *)
Fixpoint chunk_events (items : list GeminiStreamResponse) (full : jsstring)
  : list StreamEvent :=
  match items with
  | [] => []
  | c :: rest =>
      chunk_event (chunk c) (full ++ chunk c) (chunk_success c)
      :: chunk_events rest (full ++ chunk c)
  end.

(** The text accumulated over items. *)
Definition accumulated (items : list GeminiStreamResponse) : jsstring :=
  flat_map chunk items.

Definition is_terminal (ev : StreamEvent) : bool :=
  match ev with
  | complete_event _ _ | error_event _ _ => true
  | userMessageSaved _ | chunk_event _ _ _ => false
  end.

(** The world after the events [evs] were yielded. *)
Definition yielded (evs : list StreamEvent) (w : World) : World :=
  {| table := table w; next_id := next_id w; now := now w;
     faults := faults w; log := log w; outbox := outbox w ++ evs |}.

(** The answer the store gives to the [k]-th of its coming requests. *)
Definition fault (k : nat) (w : World) : option thrown :=
  nth k (faults w) None.

(** The errors the RPC layer itself produces. *)
Definition is_rpc_error (e : thrown) : bool :=
  match e with
  | TRPCError BAD_REQUEST _ | TRPCError INTERNAL_SERVER_ERROR _ => true
  | _ => false
  end.

(** No error of the store is a [TRPCError]. *)
Definition store_errors_plain (w : World) : Prop :=
  Forall (fun f => match f with
                   | Some e => instanceof_TRPCError e = false
                   | None => True
                   end) (faults w).

(** A relation that holds between the world before and after every run of
    a computation. *)
Definition steps {A} (R : World -> World -> Prop) (m : M A) : Prop :=
  forall w, R w (snd (m w)).

(** The message a row was inserted as. *)
Definition message_of (r : ChatMessage) : NewMessage :=
  {| new_user_id := user_id r; new_role := role r; new_content := content r;
     new_content_type := content_type r |}.

(** The table only grew, by rows that satisfy [Q]. *)
Definition appends (Q : NewMessage -> Prop) (w w' : World) : Prop :=
  exists added,
    table w' = table w ++ added
    /\ Forall (fun r => Q (message_of r)) added.

(** A row of one turn of user [userId] on input [text]: it is the
    user's, and if the user wrote it, it is the sanitized text. *)
Definition turn_row (userId text : jsstring) (m : NewMessage) : Prop :=
  new_user_id m = userId
  /\ (new_role m = user_role ->
      new_content m = sanitizeUserInput text
      /\ new_content_type m = text_type).

Definition not_newer (a b : ChatMessage) : Prop :=
  created_at a <= created_at b.

(** [s] is [t] with some code units deleted. *)
Inductive Subseq : jsstring -> jsstring -> Prop :=
| Subseq_nil : Subseq [] []
| Subseq_skip : forall c s t, Subseq s t -> Subseq s (c :: t)
| Subseq_keep : forall c s t, Subseq s t -> Subseq (c :: s) (c :: t).

Definition no_angle_bracket (s : jsstring) : Prop :=
  Forall (fun c => isAngleBracket c = false) s.

(** A string as the language has them: code units of sixteen bits. *)
Definition utf16 (s : jsstring) : Prop := Forall (fun c => (c < 65536)%N) s.

(** Code units that cannot end the path of a URL or separate its query. *)
Definition url_safe (c : code_unit) : bool := isUnreserved c || N.eqb c 37.

(* ================================================================== *)
(** ** Sample environments, used to run the definitions *)
(* ================================================================== *)

Definition empty_world : World :=
  {| table := []; next_id := 0; now := 0; faults := []; log := [];
     outbox := [] |}.

Definition all_keys : Env :=
  {| GEMINI_API_KEY := Some (lit "g-key");
     HUGGINGFACE_API_KEY := Some (lit "hf-key");
     OPENAI_API_KEY := Some (lit "sk-key") |}.

Definition free_keys : Env :=
  {| GEMINI_API_KEY := Some (lit "g-key");
     HUGGINGFACE_API_KEY := Some (lit "hf-key");
     OPENAI_API_KEY := None |}.

Definition gemini_only : Env :=
  {| GEMINI_API_KEY := Some (lit "g-key");
     HUGGINGFACE_API_KEY := None;
     OPENAI_API_KEY := None |}.

Definition huggingface_only : Env :=
  {| GEMINI_API_KEY := None;
     HUGGINGFACE_API_KEY := Some (lit "hf-key");
     OPENAI_API_KEY := None |}.

Definition no_gemini_key : Env :=
  {| GEMINI_API_KEY := None;
     HUGGINGFACE_API_KEY := Some (lit "hf-key");
     OPENAI_API_KEY := Some (lit "sk-key") |}.

Definition png_response : Response :=
  {| ok := true; header_content_type := Some (lit "image/png");
     blob := inr [137; 80; 78; 71]%N; text := inr [];
     json_body := inl (JsError (lit "Unexpected token")) |}.

Definition unavailable_response : Response :=
  {| ok := false; header_content_type := Some (lit "text/plain");
     blob := inr []; text := inr (lit "Service Unavailable");
     json_body := inl (JsError (lit "Unexpected token")) |}.

Definition join_messages (issues : list ZodIssue) : jsstring :=
  flat_map (fun i => issue_message i ++ [10%N]) issues.

(** Outside services that answer the three providers with [a], [b] and
    [c], and the text model with [t]. *)
Definition scripted (a b c : thrown + Response) (t : thrown + jsstring)
  : External :=
  {| fetch_answer :=
       fun f => match provider_of (Fetch f) with
                | Some ProviderA => a
                | Some ProviderB => b
                | Some ProviderC => c
                | None => inl NonError
                end;
     generateContent_answer := fun _ => t;
     generateContentStream_answer :=
       fun _ => match t with
                | inl e => inl e
                | inr s => inr {| stream_chunks := [inr s];
                                  stream_end := None |}
                end;
     random_draw := 123456789;
     zod_message := join_messages |}.

Definition down : thrown + Response := inl (JsError (lit "fetch failed")).

Definition anonymous : Context := {| user := None |}.

(** Provider A answers with an image; only provider B does; nobody does;
    the text model is out of quota. *)
Definition first_up : External :=
  scripted (inr png_response) down down (inl NonError).

Definition second_up : External :=
  scripted (inr unavailable_response) (inr png_response) down (inl NonError).

Definition all_down : External :=
  scripted (inr unavailable_response) down down (inl NonError).

Definition out_of_quota : External :=
  scripted down down down (inl (JsError (lit "429: quota exceeded"))).

Definition greeter : External :=
  scripted down down down (inr (lit "Hi there")).

Definition returned {A} (r : thrown + A) : bool :=
  match r with inr _ => true | inl _ => false end.

(** A store that refuses the next request. *)
Definition failing_store : World :=
  {| table := []; next_id := 0; now := 0;
     faults := [Some (JsError (lit "connection refused"))]; log := [];
     outbox := [] |}.

(** A store with two rows of user u1 around one row of user u2. *)
Definition two_users : World :=
  {| table :=
       [ {| id := 0; user_id := lit "u1"; created_at := 0;
            role := user_role; content := lit "Hello";
            content_type := text_type |};
         {| id := 1; user_id := lit "u2"; created_at := 1;
            role := user_role; content := lit "Bonjour";
            content_type := text_type |};
         {| id := 2; user_id := lit "u1"; created_at := 2;
            role := model_role; content := lit "Hi there";
            content_type := text_type |} ];
     next_id := 3; now := 3; faults := []; log := []; outbox := [] |}.

Definition refuse_second : World :=
  {| table := []; next_id := 0; now := 0;
     faults := [None; Some (JsError (lit "connection refused"))]; log := [];
     outbox := [] |}.

(** A stream of three chunks, the second unreadable, that ends normally. *)
Definition streaming : External :=
  {| fetch_answer := fun _ => inl NonError;
     generateContent_answer := fun _ => inl NonError;
     generateContentStream_answer :=
       fun _ => inr {| stream_chunks :=
                         [inr (lit "Hi"); inl NonError; inr (lit " there")];
                       stream_end := None |};
     random_draw := 7;
     zod_message := join_messages |}.

(** A parser that knows two cookie values. *)
Definition parse_sample (s : jsstring) : thrown + json :=
  if jsstring_eqb s (lit "{expiresAt:1000}") then
    inr (JObject [ (lit "user", JObject [(lit "sub", JString (lit "u1"))]);
                   (lit "expiresAt", JNumber 1000) ])
  else if jsstring_eqb s (lit "{expiresAt:null}") then
    inr (JObject [ (lit "user", JObject [(lit "sub", JString (lit "u1"))]);
                   (lit "expiresAt", JNull) ])
  else inl (JsError (lit "Unexpected token")).

Definition no_number (v : json) : option Q := None.

Definition cookies_of (session : jsstring) : thrown + CookieStore :=
  inr [ (lit "auth0.is.authenticated", lit "true");
        (lit "auth0.session", session) ].

(* ================================================================== *)
(** ** Facts about strings and the sanitizer *)
(* ================================================================== *)

Arguments lit : simpl never.
Arguments sanitizeUserInput : simpl never.
Arguments encodeURIComponent : simpl never.
Arguments includes : simpl never.
Arguments base64 : simpl never.

Lemma jsstring_eqb_eq (a b : jsstring) : jsstring_eqb a b = true <-> a = b.
Proof.
  unfold jsstring_eqb. destruct (list_eq_dec N.eq_dec a b); split;
    intros; congruence.
Qed.

Lemma jsstring_eqb_refl (a : jsstring) : jsstring_eqb a a = true.
Proof. apply jsstring_eqb_eq. reflexivity. Qed.

Lemma jsstring_eqb_neq (a b : jsstring) : a <> b -> jsstring_eqb a b = false.
Proof.
  intros H. unfold jsstring_eqb.
  destruct (list_eq_dec N.eq_dec a b); congruence.
Qed.

Lemma sanitize_length (input : jsstring) :
  List.length (sanitizeUserInput input) <= 2000.
Proof.
  unfold sanitizeUserInput, stripAngleBrackets, slice0.
  eapply Nat.le_trans; [apply filter_length_le | apply firstn_le_length].
Qed.

Lemma sanitize_not_too_long (input : jsstring) :
  (2000 <? List.length (sanitizeUserInput input)) = false.
Proof. apply Nat.ltb_ge. apply sanitize_length. Qed.

Lemma sanitize_no_angle_bracket (input : jsstring) (c : code_unit) :
  In c (sanitizeUserInput input) -> c <> 60%N /\ c <> 62%N.
Proof.
  unfold sanitizeUserInput, stripAngleBrackets. intros H.
  apply filter_In in H. destruct H as [_ H].
  unfold isAngleBracket in H. apply negb_true_iff, orb_false_iff in H.
  destruct H as [H1 H2]. apply N.eqb_neq in H1. apply N.eqb_neq in H2.
  split; assumption.
Qed.

Lemma placeholder_encoded :
  encodeURIComponent placeholder_text
  = Some (lit "Image%20generation%20temporarily%20unavailable.%20Trying%20multiple%20free%20services...").
Proof. vm_compute. reflexivity. Qed.

(* ================================================================== *)
(** ** Running the image chain *)
(* ================================================================== *)

Ltac async := cbv beta delta [bind try_catch ret throw await fetch].

Lemma send_run (r : request) (w : World) :
  send r w = (inr tt, advance [r] w).
Proof. reflexivity. Qed.

Lemma advance_nil (w : World) : advance [] w = w.
Proof.
  destruct w. unfold advance. simpl. rewrite app_nil_r. reflexivity.
Qed.

Lemma advance_app (r1 r2 : list request) (w : World) :
  advance r2 (advance r1 w) = advance (r1 ++ r2) w.
Proof.
  unfold advance. simpl. rewrite length_app, <- app_assoc.
  f_equal. lia.
Qed.

Lemma issued_advance (reqs : list request) (w : World) :
  issued w (advance reqs w) = reqs.
Proof.
  unfold issued, advance. simpl.
  rewrite skipn_app, skipn_all, Nat.sub_diag. reflexivity.
Qed.

Section ChainRuns.

Variable env : Env.
Variable ext : External.

Lemma tryHuggingFace_run (p : jsstring) (w : World) :
  tryHuggingFace env ext p w
  = (inr (huggingface_outcome (fetch_answer ext (huggingface_request env p))),
     advance [Fetch (huggingface_request env p)] w).
Proof.
  unfold tryHuggingFace. async. rewrite send_run.
  destruct (fetch_answer ext (huggingface_request env p)) as [e | r];
    [reflexivity |].
  unfold huggingface_outcome.
  destruct (ok r); [destruct (blob r) | destruct (text r)]; reflexivity.
Qed.

Lemma tryPollinations_run (p : jsstring) (w : World) :
  tryPollinations ext p w
  = (inr (snd (stepB ext p)), advance (fst (stepB ext p)) w).
Proof.
  unfold tryPollinations, stepB. async.
  destruct (encodeURIComponent p) as [encoded |];
    [| simpl; rewrite advance_nil; reflexivity].
  rewrite send_run. cbv zeta.
  destruct (fetch_answer ext _) as [e | r]; [reflexivity |].
  unfold pollinations_outcome. cbn [fst snd].
  destruct (ok r && _); reflexivity.
Qed.

Lemma tryOpenAI_run (p : jsstring) (w : World) :
  tryOpenAI env ext p w
  = (inr (openai_outcome (fetch_answer ext (openai_request env p))),
     advance [Fetch (openai_request env p)] w).
Proof.
  unfold tryOpenAI. async. rewrite send_run.
  destruct (fetch_answer ext (openai_request env p)) as [e | r];
    [reflexivity |].
  unfold openai_outcome.
  destruct (ok r); destruct (json_body r) as [e | result];
    try reflexivity.
  destruct (first_url result); reflexivity.
Qed.

Lemma stepA_run (p : jsstring) (w : World) :
  (if configured (HUGGINGFACE_API_KEY env)
   then tryHuggingFace env ext p else ret None) w
  = (inr (snd (stepA env ext p)), advance (fst (stepA env ext p)) w).
Proof.
  unfold stepA. destruct (configured (HUGGINGFACE_API_KEY env)).
  - apply tryHuggingFace_run.
  - simpl. rewrite advance_nil. reflexivity.
Qed.

Lemma stepC_run (p : jsstring) (w : World) :
  (if configured (OPENAI_API_KEY env)
   then tryOpenAI env ext p else ret None) w
  = (inr (snd (stepC env ext p)), advance (fst (stepC env ext p)) w).
Proof.
  unfold stepC. destruct (configured (OPENAI_API_KEY env)).
  - apply tryOpenAI_run.
  - simpl. rewrite advance_nil. reflexivity.
Qed.

(** [generateGeminiImage] never throws: it answers [image_run] and sends
    exactly the requests of [image_run]. *)
Lemma generateGeminiImage_run (prompt : jsstring) (w : World) :
  generateGeminiImage env ext prompt w
  = (inr (snd (image_run env ext prompt)),
     advance (fst (image_run env ext prompt)) w).
Proof.
  unfold generateGeminiImage, image_run.
  destruct (configured (GEMINI_API_KEY env));
    [| cbn; rewrite advance_nil; reflexivity].
  cbv zeta. cbn [negb].
  destruct (truthy (sanitizeUserInput prompt));
    [| cbn; rewrite advance_nil; reflexivity].
  cbn [negb]. rewrite sanitize_not_too_long.
  set (p := sanitizeUserInput prompt).
  unfold try_catch at 1. unfold bind at 1. rewrite stepA_run.
  unfold chain. destruct (stepA env ext p) as [ra [r |]]; cbn [fst snd].
  - reflexivity.
  - unfold bind at 1. rewrite tryPollinations_run.
    destruct (stepB ext p) as [rb [r |]]; cbn [fst snd].
    + unfold ret. rewrite advance_app. reflexivity.
    + unfold bind at 1. rewrite stepC_run.
      destruct (stepC env ext p) as [rc [r |]]; cbn [fst snd].
      * unfold ret. rewrite !advance_app. reflexivity.
      * rewrite placeholder_encoded. unfold bind, await, ret.
        rewrite !advance_app. reflexivity.
Qed.

End ChainRuns.

(* ================================================================== *)
(** ** The attempts of a run *)
(* ================================================================== *)

Lemma startsWith_app (p x : jsstring) : startsWith (p ++ x) p = true.
Proof.
  induction p as [| c p IH]; simpl; [destruct x; reflexivity |].
  rewrite N.eqb_refl. exact IH.
Qed.

Lemma provider_of_huggingface (env : Env) (p : jsstring) :
  provider_of (Fetch (huggingface_request env p)) = Some ProviderA.
Proof. reflexivity. Qed.

Lemma provider_of_pollinations (encoded : jsstring) (seed : N) :
  provider_of (Fetch (pollinations_request (pollinations_url encoded seed)))
  = Some ProviderB.
Proof.
  unfold provider_of, pollinations_request, pollinations_url. cbn [url].
  rewrite jsstring_eqb_neq.
  - rewrite startsWith_app. reflexivity.
  - intros H. apply (f_equal (firstn 9)) in H.
    vm_compute in H. discriminate H.
Qed.

Lemma provider_of_openai (env : Env) (p : jsstring) :
  provider_of (Fetch (openai_request env p)) = Some ProviderC.
Proof. reflexivity. Qed.

Lemma attempts_app (ext : External) (r1 r2 : list request) :
  attempts ext (r1 ++ r2) = attempts ext r1 ++ attempts ext r2.
Proof. unfold attempts. apply flat_map_app. Qed.

Lemma attempts_huggingface (env : Env) (ext : External) (p : jsstring) :
  attempts ext [Fetch (huggingface_request env p)]
  = [(ProviderA,
      is_some (huggingface_outcome
                 (fetch_answer ext (huggingface_request env p))))].
Proof. reflexivity. Qed.

Lemma attempts_pollinations (ext : External) (encoded : jsstring) (seed : N) :
  attempts ext [Fetch (pollinations_request (pollinations_url encoded seed))]
  = [(ProviderB,
      is_some (pollinations_outcome (pollinations_url encoded seed)
                 (fetch_answer ext
                    (pollinations_request (pollinations_url encoded seed)))))].
Proof.
  unfold attempts, answer_accepted. cbn [flat_map].
  rewrite provider_of_pollinations. reflexivity.
Qed.

Lemma attempts_openai (env : Env) (ext : External) (p : jsstring) :
  attempts ext [Fetch (openai_request env p)]
  = [(ProviderC,
      is_some (openai_outcome (fetch_answer ext (openai_request env p))))].
Proof. reflexivity. Qed.

Lemma huggingface_outcome_success (a : thrown + Response)
  (r : GeminiImageResponse) :
  huggingface_outcome a = Some r ->
  image_success r = true /\ image_error r = None.
Proof.
  unfold huggingface_outcome. destruct a as [e | resp]; [discriminate |].
  destruct (ok resp); [| discriminate].
  destruct (blob resp); [discriminate |].
  intros H. injection H as <-. split; reflexivity.
Qed.

Lemma pollinations_outcome_success (u : jsstring) (a : thrown + Response)
  (r : GeminiImageResponse) :
  pollinations_outcome u a = Some r ->
  image_success r = true /\ image_error r = None.
Proof.
  unfold pollinations_outcome. destruct a as [e | resp]; [discriminate |].
  destruct (ok resp && _); [| discriminate].
  intros H. injection H as <-. split; reflexivity.
Qed.

Lemma openai_outcome_success (a : thrown + Response)
  (r : GeminiImageResponse) :
  openai_outcome a = Some r ->
  image_success r = true /\ image_error r = Some paid_note.
Proof.
  unfold openai_outcome. destruct a as [e | resp]; [discriminate |].
  destruct (ok resp); [| discriminate].
  destruct (json_body resp) as [e | result]; [discriminate |].
  destruct (first_url result); [| discriminate].
  intros H. injection H as <-. split; reflexivity.
Qed.

(** Whatever the providers answer, the chain reports success, and its
    note is absent, the paid-provider note or the placeholder's. *)
Lemma chain_cases (env : Env) (ext : External) (p : jsstring) :
  image_success (snd (chain env ext p)) = true
  /\ (image_error (snd (chain env ext p)) = None
      \/ image_error (snd (chain env ext p)) = Some paid_note
      \/ snd (chain env ext p) = placeholder_response).
Proof.
  unfold chain.
  destruct (stepA env ext p) as [ra [r |]] eqn:EA.
  - unfold stepA in EA. destruct (configured _); [| discriminate].
    injection EA as _ EA. apply huggingface_outcome_success in EA.
    cbn [snd]. tauto.
  - destruct (stepB ext p) as [rb [r |]] eqn:EB.
    + unfold stepB in EB. destruct (encodeURIComponent p); [| discriminate].
      injection EB as _ EB. apply pollinations_outcome_success in EB.
      cbn [snd]. tauto.
    + destruct (stepC env ext p) as [rc [r |]] eqn:EC.
      * unfold stepC in EC. destruct (configured _); [| discriminate].
        injection EC as _ EC. apply openai_outcome_success in EC.
        cbn [snd]. tauto.
      * cbn [snd]. split; [reflexivity | tauto].
Qed.

Ltac lit_neq :=
  let H := fresh "H" in intros H; vm_compute in H; discriminate H.

(** C10: the sanitizer never returns more than 2000 code units, so the
    too-long branch of [generateGeminiImage] is dead: the function always
    returns, and never with the error "Prompt is too long (max 2000
    characters)". *)
Theorem too_long_branch_unreachable (input : jsstring) :
  List.length (sanitizeUserInput input) <= 2000
  /\ forall (env : Env) (ext : External) (w : World),
       exists r w',
         generateGeminiImage env ext input w = (inr r, w')
         /\ image_error r
            <> Some (lit "Prompt is too long (max 2000 characters)").
Proof.
  split; [apply sanitize_length |].
  intros env ext w. rewrite generateGeminiImage_run.
  eexists. eexists. split; [reflexivity |].
  unfold image_run.
  destruct (configured (GEMINI_API_KEY env)); cbn [negb];
    [| cbn [snd image_failure image_error]; lit_neq].
  destruct (truthy (sanitizeUserInput input)); cbn [negb];
    [| cbn [snd image_failure image_error]; lit_neq].
  destruct (chain_cases env ext (sanitizeUserInput input))
    as [_ [H | [H | H]]]; rewrite H; lit_neq.
Qed.

Lemma attempts_nil (ext : External) : attempts ext [] = [].
Proof. reflexivity. Qed.

Ltac split_chain :=
  repeat (cbv beta iota;
          match goal with
          | |- context [if ?b then _ else _] => destruct b eqn:?
          | |- context [match ?o with Some _ => _ | None => _ end] =>
              destruct o eqn:?
          end).

Ltac count_attempts :=
  unfold providers, invoked, succeeded;
  rewrite ?attempts_app, ?attempts_huggingface, ?attempts_pollinations,
    ?attempts_openai, ?attempts_nil;
  repeat match goal with
         | E : ?o = _ |- context [is_some ?o] => rewrite E
         end;
  cbn [app map fst snd existsb provider_eqb andb orb negb is_some In].

Lemma accepted_huggingface (env : Env) (ext : External) (p : jsstring) :
  answer_accepted ext (Fetch (huggingface_request env p))
  = is_some (huggingface_outcome (fetch_answer ext (huggingface_request env p))).
Proof. reflexivity. Qed.

Lemma accepted_pollinations (ext : External) (encoded : jsstring) (seed : N) :
  answer_accepted ext
    (Fetch (pollinations_request (pollinations_url encoded seed)))
  = is_some (pollinations_outcome (pollinations_url encoded seed)
               (fetch_answer ext
                  (pollinations_request (pollinations_url encoded seed)))).
Proof.
  unfold answer_accepted. rewrite provider_of_pollinations. reflexivity.
Qed.

Lemma accepted_openai (env : Env) (ext : External) (p : jsstring) :
  answer_accepted ext (Fetch (openai_request env p))
  = is_some (openai_outcome (fetch_answer ext (openai_request env p))).
Proof. reflexivity. Qed.

(** A provider's request goes to that provider, and there is at most
    one. *)
Lemma request_for_provider (env : Env) (ext : External) (p : jsstring)
  (q : provider) (r : request) :
  In r (request_for env ext p q) -> provider_of r = Some q.
Proof.
  destruct q; unfold request_for.
  - destruct (configured _); cbn [In]; [| intros []].
    intros [<- | []]. apply provider_of_huggingface.
  - destruct (encodeURIComponent p); cbn [In]; [| intros []].
    intros [<- | []]. apply provider_of_pollinations.
  - destruct (configured _); cbn [In]; [| intros []].
    intros [<- | []]. apply provider_of_openai.
Qed.

Lemma request_for_once (env : Env) (ext : External) (p : jsstring)
  (q : provider) :
  List.length (request_for env ext p q) <= 1.
Proof.
  destruct q; unfold request_for;
    [destruct (configured _) | destruct (encodeURIComponent p)
    | destruct (configured _)]; cbn [List.length]; lia.
Qed.

Lemma succeeds_asked (env : Env) (ext : External) (p : jsstring)
  (q : provider) :
  provider_succeeds env ext p q = true -> request_for env ext p q <> [].
Proof.
  unfold provider_succeeds. intros H E. rewrite E in H. discriminate H.
Qed.

Lemma invoked_app (ext : External) (r1 r2 : list request) (q : provider) :
  invoked ext (r1 ++ r2) q = invoked ext r1 q || invoked ext r2 q.
Proof. unfold invoked. rewrite attempts_app. apply existsb_app. Qed.

Lemma provider_eqb_refl (q : provider) : provider_eqb q q = true.
Proof. destruct q; reflexivity. Qed.

Lemma provider_eqb_neq (q q' : provider) :
  q <> q' -> provider_eqb q q' = false.
Proof. destruct q, q'; intros H; try reflexivity; contradiction H; reflexivity. Qed.

(** Among the requests for one provider only that provider is invoked,
    and it is when there is a request. *)
Lemma invoked_request_for (env : Env) (ext : External) (p : jsstring)
  (q q' : provider) :
  invoked ext (request_for env ext p q) q'
  = match request_for env ext p q with
    | [] => false
    | _ :: _ => provider_eqb q' q
    end.
Proof.
  pose proof (@request_for_provider env ext p q) as P.
  pose proof (request_for_once env ext p q) as L.
  destruct (request_for env ext p q) as [| r [| r' rest]];
    [reflexivity | | cbn [List.length] in L; lia].
  unfold invoked, attempts. cbn [flat_map].
  rewrite (P r (or_introl eq_refl)). cbn [app existsb fst].
  apply orb_false_r.
Qed.

(** What each step sends and returns, by whether its provider
    succeeds. *)
Lemma stepA_outcome (env : Env) (ext : External) (p : jsstring) :
  fst (stepA env ext p) = request_for env ext p ProviderA
  /\ is_some (snd (stepA env ext p)) = provider_succeeds env ext p ProviderA
  /\ (forall r, snd (stepA env ext p) = Some r ->
        huggingface_outcome (fetch_answer ext (huggingface_request env p))
        = Some r).
Proof.
  unfold stepA, provider_succeeds, request_for.
  destruct (configured _); cbn [fst snd existsb is_some].
  - rewrite accepted_huggingface, orb_false_r. repeat split. intros r H. exact H.
  - repeat split. intros r H. discriminate H.
Qed.

Lemma stepB_outcome (env : Env) (ext : External) (p : jsstring) :
  fst (stepB ext p) = request_for env ext p ProviderB
  /\ is_some (snd (stepB ext p)) = provider_succeeds env ext p ProviderB
  /\ (forall r, snd (stepB ext p) = Some r ->
        exists u,
          request_for env ext p ProviderB = [Fetch (pollinations_request u)]
          /\ r = {| imageUrl := u; image_success := true;
                    image_error := None |}).
Proof.
  unfold stepB, provider_succeeds, request_for.
  destruct (encodeURIComponent p) as [encoded |];
    cbv zeta; cbn [fst snd existsb is_some].
  - rewrite accepted_pollinations, orb_false_r. repeat split.
    intros r H. eexists. split; [reflexivity |].
    unfold pollinations_outcome in H.
    destruct (fetch_answer ext _) as [e | resp]; [discriminate H |].
    destruct (ok resp && _); [| discriminate H]. congruence.
  - repeat split. intros r H. discriminate H.
Qed.

Lemma stepC_outcome (env : Env) (ext : External) (p : jsstring) :
  fst (stepC env ext p) = request_for env ext p ProviderC
  /\ is_some (snd (stepC env ext p)) = provider_succeeds env ext p ProviderC
  /\ (forall r, snd (stepC env ext p) = Some r ->
        openai_outcome (fetch_answer ext (openai_request env p)) = Some r).
Proof.
  unfold stepC, provider_succeeds, request_for.
  destruct (configured _); cbn [fst snd existsb is_some].
  - rewrite accepted_openai, orb_false_r. repeat split. intros r H. exact H.
  - repeat split. intros r H. discriminate H.
Qed.

(** Whether a provider is invoked among the requests for A, B and C;
    [Asked] says that a provider that succeeds has a request. *)
Ltac invoked_among Asked :=
  rewrite ?invoked_app, ?invoked_request_for;
  repeat match goal with
         | |- context [match request_for ?e ?x ?p ?q with _ => _ end] =>
             let E := fresh "E" in
             destruct (request_for e x p q) eqn:E
         end;
  try reflexivity;
  exfalso;
  match goal with
  | S : true = provider_succeeds ?e ?x ?p ?q,
    E : request_for ?e ?x ?p ?q = [] |- _ =>
      exact (Asked q (eq_sym S) E)
  end.

(** C1, as amended: a call that passes the early checks asks the
    providers in the order A, B, C, each at most once, and stops at the
    first that succeeds; a call that does not pass them asks nobody and
    reports a failure.  A provider succeeds when the chain has a request
    for it (A and C need their key, B a prompt that can be encoded) and
    the outside answers that request with what the chain accepts;
    otherwise it fails.  With the key of the text model configured and a
    prompt that is not empty after sanitization:
    when A succeeds, the only request is A's, B and C are not invoked
    and the result is made from A's answer;
    when A fails and B succeeds, the requests are A's, if it has one,
    then B's, C is not invoked and the result is B's address;
    when A and B fail and C succeeds, the requests are A's, B's and C's,
    in this order, and the result is made from C's answer;
    when all three fail the requests are the same and the result is the
    placeholder, reported as a success; so it is when A and B fail and C
    has no key, and then C is not invoked. *)
Theorem image_fallback_order (env : Env) (ext : External) (prompt : jsstring)
  (w : World) :
  let p := sanitizeUserInput prompt in
  let run := generateGeminiImage env ext prompt w in
  let reqs := issued w (snd run) in
  let ask := request_for env ext p in
  let up := provider_succeeds env ext p in
  (forall q, List.length (ask q) <= 1
             /\ forall r, In r (ask q) -> provider_of r = Some q)
  /\ (configured (GEMINI_API_KEY env) = false \/ truthy p = false ->
      reqs = []
      /\ exists r, fst run = inr r /\ image_success r = false)
  /\ (configured (GEMINI_API_KEY env) = true -> truthy p = true ->
      (up ProviderA = true ->
       reqs = ask ProviderA
       /\ invoked ext reqs ProviderA = true
       /\ invoked ext reqs ProviderB = false
       /\ invoked ext reqs ProviderC = false
       /\ exists r,
            fst run = inr r /\ image_success r = true
            /\ huggingface_outcome
                 (fetch_answer ext (huggingface_request env p)) = Some r)
      /\ (up ProviderA = false -> up ProviderB = true ->
          reqs = ask ProviderA ++ ask ProviderB
          /\ invoked ext reqs ProviderB = true
          /\ invoked ext reqs ProviderC = false
          /\ exists u,
               ask ProviderB = [Fetch (pollinations_request u)]
               /\ fst run = inr {| imageUrl := u; image_success := true;
                                   image_error := None |})
      /\ (up ProviderA = false -> up ProviderB = false ->
          up ProviderC = true ->
          reqs = ask ProviderA ++ ask ProviderB ++ ask ProviderC
          /\ invoked ext reqs ProviderC = true
          /\ exists r,
               fst run = inr r /\ image_success r = true
               /\ openai_outcome (fetch_answer ext (openai_request env p))
                  = Some r)
      /\ (up ProviderA = false -> up ProviderB = false ->
          up ProviderC = false ->
          reqs = ask ProviderA ++ ask ProviderB ++ ask ProviderC
          /\ fst run = inr placeholder_response
          /\ image_success placeholder_response = true)
      /\ (up ProviderA = false -> up ProviderB = false ->
          configured (OPENAI_API_KEY env) = false ->
          reqs = ask ProviderA ++ ask ProviderB
          /\ invoked ext reqs ProviderC = false
          /\ fst run = inr placeholder_response
          /\ image_success placeholder_response = true)).
Proof.
  cbv zeta. rewrite generateGeminiImage_run. cbn [fst snd].
  rewrite issued_advance. unfold image_run.
  split; [| split].
  - intros q. split; [apply request_for_once | apply request_for_provider].
  - intros [G | P].
    + rewrite G. cbn [negb fst snd]. split; [reflexivity |].
      eexists. split; reflexivity.
    + rewrite P. destruct (configured (GEMINI_API_KEY env));
        cbn [negb fst snd]; (split; [reflexivity |]);
        eexists; split; reflexivity.
  - intros G P. rewrite G, P. cbn [negb]. unfold chain.
    set (p := sanitizeUserInput prompt).
    destruct (stepA_outcome env ext p) as [RA [SA OA]].
    destruct (stepB_outcome env ext p) as [RB [SB OB]].
    destruct (stepC_outcome env ext p) as [RC [SC OC]].
    assert (configured (OPENAI_API_KEY env) = false ->
            request_for env ext p ProviderC = []
            /\ provider_succeeds env ext p ProviderC = false) as NC.
    { intros H. unfold provider_succeeds, request_for. rewrite H.
      split; reflexivity. }
    pose proof (@succeeds_asked env ext p) as Asked.
    destruct (stepA env ext p) as [ra oa].
    destruct (stepB ext p) as [rb ob].
    destruct (stepC env ext p) as [rc oc].
    cbn [fst snd] in RA, RB, RC, SA, SB, SC, OA, OB, OC. subst ra rb rc.
    rewrite <- SA, <- SB. 
    destruct oa as [a |]; cbn [is_some] in SA |- *.
    { split; [| split; [| split; [| split]]; intros C; discriminate C].
      intros _. cbn [fst snd]. split; [reflexivity |].
      repeat split; try invoked_among Asked.
      exists a. split; [reflexivity |].
      split; [apply (huggingface_outcome_success _ (OA a eq_refl))
             | apply OA; reflexivity]. }
    split; [intros C; discriminate C |].
    destruct ob as [b |]; cbn [is_some] in SB |- *.
    { split; [| split; [| split]; intros _ C; discriminate C].
      intros _ _. cbn [fst snd]. split; [reflexivity |].
      repeat split; try invoked_among Asked.
      destruct (OB b eq_refl) as [u [Eu ->]]. exists u.
      split; [exact Eu | reflexivity]. }
    split; [intros _ C; discriminate C |].
    destruct oc as [c |]; cbn [is_some] in SC |- *; rewrite <- SC.
    + split; [| split; [intros _ _ C; discriminate C |]].
      * intros _ _ _. cbn [fst snd]. split; [reflexivity |].
        split; [invoked_among Asked |].
        exists c. split; [reflexivity |].
        split; [apply (openai_outcome_success _ (OC c eq_refl))
               | apply OC; reflexivity].
      * intros _ _ H. destruct (NC H) as [_ N]. congruence.
    + split; [intros _ _ C; discriminate C |]. split.
      * intros _ _ _. cbn [fst snd]. repeat split.
      * intros _ _ H. destruct (NC H) as [N _]. cbn [fst snd].
        rewrite N, app_nil_r. repeat split.
        rewrite invoked_app, !invoked_request_for.
        destruct (request_for env ext p ProviderA);
          destruct (request_for env ext p ProviderB); reflexivity.
Qed.

(** C1, the counterexample: in an environment where A and B fail and C
    has no key, the call does not return the placeholder when it stops at
    an early check: without the key of the text model, and with a prompt
    that is empty after sanitization, it reports a failure and asks
    nobody. *)
Lemma image_chain_not_reached :
  (provider_succeeds huggingface_only all_down
     (sanitizeUserInput (lit "a red cat")) ProviderA = false
   /\ provider_succeeds huggingface_only all_down
        (sanitizeUserInput (lit "a red cat")) ProviderB = false
   /\ configured (OPENAI_API_KEY huggingface_only) = false
   /\ generateGeminiImage huggingface_only all_down (lit "a red cat")
        empty_world
      = (inr {| imageUrl := []; image_success := false;
                image_error := Some (lit "Gemini API key not configured") |},
         empty_world))
  /\ (provider_succeeds free_keys all_down (sanitizeUserInput (lit "<>"))
        ProviderA = false
      /\ provider_succeeds free_keys all_down (sanitizeUserInput (lit "<>"))
           ProviderB = false
      /\ configured (OPENAI_API_KEY free_keys) = false
      /\ generateGeminiImage free_keys all_down (lit "<>") empty_world
         = (inr {| imageUrl := []; image_success := false;
                   image_error := Some (lit "Prompt cannot be empty") |},
            empty_world))
  /\ image_success placeholder_response = true.
Proof. vm_compute. repeat split. Qed.



Lemma truthy_false (s : jsstring) : truthy s = false <-> s = [].
Proof. destruct s; simpl; split; intros; congruence. Qed.

(** C4, as amended: [generateGeminiImage] always returns, and it reports
    failure exactly when GEMINI_API_KEY is not configured or the sanitized
    prompt is empty, in both cases before any provider is asked; the
    answers of the providers never make it fail, and when none of them is
    accepted the result is the placeholder, reported as a success. *)
Theorem image_failure_only_before_chain (env : Env) (ext : External)
  (prompt : jsstring) (w : World) :
  exists r w',
    generateGeminiImage env ext prompt w = (inr r, w')
    /\ (image_success r = false <->
        configured (GEMINI_API_KEY env) = false
        \/ sanitizeUserInput prompt = [])
    /\ (image_success r = false ->
        w' = w
        /\ (image_error r = Some (lit "Gemini API key not configured")
            \/ image_error r = Some (lit "Prompt cannot be empty")))
    /\ (image_success r = true ->
        succeeded ext (issued w w') ProviderA = false ->
        succeeded ext (issued w w') ProviderB = false ->
        succeeded ext (issued w w') ProviderC = false ->
        r = placeholder_response).
Proof.
  rewrite generateGeminiImage_run. eexists. eexists.
  split; [reflexivity |]. rewrite issued_advance. unfold image_run.
  destruct (configured (GEMINI_API_KEY env)); cbn [negb];
    [| cbn [fst snd image_failure image_success image_error];
       rewrite advance_nil; intuition discriminate].
  destruct (truthy (sanitizeUserInput prompt)) eqn:T; cbn [negb].
  - assert (sanitizeUserInput prompt <> []) as NE
        by (intros E; apply truthy_false in E; congruence).
    destruct (chain_cases env ext (sanitizeUserInput prompt)) as [S _].
    rewrite S. repeat split; try intuition congruence.
    clear S. unfold chain, stepA, stepB, stepC.
    split_chain; cbn [fst snd]; count_attempts;
      intuition (try discriminate; try reflexivity).
  - apply truthy_false in T.
    cbn [fst snd image_failure image_success image_error].
    rewrite advance_nil. intuition discriminate.
Qed.

(** C4, the counterexample: without GEMINI_API_KEY the function reports
    failure for a nine-character prompt that the sanitizer leaves
    unchanged, neither empty nor too long, and with all three providers
    ready to answer. *)
Lemma image_failure_without_gemini_key :
  generateGeminiImage no_gemini_key
    (scripted (inr png_response) (inr png_response) down (inl NonError))
    (lit "a red cat") empty_world
  = (inr {| imageUrl := []; image_success := false;
            image_error := Some (lit "Gemini API key not configured") |},
     empty_world)
  /\ sanitizeUserInput (lit "a red cat") = lit "a red cat"
  /\ List.length (lit "a red cat") = 9.
Proof. vm_compute. repeat split. Qed.

(* ================================================================== *)
(** ** Running the store helpers and the text adapter *)
(* ================================================================== *)

Lemma addMessage_run (m : NewMessage) (w : World) :
  addMessage m w
  = match next_fault w with
    | Some e => (inl e, answered (DbInsert m) w)
    | None => (inr (stored m w), inserted m w)
    end.
Proof.
  unfold addMessage, supabase_insert. async.
  destruct (next_fault w); reflexivity.
Qed.

Lemma clearUserHistory_run (userId : jsstring) (w : World) :
  clearUserHistory userId w
  = match next_fault w with
    | Some e => (inl e, answered (DbDelete userId) w)
    | None => (inr tt, cleared userId w)
    end.
Proof.
  unfold clearUserHistory, supabase_delete. async.
  destruct (next_fault w); reflexivity.
Qed.

Lemma getMessagesForUser_run (userId : jsstring) (w : World) :
  getMessagesForUser userId w
  = (match next_fault w with
     | Some e => inl e
     | None => inr (order_by_created_at (filter (owned_by userId) (table w)))
     end, answered (DbSelect userId) w).
Proof.
  unfold getMessagesForUser, supabase_select. async.
  destruct (next_fault w); reflexivity.
Qed.

Lemma store_accepts_next (n : nat) (w : World) :
  store_accepts (S n) w -> next_fault w = None.
Proof.
  unfold store_accepts, next_fault. destruct (faults w) as [| f fs];
    [reflexivity |].
  cbn [firstn]. intros H. inversion H. assumption.
Qed.

Lemma store_accepts_tail (n : nat) (w w' : World) :
  store_accepts (S n) w -> faults w' = tl (faults w) -> store_accepts n w'.
Proof.
  unfold store_accepts. intros H E. rewrite E.
  destruct (faults w) as [| f fs]; cbn [tl firstn] in *.
  - destruct n; constructor.
  - inversion H. assumption.
Qed.

Lemma store_accepts_same (n : nat) (w w' : World) :
  store_accepts n w -> faults w' = faults w -> store_accepts n w'.
Proof. unfold store_accepts. intros H E. rewrite E. exact H. Qed.

(** [generateGeminiResponse] never throws. *)
Lemma generateGeminiResponse_run (env : Env) (ext : External)
  (userMessage : jsstring) (w : World) :
  generateGeminiResponse env ext userMessage w
  = (inr (snd (text_run env ext userMessage)),
     advance (fst (text_run env ext userMessage)) w).
Proof.
  unfold generateGeminiResponse, text_run.
  destruct (configured (GEMINI_API_KEY env)); cbn [negb];
    [| cbn; rewrite advance_nil; reflexivity].
  async. cbv zeta. rewrite send_run. cbn [fst snd].
  destruct (generateContent_answer ext (text_prompt userMessage))
    as [e | t]; [| reflexivity].
  unfold text_failure.
  destruct (instanceof_Error e && includes (error_message e) (lit "API_KEY"));
    [reflexivity |].
  destruct (instanceof_Error e && is_quota_message (error_message e));
    reflexivity.
Qed.

(** How the adapter detects a quota or overload failure: the upstream
    call threw an [Error] whose message has one of the four fragments and
    does not mention an API key. *)
Lemma quota_detection (env : Env) (ext : External) (userMessage : jsstring)
  (w : World) (e : thrown) :
  configured (GEMINI_API_KEY env) = true ->
  generateContent_answer ext (text_prompt userMessage) = inl e ->
  instanceof_Error e = true ->
  includes (error_message e) (lit "API_KEY") = false ->
  is_quota_message (error_message e) = true ->
  fst (generateGeminiResponse env ext userMessage w)
  = inr {| response := overloaded_text; success := false;
           error := Some (lit "Service temporarily overloaded") |}.
Proof.
  intros C A I K Q. rewrite generateGeminiResponse_run.
  unfold text_run, text_failure. rewrite C, A, I, K, Q. reflexivity.
Qed.

Lemma overloaded_text_suggests_image :
  includes overloaded_text (lit "/image") = true.
Proof. vm_compute. reflexivity. Qed.

(** The adapter answers with the overloaded text exactly when it reports
    the overload error. *)
Lemma overload_report (env : Env) (ext : External) (userMessage : jsstring) :
  error (snd (text_run env ext userMessage))
  = Some (lit "Service temporarily overloaded") ->
  snd (text_run env ext userMessage)
  = {| response := overloaded_text; success := false;
       error := Some (lit "Service temporarily overloaded") |}.
Proof.
  unfold text_run.
  destruct (configured (GEMINI_API_KEY env)); cbn [negb snd].
  - destruct (generateContent_answer ext (text_prompt userMessage))
      as [e | t]; [| discriminate].
    unfold text_failure.
    destruct (instanceof_Error e
              && includes (error_message e) (lit "API_KEY"));
      [cbn [error]; lit_neq |].
    destruct (instanceof_Error e) eqn:I; cbn [andb].
    + destruct (is_quota_message (error_message e)) eqn:Q;
        [reflexivity |].
      cbn [error]. unfold message_or_unknown. rewrite I.
      intros H. injection H as H. rewrite H in Q.
      vm_compute in Q. discriminate Q.
    + cbn [error]. unfold message_or_unknown. rewrite I. lit_neq.
  - cbn [error]. lit_neq.
Qed.

(* ================================================================== *)
(** ** Schemas *)
(* ================================================================== *)

Lemma get_field_first (k : jsstring) (v : json) (rest : list (jsstring * json)) :
  get_field ((k, v) :: rest) k = v.
Proof. cbn [get_field]. rewrite jsstring_eqb_refl. reflexivity. Qed.

Lemma get_field_next (k k' : jsstring) (v : json)
  (rest : list (jsstring * json)) :
  k' <> k -> get_field ((k', v) :: rest) k = get_field rest k.
Proof. intros H. cbn [get_field]. rewrite jsstring_eqb_neq by exact H. reflexivity. Qed.

Lemma string_unchecked (path : list jsstring) (s : jsstring) :
  Zod.string [] path (JString s) = inr s.
Proof. reflexivity. Qed.

(** A string schema with a lower bound of one and an upper bound. *)
Lemma string_bounded (hi : nat) (a b : jsstring) (path : list jsstring)
  (s : jsstring) :
  Zod.string [Zod.min 1 a; Zod.max hi b] path (JString s)
  = if List.length s <? 1
    then inl ({| issue_path := path; issue_message := a |}
              :: if hi <? List.length s
                 then [ {| issue_path := path; issue_message := b |} ]
                 else [])
    else if hi <? List.length s
         then inl [ {| issue_path := path; issue_message := b |} ]
         else inr s.
Proof.
  unfold Zod.string, Zod.issues_of, Zod.violated. cbn [flat_map].
  destruct (List.length s <? 1); destruct (hi <? List.length s);
    reflexivity.
Qed.

Lemma sendMessageInput_valid (message userId : jsstring) :
  1 <= List.length message -> List.length message <= 2000 ->
  sendMessageInput (message_input message userId)
  = inr {| sm_message := message; sm_userId := userId |}.
Proof.
  intros L U. unfold sendMessageInput, message_input.
  rewrite get_field_first, get_field_next, get_field_first by lit_neq.
  rewrite string_bounded, string_unchecked.
  apply Nat.ltb_ge in L. apply Nat.ltb_ge in U. rewrite L, U. reflexivity.
Qed.

Lemma sendMessageInput_invalid (message userId : jsstring) :
  message = [] \/ 2000 < List.length message ->
  exists issues, sendMessageInput (message_input message userId) = inl issues.
Proof.
  intros H. unfold sendMessageInput, message_input.
  rewrite get_field_first, get_field_next, get_field_first by lit_neq.
  rewrite string_bounded, string_unchecked.
  destruct H as [-> | H].
  - cbn [List.length]. eexists. reflexivity.
  - apply Nat.ltb_lt in H. rewrite H.
    destruct (List.length message <? 1); eexists; reflexivity.
Qed.

Lemma generateImageInput_valid (prompt userId : jsstring) :
  1 <= List.length prompt -> List.length prompt <= 1000 ->
  1 <= List.length userId ->
  generateImageInput (prompt_input prompt userId)
  = inr {| gi_prompt := prompt; gi_userId := userId |}.
Proof.
  intros L U V. unfold generateImageInput, prompt_input.
  rewrite get_field_first, get_field_next, get_field_first by lit_neq.
  rewrite string_bounded.
  apply Nat.ltb_ge in L. apply Nat.ltb_ge in U. rewrite L, U.
  unfold Zod.string, Zod.issues_of, Zod.violated. cbn [flat_map].
  apply Nat.ltb_ge in V. rewrite V. reflexivity.
Qed.

Lemma generateImageInput_invalid (prompt userId : jsstring) :
  prompt = [] \/ 1000 < List.length prompt ->
  exists issues, generateImageInput (prompt_input prompt userId) = inl issues.
Proof.
  intros H. unfold generateImageInput, prompt_input.
  rewrite get_field_first, get_field_next, get_field_first by lit_neq.
  rewrite string_bounded.
  destruct H as [-> | H].
  - cbn [List.length]. replace (0 <? 1) with true by reflexivity.
    eexists. reflexivity.
  - apply Nat.ltb_lt in H. rewrite H.
    destruct (List.length prompt <? 1); eexists; reflexivity.
Qed.

Lemma userIdInput_valid (userId : jsstring) :
  userIdInput (userId_input userId) = inr {| ui_userId := userId |}.
Proof.
  unfold userIdInput, userId_input. rewrite get_field_first. reflexivity.
Qed.

Lemma procedure_public (ext : External) (I O : Type)
  (schema : json -> list ZodIssue + I) (resolver : Context -> I -> M O)
  (ctx : Context) (raw : json) :
  procedure ext t_procedure schema resolver ctx raw
  = match schema raw with
    | inl issues => throw (TRPCError BAD_REQUEST (zod_message ext issues))
    | inr input => resolver ctx input
    end.
Proof. reflexivity. Qed.

(* ================================================================== *)
(** ** Order of the rows *)
(* ================================================================== *)

Lemma order_sorted (l : list ChatMessage) :
  StronglySorted older l -> order_by_created_at l = l.
Proof.
  induction 1 as [| x l S IH F]; [reflexivity |].
  unfold order_by_created_at in *. cbn [fold_right]. rewrite IH.
  destruct l as [| y l']; [reflexivity |].
  cbn [insert_by_created_at]. inversion F as [| ? ? Hxy _]; subst.
  unfold older in Hxy.
  replace (created_at x <=? created_at y) with true; [reflexivity |].
  symmetry. apply Nat.leb_le. lia.
Qed.

Lemma sorted_snoc (l : list ChatMessage) (x : ChatMessage) :
  StronglySorted older l ->
  Forall (fun r => created_at r < created_at x) l ->
  StronglySorted older (l ++ [x]).
Proof.
  induction 1 as [| y l S IH F]; intros B; cbn [app].
  - constructor; constructor.
  - inversion B; subst. constructor.
    + apply IH. assumption.
    + apply Forall_app. split; [assumption |]. constructor; [| constructor].
      assumption.
Qed.

Lemma sorted_filter (f : ChatMessage -> bool) (l : list ChatMessage) :
  StronglySorted older l -> StronglySorted older (filter f l).
Proof.
  induction 1 as [| x l S IH F]; cbn [filter]; [constructor |].
  destruct (f x); [| exact IH].
  constructor; [exact IH |].
  apply Forall_forall. intros y Hy. apply filter_In in Hy.
  rewrite Forall_forall in F. apply F. tauto.
Qed.

Lemma Forall_filter (P : ChatMessage -> Prop) (f : ChatMessage -> bool)
  (l : list ChatMessage) :
  Forall P l -> Forall P (filter f l).
Proof.
  rewrite !Forall_forall. intros H x Hx. apply filter_In in Hx.
  apply H. tauto.
Qed.

(** In a well-formed store the history of a user is the user's rows in
    the order they were inserted. *)
Lemma history_wf (userId : jsstring) (w : World) :
  store_wf w -> history userId w = filter (owned_by userId) (table w).
Proof.
  intros [S _]. unfold history. apply order_sorted, sorted_filter, S.
Qed.

(** Two rows of [userId] appended at later times come last in the
    history, in the order they were appended. *)
Lemma history_two_more (userId : jsstring) (w w' : World)
  (u a : ChatMessage) :
  store_wf w ->
  table w' = table w ++ [u; a] ->
  user_id u = userId -> user_id a = userId ->
  now w <= created_at u -> created_at u < created_at a ->
  history userId w' = history userId w ++ [u; a].
Proof.
  intros WF T Uu Ua Nu Lt. rewrite (history_wf userId WF).
  destruct WF as [S B]. unfold history. rewrite T, filter_app.
  cbn [filter]. unfold owned_by at 2 3. rewrite Uu, Ua, jsstring_eqb_refl.
  apply order_sorted.
  change [u; a] with ([u] ++ [a]). rewrite app_assoc.
  assert (Forall (fun r => created_at r < created_at u)
            (filter (owned_by userId) (table w))) as Bu.
  { apply Forall_filter. eapply Forall_impl; [| exact B].
    cbv beta. intros r Hr. lia. }
  apply sorted_snoc; [apply sorted_snoc |].
  - apply sorted_filter, S.
  - exact Bu.
  - apply Forall_app. split.
    + eapply Forall_impl; [| exact Bu]. cbv beta. intros r Hr. lia.
    + constructor; [exact Lt | constructor].
Qed.

(* ================================================================== *)
(** ** sendMessage *)
(* ================================================================== *)

Ltac next := cbv beta iota.

(** C2: for a message the schema accepts, when the store takes both
    inserts and the text adapter, called on the sanitized message, answers
    with success, [sendMessage] returns both rows with the adapter's text
    and flag, and the table has gained exactly two rows: the sanitized
    message as a user text row, then the adapter's text as a model text
    row, the first stamped earlier than the second; in a well-formed store
    they are the last two rows of the user's history, in that order. *)
Theorem sendMessage_stores_turn (env : Env) (ext : External) (ctx : Context)
  (message userId : jsstring) (w w2 : World) (r : GeminiResponse) :
  1 <= List.length message -> List.length message <= 2000 ->
  store_accepts 2 w ->
  let text := sanitizeUserInput message in
  generateGeminiResponse env ext text (inserted (user_text userId text) w)
  = (inr r, w2) ->
  success r = true ->
  let u := stored (user_text userId text) w in
  let a := stored (model_text userId (response r)) w2 in
  let w' := inserted (model_text userId (response r)) w2 in
  sendMessage env ext ctx (message_input message userId) w
  = (inr {| send_success := true; userMessage := u; aiMessage := a;
            aiResponse := response r; geminiSuccess := true;
            geminiError := error r |}, w')
  /\ table w' = table w ++ [u; a]
  /\ (user_id u, role u, content_type u, content u)
     = (userId, user_role, text_type, text)
  /\ (user_id a, role a, content_type a, content a)
     = (userId, model_role, text_type, response r)
  /\ created_at u < created_at a
  /\ filter is_insert (issued w w')
     = [DbInsert (user_text userId text);
        DbInsert (model_text userId (response r))]
  /\ (store_wf w -> history userId w' = history userId w ++ [u; a]).
Proof.
  intros L U SA text H S u a w'.
  pose proof H as Hrun.
  rewrite generateGeminiResponse_run in H. injection H as Hr Hw2.
  pose proof (store_accepts_next SA) as F1.
  assert (next_fault w2 = None) as F2.
  { apply (@store_accepts_next 0). eapply store_accepts_tail; [exact SA |].
    rewrite <- Hw2. reflexivity. }
  assert (table w' = table w ++ [u; a]) as T.
  { subst w' u a. rewrite <- Hw2. cbn [inserted advance table].
    rewrite <- app_assoc. reflexivity. }
  assert (created_at u < created_at a) as Lt.
  { subst u a. rewrite <- Hw2. cbn [stored created_at advance inserted now].
    lia. }
  split; [| repeat split].
  - unfold sendMessage. rewrite procedure_public, sendMessageInput_valid
      by assumption.
    unfold sendMessage_resolver. cbn [sm_userId sm_message]. fold text.
    async. next. rewrite addMessage_run, F1. next. rewrite Hrun. next.
    rewrite addMessage_run, F2. next. rewrite S. reflexivity.
  - exact T.
  - exact Lt.
  - subst w'. rewrite <- Hw2. unfold issued.
    cbn [inserted advance log]. rewrite <- !app_assoc, skipn_app, skipn_all,
      Nat.sub_diag.
    cbn [skipn app filter is_insert]. rewrite filter_app.
    unfold text_run. destruct (configured (GEMINI_API_KEY env)); reflexivity.
  - intros WF. apply history_two_more; try assumption; try reflexivity.
Qed.

(** [sendMessage] on an accepted message with a store that takes both
    inserts: whatever the adapter reports, its text is stored as the
    model's row and the call returns. *)
Lemma sendMessage_run (env : Env) (ext : External) (ctx : Context)
  (message userId : jsstring) (w : World) :
  1 <= List.length message -> List.length message <= 2000 ->
  store_accepts 2 w ->
  let text := sanitizeUserInput message in
  let r := snd (text_run env ext text) in
  let w2 := advance (fst (text_run env ext text))
              (inserted (user_text userId text) w) in
  sendMessage env ext ctx (message_input message userId) w
  = (inr {| send_success := true;
            userMessage := stored (user_text userId text) w;
            aiMessage := stored (model_text userId (response r)) w2;
            aiResponse := response r;
            geminiSuccess := success r;
            geminiError := error r |},
     inserted (model_text userId (response r)) w2).
Proof.
  intros L U SA text r w2.
  pose proof (store_accepts_next SA) as F1.
  assert (next_fault w2 = None) as F2.
  { apply (@store_accepts_next 0). eapply store_accepts_tail; [exact SA |].
    reflexivity. }
  unfold sendMessage. rewrite procedure_public, sendMessageInput_valid
    by assumption.
  unfold sendMessage_resolver. cbn [sm_userId sm_message]. fold text.
  async. next. rewrite addMessage_run, F1. next.
  rewrite generateGeminiResponse_run. next. fold r w2.
  rewrite addMessage_run, F2. reflexivity.
Qed.

(** C3: when the text adapter, called by [sendMessage] on an accepted
    message, reports the quota or overload failure, and the store takes
    both inserts, the call still returns normally: the model's text row
    holds the overload apology, which suggests the [/image] command, and
    the failure shows only in [geminiSuccess] and [geminiError]. *)
Theorem sendMessage_overload_reply (env : Env) (ext : External)
  (ctx : Context) (message userId : jsstring) (w w2 : World)
  (r : GeminiResponse) :
  1 <= List.length message -> List.length message <= 2000 ->
  store_accepts 2 w ->
  let text := sanitizeUserInput message in
  generateGeminiResponse env ext text (inserted (user_text userId text) w)
  = (inr r, w2) ->
  error r = Some (lit "Service temporarily overloaded") ->
  let u := stored (user_text userId text) w in
  let a := stored (model_text userId overloaded_text) w2 in
  let w' := inserted (model_text userId overloaded_text) w2 in
  sendMessage env ext ctx (message_input message userId) w
  = (inr {| send_success := true; userMessage := u; aiMessage := a;
            aiResponse := overloaded_text; geminiSuccess := false;
            geminiError := Some (lit "Service temporarily overloaded") |},
     w')
  /\ table w' = table w ++ [u; a]
  /\ (user_id a, role a, content_type a) = (userId, model_role, text_type)
  /\ includes (content a) (lit "/image") = true.
Proof.
  intros L U SA text H E u a w'.
  rewrite generateGeminiResponse_run in H. injection H as Hr Hw2.
  rewrite <- Hr in E. apply overload_report in E.
  split; [| split; [| split; [reflexivity |]]].
  - rewrite (@sendMessage_run env ext ctx message userId w L U SA).
    fold text. rewrite E. cbn [response success error]. rewrite Hw2.
    reflexivity.
  - subst w' u a. rewrite <- Hw2. cbn [inserted advance table].
    rewrite <- app_assoc. reflexivity.
  - exact overloaded_text_suggests_image.
Qed.

(* ================================================================== *)
(** ** generateImage *)
(* ================================================================== *)

(** [generateImage] on an accepted input whose prompt row the store
    takes, when the adapter reports failure. *)
Lemma generateImage_adapter_failure (env : Env) (ext : External)
  (ctx : Context) (prompt userId : jsstring) (w : World) :
  1 <= List.length prompt -> List.length prompt <= 1000 ->
  1 <= List.length userId ->
  store_accepts 1 w ->
  let p := sanitizeUserInput prompt in
  image_success (snd (image_run env ext p)) = false ->
  generateImage env ext ctx (prompt_input prompt userId) w
  = (inl (TRPCError INTERNAL_SERVER_ERROR
            (opt_or_else (image_error (snd (image_run env ext p)))
               (lit "Failed to generate image"))),
     advance (fst (image_run env ext p)) (inserted (user_text userId p) w)).
Proof.
  intros L U V SA p F.
  pose proof (store_accepts_next SA) as F1.
  unfold generateImage. rewrite procedure_public, generateImageInput_valid
    by assumption.
  unfold generateImage_resolver. cbn [gi_prompt gi_userId]. cbv zeta.
  fold p. async. next. rewrite addMessage_run, F1. next.
  rewrite generateGeminiImage_run. next. rewrite F. reflexivity.
Qed.

(** C5: when the image adapter, called by [generateImage] on an accepted
    input after the store took the prompt row, reports failure, the call
    throws an internal error carrying the adapter's message and the only
    insert of the run is the user's prompt row, which stays in the table;
    [sendMessage] instead stores a model row after the user row whatever
    its adapter reports. *)
Theorem generateImage_leaves_orphan (env : Env) (ext : External)
  (ctx : Context) (prompt userId : jsstring) (w w2 : World)
  (r : GeminiImageResponse) :
  1 <= List.length prompt -> List.length prompt <= 1000 ->
  1 <= List.length userId ->
  store_accepts 1 w ->
  let p := sanitizeUserInput prompt in
  let u := stored (user_text userId p) w in
  generateGeminiImage env ext p (inserted (user_text userId p) w)
  = (inr r, w2) ->
  image_success r = false ->
  generateImage env ext ctx (prompt_input prompt userId) w
  = (inl (TRPCError INTERNAL_SERVER_ERROR
            (opt_or_else (image_error r) (lit "Failed to generate image"))),
     w2)
  /\ table w2 = table w ++ [u]
  /\ (user_id u, role u, content_type u, content u)
     = (userId, user_role, text_type, p)
  /\ filter is_insert (issued w w2) = [DbInsert (user_text userId p)]
  /\ (forall (message : jsstring) (w0 : World),
        1 <= List.length message -> List.length message <= 2000 ->
        store_accepts 2 w0 ->
        exists out w0',
          sendMessage env ext ctx (message_input message userId) w0
          = (inr out, w0')
          /\ table w0' = table w0 ++ [userMessage out; aiMessage out]
          /\ role (userMessage out) = user_role
          /\ role (aiMessage out) = model_role).
Proof.
  intros L U V SA p u H F.
  rewrite generateGeminiImage_run in H. injection H as Hr Hw2.
  rewrite <- Hr in F.
  split; [| repeat split].
  - rewrite (@generateImage_adapter_failure env ext ctx prompt userId w L U V SA F).
    fold p. rewrite Hr, Hw2. reflexivity.
  - rewrite <- Hw2. reflexivity.
  - rewrite <- Hw2. unfold issued. cbn [inserted advance log].
    rewrite <- app_assoc, skipn_app, skipn_all, Nat.sub_diag.
    cbn [skipn app filter is_insert]. f_equal.
    revert F. unfold image_run.
    destruct (configured (GEMINI_API_KEY env)); cbn [negb];
      [| reflexivity].
    destruct (truthy (sanitizeUserInput p)); cbn [negb]; [| reflexivity].
    destruct (chain_cases env ext (sanitizeUserInput p)) as [S _].
    rewrite S. discriminate.
  - intros message w0 L0 U0 SA0.
    eexists. eexists. split;
      [apply (@sendMessage_run env ext ctx message userId w0 L0 U0 SA0) |].
    cbn [userMessage aiMessage inserted advance table].
    rewrite <- app_assoc. repeat split.
Qed.

(** C9: without GEMINI_API_KEY [generateGeminiImage] fails at once with
    "Gemini API key not configured", sending no request and building no
    placeholder, and [generateImage] then throws an internal error after
    storing the prompt row; yet when the key is set its value plays no
    part in what the chain sends or returns. *)
Theorem gemini_key_gates_image_chain (env : Env) (ext : External)
  (prompt : jsstring) (w : World) :
  configured (GEMINI_API_KEY env) = false ->
  generateGeminiImage env ext prompt w
  = (inr {| imageUrl := []; image_success := false;
            image_error := Some (lit "Gemini API key not configured") |}, w)
  /\ (forall (ctx : Context) (userId : jsstring),
        1 <= List.length prompt -> List.length prompt <= 1000 ->
        1 <= List.length userId ->
        store_accepts 1 w ->
        generateImage env ext ctx (prompt_input prompt userId) w
        = (inl (TRPCError INTERNAL_SERVER_ERROR
                  (lit "Gemini API key not configured")),
           inserted (user_text userId (sanitizeUserInput prompt)) w))
  /\ (forall key key' : option jsstring,
        configured key = true -> configured key' = true ->
        generateGeminiImage
          {| GEMINI_API_KEY := key;
             HUGGINGFACE_API_KEY := HUGGINGFACE_API_KEY env;
             OPENAI_API_KEY := OPENAI_API_KEY env |} ext prompt w
        = generateGeminiImage
            {| GEMINI_API_KEY := key';
               HUGGINGFACE_API_KEY := HUGGINGFACE_API_KEY env;
               OPENAI_API_KEY := OPENAI_API_KEY env |} ext prompt w).
Proof.
  intros C. repeat split.
  - rewrite generateGeminiImage_run. unfold image_run. rewrite C.
    cbn [negb fst snd]. rewrite advance_nil. reflexivity.
  - intros ctx userId L U V SA.
    assert (image_run env ext (sanitizeUserInput prompt)
            = ([], image_failure (lit "Gemini API key not configured")))
      as R by (unfold image_run; rewrite C; reflexivity).
    rewrite (@generateImage_adapter_failure env ext ctx prompt userId w L U V SA);
      rewrite R; [| reflexivity].
    cbn [fst snd]. rewrite advance_nil. reflexivity.
  - intros key key' K K'. rewrite !generateGeminiImage_run.
    unfold image_run. cbn [GEMINI_API_KEY]. rewrite K, K'. reflexivity.
Qed.

(* ================================================================== *)
(** ** The identity gate and the input schemas *)
(* ================================================================== *)

(** C6, as amended: the gate exists but no operation is behind it.  A
    procedure built on [protectedProcedure] fails with UNAUTHORIZED for a
    call without identity before its input is parsed or its resolver runs,
    leaving the world untouched, and runs as the public one for a call with
    an identity; the five operations of the router are built on
    [t.procedure], so each behaves the same with and without an identity. *)
Theorem identity_gate_unused (env : Env) (ext : External) :
  (forall (I O : Type) (schema : json -> list ZodIssue + I)
          (resolver : Context -> I -> M O) (raw : json) (w : World),
      procedure ext protectedProcedure schema resolver {| user := None |} raw w
      = (inl (TRPCError UNAUTHORIZED
                (lit "You must be logged in to access this resource")), w))
  /\ (forall (I O : Type) (schema : json -> list ZodIssue + I)
             (resolver : Context -> I -> M O) (u : User) (raw : json)
             (w : World),
        procedure ext protectedProcedure schema resolver
          {| user := Some u |} raw w
        = procedure ext t_procedure schema resolver {| user := Some u |} raw w)
  /\ (forall (ctx ctx' : Context) (raw : json) (w : World),
        getChatHistory ext ctx raw w = getChatHistory ext ctx' raw w
        /\ sendMessage env ext ctx raw w = sendMessage env ext ctx' raw w
        /\ sendMessageStream env ext ctx raw w
           = sendMessageStream env ext ctx' raw w
        /\ clearHistory ext ctx raw w = clearHistory ext ctx' raw w
        /\ generateImage env ext ctx raw w = generateImage env ext ctx' raw w).
Proof.
  split; [| split].
  - reflexivity.
  - reflexivity.
  - intros ctx ctx' raw w.
    unfold getChatHistory, sendMessage, sendMessageStream, clearHistory,
      generateImage.
    rewrite !procedure_public. repeat split.
Qed.

(** C6, the counterexample: a call of [sendMessage] that carries no
    identity headers is served: it returns normally after two inserts and
    one request to the text model. *)
Lemma sendMessage_without_identity :
  createContext [] = anonymous
  /\ returned
       (fst (sendMessage all_keys greeter anonymous
               (message_input (lit "Hello") (lit "u1")) empty_world))
     = true
  /\ log (snd (sendMessage all_keys greeter anonymous
                 (message_input (lit "Hello") (lit "u1")) empty_world))
     = [ DbInsert (user_text (lit "u1") (lit "Hello"));
         GenerateContent (text_prompt (lit "Hello"));
         DbInsert (model_text (lit "u1") (lit "Hi there")) ]
  /\ map content
       (table (snd (sendMessage all_keys greeter anonymous
                      (message_input (lit "Hello") (lit "u1")) empty_world)))
     = [lit "Hello"; lit "Hi there"].
Proof. vm_compute. repeat split. Qed.

(** C7: an input the schema rejects makes [sendMessage] and
    [generateImage] throw the validation error and leaves the world as it
    was, so nothing is inserted and no request is sent; this is the case
    of an empty message or prompt, of a message of more than 2000 code
    units and of a prompt of more than 1000. *)
Theorem rejected_input_not_stored (env : Env) (ext : External)
  (ctx : Context) (w : World) :
  (forall (raw : json) (issues : list ZodIssue),
      sendMessageInput raw = inl issues ->
      sendMessage env ext ctx raw w
      = (inl (TRPCError BAD_REQUEST (zod_message ext issues)), w))
  /\ (forall (raw : json) (issues : list ZodIssue),
        generateImageInput raw = inl issues ->
        generateImage env ext ctx raw w
        = (inl (TRPCError BAD_REQUEST (zod_message ext issues)), w))
  /\ (forall message userId : jsstring,
        message = [] \/ 2000 < List.length message ->
        exists issues,
          sendMessage env ext ctx (message_input message userId) w
          = (inl (TRPCError BAD_REQUEST (zod_message ext issues)), w))
  /\ (forall prompt userId : jsstring,
        prompt = [] \/ 1000 < List.length prompt ->
        exists issues,
          generateImage env ext ctx (prompt_input prompt userId) w
          = (inl (TRPCError BAD_REQUEST (zod_message ext issues)), w)).
Proof.
  assert (forall raw issues, sendMessageInput raw = inl issues ->
            sendMessage env ext ctx raw w
            = (inl (TRPCError BAD_REQUEST (zod_message ext issues)), w)) as S.
  { intros raw issues E. unfold sendMessage.
    rewrite procedure_public, E. reflexivity. }
  assert (forall raw issues, generateImageInput raw = inl issues ->
            generateImage env ext ctx raw w
            = (inl (TRPCError BAD_REQUEST (zod_message ext issues)), w)) as G.
  { intros raw issues E. unfold generateImage.
    rewrite procedure_public, E. reflexivity. }
  repeat split; try assumption.
  - intros message userId H.
    destruct (sendMessageInput_invalid userId H) as [issues E].
    exists issues. apply S, E.
  - intros prompt userId H.
    destruct (generateImageInput_invalid userId H) as [issues E].
    exists issues. apply G, E.
Qed.

(* ================================================================== *)
(** ** clearHistory *)
(* ================================================================== *)

Lemma owned_by_other (u1 u2 : jsstring) (r : ChatMessage) :
  u1 <> u2 -> owned_by u2 r = true -> owned_by u1 r = false.
Proof.
  unfold owned_by. intros N H. apply jsstring_eqb_eq in H.
  apply jsstring_eqb_neq. congruence.
Qed.

Lemma filter_cleared_other (u1 u2 : jsstring) (l : list ChatMessage) :
  u1 <> u2 ->
  filter (owned_by u2) (filter (fun r => negb (owned_by u1 r)) l)
  = filter (owned_by u2) l.
Proof.
  intros N. induction l as [| r l IH]; [reflexivity |].
  cbn [filter]. destruct (owned_by u2 r) eqn:O2.
  - rewrite (owned_by_other r N O2). cbn [negb filter]. rewrite O2, IH.
    reflexivity.
  - destruct (owned_by u1 r); cbn [negb filter]; rewrite ?O2; exact IH.
Qed.

Lemma filter_cleared_own (u1 : jsstring) (l : list ChatMessage) :
  filter (owned_by u1) (filter (fun r => negb (owned_by u1 r)) l) = [].
Proof.
  induction l as [| r l IH]; [reflexivity |].
  cbn [filter]. destruct (owned_by u1 r) eqn:O; cbn [negb filter];
    rewrite ?O; exact IH.
Qed.

(** C8: with a store that answers the two requests, [clearHistory] for
    u1 succeeds and a following [getChatHistory] for u1 returns the empty
    sequence with count 0; no row of u1 is left, and the rows of any other
    user u2, and so u2's history, are what they were. *)
Theorem clearHistory_isolated (env : Env) (ext : External)
  (ctx : Context) (u1 u2 : jsstring) (w : World) :
  u1 <> u2 ->
  store_accepts 2 w ->
  let r1 := clearHistory ext ctx (userId_input u1) w in
  let r2 := getChatHistory ext ctx (userId_input u1) (snd r1) in
  fst r1 = inr {| clear_success := true;
                  clear_message := lit "Chat history cleared successfully" |}
  /\ fst r2 = inr {| history_success := true; messages := []; count := 0 |}
  /\ filter (owned_by u1) (table (snd r1)) = []
  /\ filter (owned_by u2) (table (snd r1)) = filter (owned_by u2) (table w)
  /\ history u2 (snd r1) = history u2 w
  /\ table (snd r2) = table (snd r1).
Proof.
  intros N SA.
  pose proof (store_accepts_next SA) as F1.
  assert (next_fault (cleared u1 w) = None) as F2.
  { apply (@store_accepts_next 0). eapply store_accepts_tail; [exact SA |].
    reflexivity. }
  assert (clearHistory ext ctx (userId_input u1) w
          = (inr {| clear_success := true;
                    clear_message :=
                      lit "Chat history cleared successfully" |},
             cleared u1 w)) as R1.
  { unfold clearHistory. rewrite procedure_public, userIdInput_valid.
    unfold clearHistory_resolver. cbn [ui_userId]. async. next.
    rewrite clearUserHistory_run, F1. reflexivity. }
  assert (getChatHistory ext ctx (userId_input u1) (cleared u1 w)
          = (inr {| history_success := true; messages := []; count := 0 |},
             answered (DbSelect u1) (cleared u1 w))) as R2.
  { unfold getChatHistory. rewrite procedure_public, userIdInput_valid.
    unfold getChatHistory_resolver. cbn [ui_userId]. async. next.
    rewrite getMessagesForUser_run, F2.
    cbn [cleared table]. rewrite filter_cleared_own. reflexivity. }
  cbv zeta. rewrite R1. cbn [fst snd]. rewrite R2. cbn [fst snd].
  repeat split.
  - cbn [cleared table]. apply filter_cleared_own.
  - cbn [cleared table]. apply filter_cleared_other, N.
  - unfold history. cbn [cleared table].
    rewrite filter_cleared_other by exact N. reflexivity.
Qed.

(* ================================================================== *)
(** ** The theorems at sample inputs *)
(* ================================================================== *)

Lemma image_fallback_order_witness :
  (provider_succeeds all_keys first_up (sanitizeUserInput (lit "a red cat"))
     ProviderA = true
   /\ invoked first_up
        (issued empty_world
           (snd (generateGeminiImage all_keys first_up (lit "a red cat")
                   empty_world))) ProviderB = false
   /\ invoked first_up
        (issued empty_world
           (snd (generateGeminiImage all_keys first_up (lit "a red cat")
                   empty_world))) ProviderC = false)
  /\ (provider_succeeds all_keys second_up
        (sanitizeUserInput (lit "a red cat")) ProviderA = false
      /\ provider_succeeds all_keys second_up
           (sanitizeUserInput (lit "a red cat")) ProviderB = true
      /\ invoked second_up
           (issued empty_world
              (snd (generateGeminiImage all_keys second_up (lit "a red cat")
                      empty_world))) ProviderB = true
      /\ invoked second_up
           (issued empty_world
              (snd (generateGeminiImage all_keys second_up (lit "a red cat")
                      empty_world))) ProviderC = false)
  /\ (provider_succeeds free_keys all_down
        (sanitizeUserInput (lit "a red cat")) ProviderA = false
      /\ provider_succeeds free_keys all_down
           (sanitizeUserInput (lit "a red cat")) ProviderB = false
      /\ configured (OPENAI_API_KEY free_keys) = false
      /\ fst (generateGeminiImage free_keys all_down (lit "a red cat")
                empty_world)
         = inr placeholder_response).
Proof.
  split; [| split].
  - assert (provider_succeeds all_keys first_up
              (sanitizeUserInput (lit "a red cat")) ProviderA = true) as A
      by (vm_compute; reflexivity).
    split; [exact A |].
    destruct (image_fallback_order all_keys first_up (lit "a red cat")
                empty_world) as [_ [_ H]].
    destruct H as [H _]; [vm_compute; reflexivity .. |].
    destruct (H A) as [_ [_ [B [C _]]]]. split; [exact B | exact C].
  - assert (provider_succeeds all_keys second_up
              (sanitizeUserInput (lit "a red cat")) ProviderA = false) as A
      by (vm_compute; reflexivity).
    assert (provider_succeeds all_keys second_up
              (sanitizeUserInput (lit "a red cat")) ProviderB = true) as B
      by (vm_compute; reflexivity).
    split; [exact A |]. split; [exact B |].
    destruct (image_fallback_order all_keys second_up (lit "a red cat")
                empty_world) as [_ [_ H]].
    destruct H as [_ [H _]]; [vm_compute; reflexivity .. |].
    destruct (H A B) as [_ [IB [IC _]]]. split; [exact IB | exact IC].
  - assert (provider_succeeds free_keys all_down
              (sanitizeUserInput (lit "a red cat")) ProviderA = false) as A
      by (vm_compute; reflexivity).
    assert (provider_succeeds free_keys all_down
              (sanitizeUserInput (lit "a red cat")) ProviderB = false) as B
      by (vm_compute; reflexivity).
    split; [exact A |]. split; [exact B |]. split; [reflexivity |].
    destruct (image_fallback_order free_keys all_down (lit "a red cat")
                empty_world) as [_ [_ H]].
    destruct H as [_ [_ [_ [_ H]]]]; [vm_compute; reflexivity .. |].
    destruct (H A B eq_refl) as [_ [_ [R _]]]. exact R.
Defined.

(** The scenario of the specification: "Hello" from u1 with an adapter
    answering "Hi there". *)
Lemma sendMessage_stores_turn_witness :
  1 <= List.length (lit "Hello") <= 2000
  /\ store_accepts 2 empty_world
  /\ map (fun m => (user_id m, role m, content m))
       (table (snd (sendMessage all_keys greeter anonymous
                      (message_input (lit "Hello") (lit "u1")) empty_world)))
     = [ (lit "u1", user_role, lit "Hello");
         (lit "u1", model_role, lit "Hi there") ].
Proof.
  split; [vm_compute; lia |]. split; [constructor |].
  destruct (@sendMessage_stores_turn all_keys greeter anonymous
              (lit "Hello") (lit "u1") empty_world
              (snd (generateGeminiResponse all_keys greeter
                      (sanitizeUserInput (lit "Hello"))
                      (inserted (user_text (lit "u1")
                                   (sanitizeUserInput (lit "Hello")))
                         empty_world)))
              {| response := lit "Hi there"; success := true; error := None |})
    as [E [T _]].
  - vm_compute; lia.
  - vm_compute; lia.
  - constructor.
  - vm_compute. reflexivity.
  - reflexivity.
  - rewrite E. cbn [snd]. rewrite T. vm_compute. reflexivity.
Defined.

Lemma sendMessage_overload_reply_witness :
  store_accepts 2 empty_world
  /\ map (fun m => (role m, includes (content m) (lit "/image")))
       (table (snd (sendMessage all_keys out_of_quota anonymous
                      (message_input (lit "Hello") (lit "u1")) empty_world)))
     = [ (user_role, false); (model_role, true) ]
  /\ returned (fst (sendMessage all_keys out_of_quota anonymous
                      (message_input (lit "Hello") (lit "u1")) empty_world))
     = true.
Proof.
  split; [constructor |].
  destruct (@sendMessage_overload_reply all_keys out_of_quota anonymous
              (lit "Hello") (lit "u1") empty_world
              (snd (generateGeminiResponse all_keys out_of_quota
                      (sanitizeUserInput (lit "Hello"))
                      (inserted (user_text (lit "u1")
                                   (sanitizeUserInput (lit "Hello")))
                         empty_world)))
              {| response := overloaded_text; success := false;
                 error := Some (lit "Service temporarily overloaded") |})
    as [E [T _]].
  - vm_compute; lia.
  - vm_compute; lia.
  - constructor.
  - vm_compute. reflexivity.
  - reflexivity.
  - rewrite E. cbn [fst snd]. rewrite T. vm_compute. split; reflexivity.
Defined.

(** A prompt of two angle brackets passes the schema and is sanitized to
    the empty string, which the adapter refuses. *)
Lemma generateImage_leaves_orphan_witness :
  store_accepts 1 empty_world
  /\ generateImage all_keys first_up anonymous
       (prompt_input (lit "<>") (lit "u1")) empty_world
     = (inl (TRPCError INTERNAL_SERVER_ERROR (lit "Prompt cannot be empty")),
        inserted (user_text (lit "u1") []) empty_world).
Proof.
  split; [constructor |].
  destruct (@generateImage_leaves_orphan all_keys first_up anonymous
              (lit "<>") (lit "u1") empty_world
              (inserted (user_text (lit "u1") []) empty_world)
              (image_failure (lit "Prompt cannot be empty")))
    as [E _].
  - vm_compute; lia.
  - vm_compute; lia.
  - vm_compute; lia.
  - constructor.
  - vm_compute. reflexivity.
  - reflexivity.
  - rewrite E. vm_compute. reflexivity.
Defined.

Lemma rejected_input_not_stored_witness :
  (exists issues,
      sendMessage all_keys greeter anonymous
        (message_input [] (lit "u1")) empty_world
      = (inl (TRPCError BAD_REQUEST (zod_message greeter issues)),
         empty_world))
  /\ (exists issues,
        generateImage all_keys greeter anonymous
          (prompt_input (repeat 97%N 1001) (lit "u1")) empty_world
        = (inl (TRPCError BAD_REQUEST (zod_message greeter issues)),
           empty_world)).
Proof.
  split.
  - apply (proj1 (proj2 (proj2 (rejected_input_not_stored all_keys greeter
                                  anonymous empty_world)))).
    left. reflexivity.
  - apply (proj2 (proj2 (proj2 (rejected_input_not_stored all_keys greeter
                                  anonymous empty_world)))).
    right. rewrite repeat_length. lia.
Defined.

Lemma clearHistory_isolated_witness :
  lit "u1" <> lit "u2"
  /\ store_accepts 2 two_users
  /\ map content
       (table (snd (clearHistory greeter anonymous
                      (userId_input (lit "u1")) two_users)))
     = [lit "Bonjour"]
  /\ fst (getChatHistory greeter anonymous (userId_input (lit "u1"))
            (snd (clearHistory greeter anonymous
                    (userId_input (lit "u1")) two_users)))
     = inr {| history_success := true; messages := []; count := 0 |}.
Proof.
  assert (lit "u1" <> lit "u2") as N by lit_neq.
  assert (store_accepts 2 two_users) as SA by constructor.
  split; [exact N |]. split; [exact SA |].
  destruct (@clearHistory_isolated all_keys greeter anonymous
              (lit "u1") (lit "u2") two_users N SA) as [_ [G _]].
  split; [vm_compute; reflexivity | exact G].
Defined.

Lemma gemini_key_gates_image_chain_witness :
  configured (GEMINI_API_KEY no_gemini_key) = false
  /\ generateGeminiImage no_gemini_key first_up (lit "a red cat") empty_world
     = (inr {| imageUrl := []; image_success := false;
               image_error := Some (lit "Gemini API key not configured") |},
        empty_world).
Proof.
  split; [reflexivity |].
  apply (proj1 (@gemini_key_gates_image_chain no_gemini_key first_up
                  (lit "a red cat") empty_world eq_refl)).
Defined.
Example includes_ex : includes (lit "over quota today") (lit "quota") = true.
Proof. reflexivity. Qed.

Example trim_ex : trim (lit "  a b  ") = lit "a b".
Proof. reflexivity. Qed.

Example encode_ex :
  encodeURIComponent (lit "a red cat?") = Some (lit "a%20red%20cat%3F").
Proof. reflexivity. Qed.

Example encode_lone_surrogate : encodeURIComponent [55357%N] = None.
Proof. reflexivity. Qed.

Example encode_pair :
  encodeURIComponent [55357%N; 56481%N] = Some (lit "%F0%9F%92%A1").
Proof. reflexivity. Qed.

Example base64_ex : base64 (lit "Many") = lit "TWFueQ==".
Proof. reflexivity. Qed.

Example decimal_ex : decimal 512 = lit "512" /\ decimal 0 = lit "0".
Proof. split; reflexivity. Qed.

(* ================================================================== *)
(** ** The store invariant *)
(* ================================================================== *)

Lemma store_wf_empty : store_wf empty_world.
Proof. split; constructor. Qed.

Lemma store_wf_inserted (m : NewMessage) (w : World) :
  store_wf w -> store_wf (inserted m w).
Proof.
  intros [S B]. split; cbn [inserted table now].
  - apply sorted_snoc; assumption.
  - apply Forall_app. split.
    + eapply Forall_impl; [| exact B]. cbv beta. intros r Hr. lia.
    + constructor; [| constructor]. cbn [stored created_at]. lia.
Qed.

Lemma store_wf_advance (reqs : list request) (w : World) :
  store_wf w -> store_wf (advance reqs w).
Proof.
  intros [S B]. split; cbn [advance table now]; [exact S |].
  eapply Forall_impl; [| exact B]. cbv beta. intros r Hr. lia.
Qed.

Lemma store_wf_answered (r : request) (w : World) :
  store_wf w -> store_wf (answered r w).
Proof.
  intros [S B]. split; cbn [answered table now]; [exact S |].
  eapply Forall_impl; [| exact B]. cbv beta. intros x Hx. lia.
Qed.

Lemma store_wf_cleared (userId : jsstring) (w : World) :
  store_wf w -> store_wf (cleared userId w).
Proof.
  intros [S B]. split; cbn [cleared table now].
  - apply sorted_filter, S.
  - apply Forall_filter. eapply Forall_impl; [| exact B].
    cbv beta. intros x Hx. lia.
Qed.

(** After a completed turn of [sendMessage] the store is well formed
    again. *)
Lemma sendMessage_keeps_store_wf (env : Env) (ext : External) (ctx : Context)
  (message userId : jsstring) (w : World) :
  1 <= List.length message -> List.length message <= 2000 ->
  store_accepts 2 w ->
  store_wf w ->
  store_wf (snd (sendMessage env ext ctx (message_input message userId) w)).
Proof.
  intros L U SA WF.
  rewrite (@sendMessage_run env ext ctx message userId w L U SA).
  cbn [snd]. apply store_wf_inserted, store_wf_advance, store_wf_inserted, WF.
Qed.

(* ================================================================== *)
(** ** More runs *)
(* ================================================================== *)

Lemma image_failure_only_before_chain_witness :
  generateGeminiImage free_keys all_down (lit "a red cat") empty_world
  = (inr placeholder_response,
     advance
       [ Fetch (huggingface_request free_keys (lit "a red cat"));
         Fetch (pollinations_request
                  (pollinations_url (lit "a%20red%20cat") 456789)) ]
       empty_world).
Proof.
  destruct (image_failure_only_before_chain free_keys all_down
              (lit "a red cat") empty_world) as [r [w' [E [_ [_ P]]]]].
  assert (r = snd (image_run free_keys all_down (lit "a red cat"))
          /\ w' = advance
                    (fst (image_run free_keys all_down (lit "a red cat")))
                    empty_world) as [Hr Hw]
    by (rewrite generateGeminiImage_run in E; split; congruence).
  rewrite E. rewrite P; try (rewrite Hw); try (rewrite Hr);
    vm_compute; reflexivity.
Defined.

(** The scenario of the specification: "a red cat" with provider A
    disabled and provider B answering with an image. *)
Example generateImage_red_cat :
  match generateImage gemini_only second_up anonymous
          (prompt_input (lit "a red cat") (lit "u1")) empty_world with
  | (inr out, w') =>
      generated_imageUrl out
      = lit "https://image.pollinations.ai/prompt/a%20red%20cat?width=512&height=512&seed=456789&model=flux&nologo=true"
      /\ map (fun m => (role m, content_type m)) (table w')
         = [ (user_role, text_type); (model_role, image_type) ]
      /\ providers second_up (log w') = [ProviderB]
  | (inl _, _) => False
  end.
Proof. vm_compute. repeat split. Qed.

(** When the store refuses the user's row, [sendMessage] stores the
    apology, if it can, and throws. *)
Example sendMessage_store_down :
  match sendMessage all_keys greeter anonymous
          (message_input (lit "Hello") (lit "u1")) failing_store with
  | (inl e, w') =>
      e = TRPCError INTERNAL_SERVER_ERROR
            (lit "Failed to process your message")
      /\ map (fun m => (role m, content m)) (table w')
         = [ (model_role, apology_text) ]
      /\ log w' = [ DbInsert (user_text (lit "u1") (lit "Hello"));
                    DbInsert (model_text (lit "u1") apology_text) ]
  | (inr _, _) => False
  end.
Proof. vm_compute. repeat split. Qed.

(** A streamed answer: the saved user row, one chunk, the completion. *)
Example sendMessageStream_hello :
  match sendMessageStream all_keys greeter anonymous
          (message_input (lit "Hello") (lit "u1")) empty_world with
  | (inr tt, w') =>
      map (fun ev => match ev with
                     | userMessageSaved m => content m
                     | chunk_event c _ _ => c
                     | complete_event _ full => full
                     | error_event _ e => e
                     end) (outbox w')
      = [lit "Hello"; lit "Hi there"; lit "Hi there"]
      /\ map content (table w') = [lit "Hello"; lit "Hi there"]
  | (inl _, _) => False
  end.
Proof. vm_compute. repeat split. Qed.

(** A streamed failure is stored as the model's turn, too. *)
Example sendMessageStream_out_of_quota :
  match sendMessageStream all_keys out_of_quota anonymous
          (message_input (lit "Hello") (lit "u1")) empty_world with
  | (inr tt, w') =>
      map (fun m => (role m, includes (content m) (lit "/image"))) (table w')
      = [ (user_role, false); (model_role, true) ]
  | (inl _, _) => False
  end.
Proof. vm_compute. repeat split. Qed.

Example sanitize_ex :
  sanitizeUserInput (lit "  <b>a red cat</b> ") = lit "ba red cat/b".
Proof. vm_compute. reflexivity. Qed.

Example createContext_ex :
  createContext [(lit "x-user-id", lit "auth0|42")]
  = {| user := Some {| sub := lit "auth0|42"; name := None; email := None;
                       picture := None |} |}.
Proof. vm_compute. reflexivity. Qed.

(** The name of a header is matched whatever its case, its value is
    read without the blanks around it, and the values of headers of the
    same name are read together. *)
Example createContext_header_forms :
  createContext [(lit "X-User-Id", lit " u1 ")]
  = {| user := Some {| sub := lit "u1"; name := None; email := None;
                       picture := None |} |}
  /\ createContext [(lit "x-user-id", lit "  ")] = anonymous
  /\ createContext [(lit "x-user-name", lit "Ada")] = anonymous
  /\ createContext [(lit "x-user-id", lit "u1"); (lit "X-USER-ID", lit "u2")]
     = {| user := Some {| sub := lit "u1, u2"; name := None; email := None;
                          picture := None |} |}.
Proof. vm_compute. repeat split. Qed.

(* ================================================================== *)
(** ** The sanitizer deletes, and only deletes *)
(* ================================================================== *)

Lemma Subseq_refl (s : jsstring) : Subseq s s.
Proof. induction s; [constructor | apply Subseq_keep; assumption]. Qed.

Lemma Subseq_trans (a b c : jsstring) : Subseq a b -> Subseq b c -> Subseq a c.
Proof.
  intros Hab Hbc. revert a Hab.
  induction Hbc as [| x s t Hst IH | x s t Hst IH]; intros a Hab.
  - exact Hab.
  - constructor. apply IH, Hab.
  - inversion Hab; subst.
    + constructor. apply IH. assumption.
    + apply Subseq_keep. apply IH. assumption.
Qed.

Lemma Subseq_nil_l (t : jsstring) : Subseq [] t.
Proof. induction t; constructor; assumption. Qed.

Lemma Subseq_app (s1 t1 s2 t2 : jsstring) :
  Subseq s1 t1 -> Subseq s2 t2 -> Subseq (s1 ++ s2) (t1 ++ t2).
Proof.
  induction 1 as [| c s t H IH | c s t H IH]; intros H2; cbn [app].
  - exact H2.
  - apply Subseq_skip, IH, H2.
  - apply Subseq_keep, IH, H2.
Qed.

Lemma Subseq_rev (s t : jsstring) : Subseq s t -> Subseq (rev s) (rev t).
Proof.
  induction 1 as [| c s t H IH | c s t H IH]; cbn [rev].
  - constructor.
  - rewrite <- (app_nil_r (rev s)). apply Subseq_app; [exact IH |].
    apply Subseq_nil_l.
  - apply Subseq_app; [exact IH | apply Subseq_refl].
Qed.

Lemma Subseq_filter (f : code_unit -> bool) (s : jsstring) :
  Subseq (filter f s) s.
Proof.
  induction s as [| c s IH]; cbn [filter]; [constructor |].
  destruct (f c); [apply Subseq_keep | apply Subseq_skip]; exact IH.
Qed.

Lemma Subseq_firstn (n : nat) (s : jsstring) : Subseq (firstn n s) s.
Proof.
  revert s. induction n as [| n IH]; intros s; cbn [firstn].
  - apply Subseq_nil_l.
  - destruct s; [constructor | apply Subseq_keep, IH].
Qed.

Lemma Subseq_trimStart (s : jsstring) : Subseq (trimStart s) s.
Proof.
  induction s as [| c s IH]; cbn [trimStart]; [constructor |].
  destruct (isWhiteSpace c); [apply Subseq_skip; exact IH | apply Subseq_refl].
Qed.

Lemma Subseq_trim (s : jsstring) : Subseq (trim s) s.
Proof.
  unfold trim, trimEnd.
  eapply Subseq_trans; [| apply Subseq_trimStart].
  rewrite <- (rev_involutive (trimStart s)) at 2.
  apply Subseq_rev, Subseq_trimStart.
Qed.

Lemma Subseq_In (s t : jsstring) (c : code_unit) :
  Subseq s t -> In c s -> In c t.
Proof.
  induction 1; cbn [In]; intros H0; auto.
  destruct H0; auto.
Qed.

Lemma Subseq_length (s t : jsstring) :
  Subseq s t -> List.length s <= List.length t.
Proof. induction 1; cbn [List.length]; lia. Qed.

Lemma Subseq_Forall (P : code_unit -> Prop) (s t : jsstring) :
  Subseq s t -> Forall P t -> Forall P s.
Proof.
  intros H F. rewrite Forall_forall in *. intros c Hc.
  apply F. eapply Subseq_In; eassumption.
Qed.

Lemma sanitize_subseq (input : jsstring) :
  Subseq (sanitizeUserInput input) input.
Proof.
  unfold sanitizeUserInput, stripAngleBrackets, slice0.
  eapply Subseq_trans; [apply Subseq_filter |].
  eapply Subseq_trans; [apply Subseq_firstn | apply Subseq_trim].
Qed.

(** X1: [sanitizeUserInput] only deletes code units: its result is the
    input with some units removed, in the same order, and no angle
    bracket is left in it. *)
Theorem sanitize_deletes_only (input : jsstring) :
  Subseq (sanitizeUserInput input) input
  /\ no_angle_bracket (sanitizeUserInput input).
Proof.
  split; [apply sanitize_subseq |].
  unfold no_angle_bracket. apply Forall_forall. intros c Hc.
  unfold sanitizeUserInput, stripAngleBrackets in Hc.
  apply filter_In in Hc. destruct Hc as [_ Hc].
  apply negb_true_iff in Hc. exact Hc.
Qed.

(* ================================================================== *)
(** ** Sanitizing twice *)
(* ================================================================== *)

Lemma trimStart_clean (s : jsstring) :
  match trimStart s with
  | [] => True
  | c :: _ => isWhiteSpace c = false
  end.
Proof.
  induction s as [| c s IH]; cbn [trimStart]; [exact I |].
  destruct (isWhiteSpace c) eqn:W; [exact IH | exact W].
Qed.

Lemma trimStart_fixed (s : jsstring) :
  match s with
  | [] => True
  | c :: _ => isWhiteSpace c = false
  end -> trimStart s = s.
Proof. destruct s as [| c s]; cbn [trimStart]; [reflexivity |]. intros ->. reflexivity. Qed.

(** What [trimStart] removes is a prefix. *)
Lemma trimStart_suffix (s : jsstring) : exists ws, s = ws ++ trimStart s.
Proof.
  induction s as [| c s [ws IH]]; cbn [trimStart]; [exists []; reflexivity |].
  destruct (isWhiteSpace c).
  - exists (c :: ws). cbn [app]. f_equal. exact IH.
  - exists []. reflexivity.
Qed.

Lemma trimEnd_prefix (s : jsstring) : exists ws, s = trimEnd s ++ ws.
Proof.
  unfold trimEnd. destruct (trimStart_suffix (rev s)) as [ws E].
  exists (rev ws). rewrite <- rev_app_distr, <- E, rev_involutive.
  reflexivity.
Qed.

Lemma trim_idempotent (s : jsstring) : trim (trim s) = trim s.
Proof.
  unfold trim at 1.
  assert (trimStart (trim s) = trim s) as E1.
  { apply trimStart_fixed. unfold trim.
    pose proof (trimStart_clean s) as C.
    destruct (trimEnd_prefix (trimStart s)) as [ws E].
    destruct (trimEnd (trimStart s)) as [| c r]; [exact I |].
    rewrite E in C. exact C. }
  rewrite E1. unfold trim at 1, trimEnd at 1.
  unfold trimEnd at 1. rewrite rev_involutive.
  rewrite (trimStart_fixed (trimStart (rev (trimStart s))));
    [reflexivity | apply trimStart_clean].
Qed.

Lemma strip_fixed (s : jsstring) :
  no_angle_bracket s -> stripAngleBrackets s = s.
Proof.
  unfold no_angle_bracket, stripAngleBrackets.
  induction 1 as [| c s H F IH]; cbn [filter]; [reflexivity |].
  rewrite H. cbn [negb]. f_equal. exact IH.
Qed.

(** X2: on an input of at most 2000 code units without angle brackets the
    sanitizer is the trim, and sanitizing the result again changes
    nothing: what [generateImage] stores is then what
    [generateGeminiImage], which sanitizes once more, works on. *)
Theorem sanitize_twice (input : jsstring) :
  no_angle_bracket input ->
  List.length input <= 2000 ->
  sanitizeUserInput input = trim input
  /\ sanitizeUserInput (sanitizeUserInput input) = sanitizeUserInput input.
Proof.
  intros B L.
  assert (forall s, no_angle_bracket s -> List.length s <= 2000 ->
                    sanitizeUserInput s = trim s) as S.
  { intros s Bs Ls. unfold sanitizeUserInput, slice0.
    rewrite firstn_all2
      by (eapply Nat.le_trans; [apply Subseq_length, Subseq_trim | exact Ls]).
    apply strip_fixed. eapply Subseq_Forall; [apply Subseq_trim | exact Bs]. }
  split; [apply S; assumption |].
  rewrite (S input B L). rewrite S.
  - apply trim_idempotent.
  - eapply Subseq_Forall; [apply Subseq_trim | exact B].
  - eapply Nat.le_trans; [apply Subseq_length, Subseq_trim | exact L].
Qed.

Lemma sanitize_twice_witness :
  sanitizeUserInput (sanitizeUserInput (lit "  a red cat "))
  = sanitizeUserInput (lit "  a red cat ").
Proof.
  apply (@sanitize_twice (lit "  a red cat ")).
  - vm_compute. repeat constructor.
  - vm_compute. lia.
Defined.

(** With an angle bracket the second pass can delete more. *)
Example sanitize_twice_differs :
  sanitizeUserInput (lit "< a") = lit " a"
  /\ sanitizeUserInput (sanitizeUserInput (lit "< a")) = lit "a".
Proof. vm_compute. split; reflexivity. Qed.

(* ================================================================== *)
(** ** The address sent to provider B *)
(* ================================================================== *)

Lemma encode_nil : encodeURIComponent [] = Some [].
Proof. reflexivity. Qed.

Lemma encode_cons (c : code_unit) (rest : jsstring) :
  encodeURIComponent (c :: rest)
  = if isUnreserved c then option_map (cons c) (encodeURIComponent rest)
    else if isLowSurrogate c then None
    else if isHighSurrogate c then
      match rest with
      | d :: rest' =>
          if isLowSurrogate d then
            option_map
              (app (flat_map percent
                      (utf8 ((c - 55296) * 1024 + (d - 56320) + 65536)%N)))
              (encodeURIComponent rest')
          else None
      | [] => None
      end
    else option_map (app (flat_map percent (utf8 c)))
                    (encodeURIComponent rest).
Proof. reflexivity. Qed.

Lemma hexDigit_safe (n : N) : (n < 16)%N -> url_safe (hexDigit n) = true.
Proof.
  intros H.
  assert (forallb (fun k => url_safe (hexDigit (N.of_nat k))) (seq 0 16)
          = true) as A by reflexivity.
  rewrite forallb_forall in A. specialize (A (N.to_nat n)).
  rewrite N2Nat.id in A. apply A. apply in_seq. lia.
Qed.

Lemma percent_safe (b : N) : (b < 256)%N -> forallb url_safe (percent b) = true.
Proof.
  intros H. unfold percent. cbn [forallb].
  rewrite !hexDigit_safe.
  - reflexivity.
  - apply N.mod_lt. lia.
  - apply N.Div0.div_lt_upper_bound. lia.
Qed.

Lemma utf8_bytes (cp : N) :
  (cp < 1114112)%N -> Forall (fun b => (b < 256)%N) (utf8 cp).
Proof.
  intros H. unfold utf8.
  assert (forall x, 128 + x mod 64 < 256)%N as M
      by (intros x; pose proof (N.mod_lt x 64); lia).
  destruct (N.ltb_spec cp 128); [repeat constructor; lia |].
  destruct (N.ltb_spec cp 2048).
  { repeat constructor; [| apply M].
    assert (cp / 64 < 32)%N by (apply N.Div0.div_lt_upper_bound; lia). lia. }
  destruct (N.ltb_spec cp 65536).
  { repeat constructor; try apply M.
    assert (cp / 4096 < 16)%N by (apply N.Div0.div_lt_upper_bound; lia). lia. }
  repeat constructor; try apply M.
  assert (cp / 262144 < 16)%N by (apply N.Div0.div_lt_upper_bound; lia). lia.
Qed.

Lemma escaped_safe (cp : N) :
  (cp < 1114112)%N -> forallb url_safe (flat_map percent (utf8 cp)) = true.
Proof.
  intros H. pose proof (utf8_bytes H) as B.
  induction B as [| b l Hb _ IH]; [reflexivity |].
  cbn [flat_map]. rewrite forallb_app, percent_safe by exact Hb. exact IH.
Qed.

Lemma between_spec (lo hi c : N) :
  between lo hi c = true -> (lo <= c <= hi)%N.
Proof.
  unfold between. intros H. apply andb_true_iff in H.
  destruct H as [H1 H2]. apply N.leb_le in H1. apply N.leb_le in H2. lia.
Qed.

Lemma encode_safe (n : nat) :
  forall s e,
    List.length s <= n -> utf16 s -> encodeURIComponent s = Some e ->
    forallb url_safe e = true.
Proof.
  induction n as [| n IH]; intros s e L U E.
  - destruct s; [| cbn [List.length] in L; lia].
    rewrite encode_nil in E. injection E as <-. reflexivity.
  - destruct s as [| c rest].
    { rewrite encode_nil in E. injection E as <-. reflexivity. }
    cbn [List.length] in L. inversion U as [| ? ? Hc Urest]; subst.
    rewrite encode_cons in E.
    destruct (isUnreserved c) eqn:Un.
    { destruct (encodeURIComponent rest) as [e' |] eqn:E'; [| discriminate].
      injection E as <-. cbn [forallb]. unfold url_safe at 1. rewrite Un.
      cbn [orb andb]. apply (IH rest); [lia | assumption | assumption]. }
    destruct (isLowSurrogate c); [discriminate |].
    destruct (isHighSurrogate c) eqn:Hi.
    + destruct rest as [| d rest']; [discriminate |].
      destruct (isLowSurrogate d) eqn:Lo; [| discriminate].
      destruct (encodeURIComponent rest') as [e' |] eqn:E'; [| discriminate].
      injection E as <-. rewrite forallb_app.
      apply between_spec in Hi. apply between_spec in Lo.
      rewrite escaped_safe by lia. cbn [andb].
      inversion Urest; subst. cbn [List.length] in L.
      apply (IH rest'); [lia | assumption | assumption].
    + destruct (encodeURIComponent rest) as [e' |] eqn:E'; [| discriminate].
      injection E as <-. rewrite forallb_app.
      rewrite escaped_safe by lia. cbn [andb].
      apply (IH rest); [lia | assumption | assumption].
Qed.

Lemma utf16_sanitize (input : jsstring) :
  utf16 input -> utf16 (sanitizeUserInput input).
Proof.
  intros U. eapply Subseq_Forall; [| exact U].
  apply sanitize_subseq.
Qed.

Lemma provider_of_B_inv (env : Env) (ext : External) (p : jsstring)
  (r : request) :
  In r (fst (chain env ext p)) ->
  provider_of r = Some ProviderB ->
  In r (fst (stepB ext p)).
Proof.
  unfold chain. intros I P.
  assert (forall x, In x (fst (stepA env ext p)) ->
                    provider_of x = Some ProviderA) as HA.
  { unfold stepA. destruct (configured _); cbn [fst In]; [| tauto].
    intros x [<- | []]. apply provider_of_huggingface. }
  assert (forall x, In x (fst (stepC env ext p)) ->
                    provider_of x = Some ProviderC) as HC.
  { unfold stepC. destruct (configured _); cbn [fst In]; [| tauto].
    intros x [<- | []]. apply provider_of_openai. }
  destruct (stepA env ext p) as [ra [ar |]]; cbn [fst] in *.
  { apply HA in I. congruence. }
  destruct (stepB ext p) as [rb [br |]]; cbn [fst] in *.
  { apply in_app_or in I. destruct I as [I | I]; [| exact I].
    apply HA in I. congruence. }
  destruct (stepC env ext p) as [rc [cr |]]; cbn [fst] in *;
    apply in_app_or in I; destruct I as [I | I];
    try (apply HA in I; congruence);
    apply in_app_or in I; destruct I as [I | I]; try exact I;
    apply HC in I; congruence.
Qed.

(** X3: whatever the prompt, a request [generateGeminiImage] sends to
    provider B goes to the fixed prefix followed by the percent-encoded
    sanitized prompt and the fixed query with a seed below one million;
    the encoded prompt holds only unreserved characters and percent
    signs, so it has no [?], [&], [#] or [/] of its own. *)
Theorem pollinations_address (env : Env) (ext : External)
  (prompt : jsstring) (w : World) (r : request) :
  utf16 prompt ->
  In r (issued w (snd (generateGeminiImage env ext prompt w))) ->
  provider_of r = Some ProviderB ->
  exists encoded seed,
    r = Fetch {| url := pollinations_prefix ++ encoded
                        ++ lit "?width=512&height=512&seed="
                        ++ decimal seed
                        ++ lit "&model=flux&nologo=true";
                 method := lit "HEAD"; authorization := None;
                 body := JUndefined |}
    /\ encodeURIComponent (sanitizeUserInput prompt) = Some encoded
    /\ forallb url_safe encoded = true
    /\ (forall c, In c encoded ->
          c <> 63%N /\ c <> 38%N /\ c <> 35%N /\ c <> 47%N)
    /\ (seed < 1000000)%N.
Proof.
  intros U I P. rewrite generateGeminiImage_run in I. cbn [snd] in I.
  rewrite issued_advance in I. unfold image_run in I.
  destruct (configured (GEMINI_API_KEY env)); cbn [negb fst In] in I;
    [| tauto].
  destruct (truthy (sanitizeUserInput prompt)); cbn [negb fst In] in I;
    [| tauto].
  apply (provider_of_B_inv _ _ _ _ I) in P. unfold stepB in P.
  destruct (encodeURIComponent (sanitizeUserInput prompt)) as [encoded |]
    eqn:E; cbn [fst In] in P; [| tauto].
  destruct P as [<- | []].
  assert (forallb url_safe encoded = true) as S.
  { eapply encode_safe; [apply Nat.le_refl | | exact E].
    apply utf16_sanitize, U. }
  exists encoded, (random_draw ext mod 1000000)%N.
  split; [reflexivity |]. split; [reflexivity |]. split; [exact S |].
  split; [| apply N.mod_lt; lia].
  intros c Hc. rewrite forallb_forall in S. specialize (S c Hc).
  repeat split; intros ->; vm_compute in S; discriminate S.
Qed.

Lemma pollinations_address_witness :
  exists encoded seed,
    Fetch (pollinations_request
             (pollinations_url (lit "a%20red%20cat") 456789))
    = Fetch {| url := pollinations_prefix ++ encoded
                      ++ lit "?width=512&height=512&seed="
                      ++ decimal seed
                      ++ lit "&model=flux&nologo=true";
               method := lit "HEAD"; authorization := None;
               body := JUndefined |}
    /\ encodeURIComponent (sanitizeUserInput (lit "a red cat")) = Some encoded
    /\ forallb url_safe encoded = true
    /\ (forall c, In c encoded ->
          c <> 63%N /\ c <> 38%N /\ c <> 35%N /\ c <> 47%N)
    /\ (seed < 1000000)%N.
Proof.
  apply (@pollinations_address free_keys all_down (lit "a red cat")
           empty_world).
  - vm_compute. repeat constructor.
  - vm_compute. right. left. reflexivity.
  - apply provider_of_pollinations.
Defined.

(* ================================================================== *)
(** ** The text adapter *)
(* ================================================================== *)

(** X4: [generateGeminiResponse] never throws.  Without the key it sends
    nothing; with it, it sends exactly one request, the prompt template
    around the message.  It reports success exactly when the key is
    configured and the model answered, and then its response is the
    model's text, unchanged, with no error attached. *)
Theorem text_adapter_success (env : Env) (ext : External)
  (userMessage : jsstring) (w : World) :
  exists r w',
    generateGeminiResponse env ext userMessage w = (inr r, w')
    /\ issued w w'
       = (if configured (GEMINI_API_KEY env)
          then [GenerateContent (text_prompt userMessage)] else [])
    /\ (configured (GEMINI_API_KEY env) = false -> w' = w)
    /\ (success r = true <->
        configured (GEMINI_API_KEY env) = true
        /\ exists t,
             generateContent_answer ext (text_prompt userMessage) = inr t)
    /\ (success r = true ->
        generateContent_answer ext (text_prompt userMessage)
        = inr (response r)
        /\ error r = None).
Proof.
  rewrite generateGeminiResponse_run. eexists. eexists.
  split; [reflexivity |]. rewrite issued_advance. unfold text_run.
  assert (forall e, success (text_failure e) = false) as F.
  { intros e. unfold text_failure.
    destruct (instanceof_Error e && _); [reflexivity |].
    destruct (instanceof_Error e && _); reflexivity. }
  destruct (configured (GEMINI_API_KEY env)); cbn [negb fst snd].
  - split; [reflexivity |]. split; [discriminate |].
    destruct (generateContent_answer ext (text_prompt userMessage))
      as [e | t].
    + rewrite F. split; [split; [discriminate |] | discriminate].
      intros [_ [t Ht]]. discriminate Ht.
    + cbn [success response error]. split; [| split; reflexivity].
      split; [| reflexivity]. intros _. split; [reflexivity |].
      exists t. reflexivity.
  - split; [reflexivity |]. split; [intros _; apply advance_nil |].
    cbn [success]. split; [split; [discriminate |] | discriminate].
    intros [H _]. discriminate H.
Qed.

Lemma fixed_texts_without_command :
  includes not_configured_text (lit "/image") = false
  /\ includes invalid_key_text (lit "/image") = false
  /\ includes difficulties_text (lit "/image") = false.
Proof. vm_compute. repeat split. Qed.

(** X5: a failure of the text adapter always comes with a ready apology
    and an error note: the response is not empty and [error] is set.  An
    [Error] whose message mentions API_KEY is reported as an invalid key
    even when it also mentions a quota; a thrown value that is not an
    [Error] is reported as "Unknown error"; and the apology suggests the
    [/image] command exactly when the report is the overload one. *)
Theorem text_adapter_failure (env : Env) (ext : External)
  (userMessage : jsstring) (w : World) (r : GeminiResponse) (w' : World) :
  generateGeminiResponse env ext userMessage w = (inr r, w') ->
  success r = false ->
  response r <> []
  /\ error r <> None
  /\ (forall e,
        configured (GEMINI_API_KEY env) = true ->
        generateContent_answer ext (text_prompt userMessage) = inl e ->
        (instanceof_Error e = true ->
         includes (error_message e) (lit "API_KEY") = true ->
         error r = Some (lit "Invalid API key"))
        /\ (instanceof_Error e = false ->
            error r = Some (lit "Unknown error")
            /\ response r = difficulties_text))
  /\ (includes (response r) (lit "/image") = true <->
      error r = Some (lit "Service temporarily overloaded")).
Proof.
  intros H S. rewrite generateGeminiResponse_run in H.
  injection H as Hr _. subst r. revert S.
  pose proof fixed_texts_without_command as [T1 [T2 T3]].
  pose proof overloaded_text_suggests_image as T4.
  pose proof (@overload_report env ext userMessage) as OR.
  unfold text_run in *.
  destruct (configured (GEMINI_API_KEY env)); cbn [negb snd] in *.
  - destruct (generateContent_answer ext (text_prompt userMessage))
      as [e | t]; [| discriminate].
    intros _.
    assert (response (text_failure e) <> []
            /\ error (text_failure e) <> None
            /\ (includes (response (text_failure e)) (lit "/image") = true
                -> error (text_failure e)
                   = Some (lit "Service temporarily overloaded"))) as [A [B C]].
    { unfold text_failure.
      destruct (instanceof_Error e && includes (error_message e) (lit "API_KEY"));
        [cbn [response error]; rewrite T2;
         repeat split; try discriminate |].
      destruct (instanceof_Error e && is_quota_message (error_message e));
        cbn [response error]; [repeat split; discriminate |].
      rewrite T3. repeat split; discriminate. }
    split; [exact A |]. split; [exact B |]. split.
    + intros e' _ E'. injection E' as <-. unfold text_failure. split.
      * intros I K. rewrite I, K. reflexivity.
      * intros I. rewrite I. cbn [andb error response].
        unfold message_or_unknown. rewrite I. split; reflexivity.
    + split; [exact C |]. intros E. rewrite (OR E). exact T4.
  - intros _. cbn [response error]. rewrite T1.
    repeat split; discriminate.
Qed.

Lemma text_adapter_failure_witness :
  response (snd (text_run all_keys out_of_quota (lit "Hello"))) <> []
  /\ (includes (response (snd (text_run all_keys out_of_quota (lit "Hello"))))
        (lit "/image") = true <->
      error (snd (text_run all_keys out_of_quota (lit "Hello")))
      = Some (lit "Service temporarily overloaded")).
Proof.
  destruct (@text_adapter_failure all_keys out_of_quota (lit "Hello")
              empty_world
              (snd (text_run all_keys out_of_quota (lit "Hello")))
              (advance (fst (text_run all_keys out_of_quota (lit "Hello")))
                 empty_world))
    as [A [_ [_ D]]].
  - apply generateGeminiResponse_run.
  - vm_compute. reflexivity.
  - split; [exact A | exact D].
Defined.

(* ================================================================== *)
(** ** The streaming generator *)
(* ================================================================== *)

Lemma generateGeminiStreamResponse_run (env : Env) (ext : External)
  (userMessage : jsstring) (w : World) :
  generateGeminiStreamResponse env ext userMessage w
  = (inr (snd (stream_run env ext userMessage)),
     advance (fst (stream_run env ext userMessage)) w).
Proof.
  unfold generateGeminiStreamResponse, stream_run.
  destruct (configured (GEMINI_API_KEY env)); cbn [negb];
    [| cbn; rewrite advance_nil; reflexivity].
  async. cbv zeta. rewrite send_run. cbn [fst snd].
  destruct (generateContentStream_answer ext (text_prompt userMessage))
    as [e | result]; reflexivity.
Qed.

Lemma stream_failure_shape (e : thrown) :
  done (stream_failure e) = true
  /\ chunk_success (stream_failure e) = false
  /\ chunk (stream_failure e) <> []
  /\ chunk_error (stream_failure e) <> None.
Proof.
  unfold stream_failure.
  destruct (instanceof_Error e && includes (error_message e) (lit "API_KEY"));
    [repeat split; discriminate |].
  destruct (instanceof_Error e && is_quota_message (error_message e));
    repeat split; discriminate.
Qed.

Lemma readable_shape (cs : list (thrown + jsstring)) :
  Forall (fun c => done c = false /\ chunk_success c = true
                   /\ chunk_error c = None)
    (flat_map readable cs).
Proof.
  induction cs as [| [e | t] cs IH]; cbn [flat_map readable app];
    [constructor | exact IH |].
  constructor; [repeat split | exact IH].
Qed.

(** The items of the generator: chunks that are not done, then one item
    that is. *)
Lemma stream_run_shape (env : Env) (ext : External) (userMessage : jsstring) :
  exists chunks final,
    snd (stream_run env ext userMessage) = chunks ++ [final]
    /\ Forall (fun c => done c = false /\ chunk_success c = true
                        /\ chunk_error c = None) chunks
    /\ done final = true
    /\ (chunk_success final = true ->
        chunk final = []
        /\ exists result,
             generateContentStream_answer ext (text_prompt userMessage)
             = inr result
             /\ stream_end result = None
             /\ chunks = flat_map readable (stream_chunks result))
    /\ (chunk_success final = false ->
        chunk final <> [] /\ chunk_error final <> None).
Proof.
  unfold stream_run.
  destruct (configured (GEMINI_API_KEY env)); cbn [negb snd].
  - destruct (generateContentStream_answer ext (text_prompt userMessage))
      as [e | result].
    + exists [], (stream_failure e).
      destruct (stream_failure_shape e) as [D [S [C E]]].
      split; [reflexivity |]. split; [constructor |]. split; [exact D |].
      rewrite S. split; [discriminate | tauto].
    + eexists. eexists. split; [reflexivity |].
      split; [apply readable_shape |].
      destruct (stream_end result) as [e |] eqn:End.
      * destruct (stream_failure_shape e) as [D [S [C E]]].
        split; [exact D |]. rewrite S. split; [discriminate | tauto].
      * cbn [done chunk_success chunk chunk_error].
        split; [reflexivity |]. split; [| discriminate].
        intros _. split; [reflexivity |].
        exists result. repeat split. exact End.
  - exists []. eexists. split; [reflexivity |]. split; [constructor |].
    cbn [done chunk_success chunk chunk_error].
    split; [reflexivity |]. split; [discriminate |].
    intros _. split; discriminate.
Qed.

(** X6: [generateGeminiStreamResponse] never throws and yields at least
    one item: items that are not done, each a successful chunk, followed
    by exactly one item that is done.  A successful last item is empty and
    closes a stream whose readable chunks are exactly the items before it;
    a failed last item carries a non-empty apology and an error note. *)
Theorem stream_generator_shape (env : Env) (ext : External)
  (userMessage : jsstring) (w : World) :
  exists chunks final w',
    generateGeminiStreamResponse env ext userMessage w
    = (inr (chunks ++ [final]), w')
    /\ Forall (fun c => done c = false /\ chunk_success c = true
                        /\ chunk_error c = None) chunks
    /\ done final = true
    /\ (chunk_success final = true ->
        chunk final = []
        /\ exists result,
             generateContentStream_answer ext (text_prompt userMessage)
             = inr result
             /\ stream_end result = None
             /\ chunks = flat_map readable (stream_chunks result))
    /\ (chunk_success final = false ->
        chunk final <> [] /\ chunk_error final <> None).
Proof.
  destruct (stream_run_shape env ext userMessage)
    as [chunks [final [E H]]].
  exists chunks, final. eexists.
  rewrite generateGeminiStreamResponse_run, E. split; [reflexivity | exact H].
Qed.

(* ================================================================== *)
(** ** sendMessageStream *)
(* ================================================================== *)

Lemma yield_run (ev : StreamEvent) (w : World) :
  yield ev w = (inr tt, yielded [ev] w).
Proof. reflexivity. Qed.

Lemma yielded_nil (w : World) : yielded [] w = w.
Proof. destruct w. unfold yielded. cbn. rewrite app_nil_r. reflexivity. Qed.

Lemma yielded_app (e1 e2 : list StreamEvent) (w : World) :
  yielded e2 (yielded e1 w) = yielded (e1 ++ e2) w.
Proof. unfold yielded. cbn. rewrite <- app_assoc. reflexivity. Qed.

(** The loop over items that are not done. *)
Lemma consume_chunks (userId : jsstring) (cs rest : list GeminiStreamResponse) :
  Forall (fun c => done c = false) cs ->
  forall full w,
    consume userId (cs ++ rest) full w
    = consume userId rest (full ++ accumulated cs)
        (yielded (chunk_events cs full) w).
Proof.
  induction 1 as [| c cs D _ IH]; intros full w.
  - cbn [app accumulated flat_map chunk_events].
    rewrite app_nil_r, yielded_nil. reflexivity.
  - cbn [app consume]. rewrite D. cbn [negb]. cbv zeta.
    unfold bind at 1. rewrite yield_run. rewrite IH.
    rewrite yielded_app. unfold accumulated. cbn [flat_map chunk_events app].
    rewrite <- app_assoc. reflexivity.
Qed.

(** The loop on the item that is done. *)
Lemma consume_last (userId : jsstring) (final : GeminiStreamResponse)
  (full : jsstring) (w : World) :
  done final = true ->
  consume userId [final] full w
  = if chunk_success final then
      match next_fault w with
      | None =>
          (inr tt,
           yielded [complete_event (stored (model_text userId full) w) full]
             (inserted (model_text userId full) w))
      | Some e => (inl e, answered (DbInsert (model_text userId full)) w)
      end
    else
      let errorMessage := or_else (chunk final) apology_text in
      match next_fault w with
      | None =>
          (inr tt,
           yielded
             [error_event (Some (stored (model_text userId errorMessage) w))
                (opt_or_else (chunk_error final) (lit "Unknown error"))]
             (inserted (model_text userId errorMessage) w))
      | Some e =>
          (inr tt,
           yielded [error_event None (lit "Failed to save error message")]
             (answered (DbInsert (model_text userId errorMessage)) w))
      end.
Proof.
  intros D. cbn [consume]. rewrite D. cbn [negb].
  destruct (chunk_success final); async; next; rewrite addMessage_run;
    destruct (next_fault w); reflexivity.
Qed.

(** The [catch] of [sendMessageStream]. *)
Lemma stream_recover (userId : jsstring) (error : thrown) (w : World) :
  try_catch
    (aiMessage <- addMessage (model_text userId apology_text) ;;
     yield (error_event (Some aiMessage) (message_or_unknown error)))
    (fun dbError =>
       yield (error_event None (lit "Failed to save error message"))) w
  = match next_fault w with
    | None =>
        (inr tt,
         yielded
           [error_event (Some (stored (model_text userId apology_text) w))
              (message_or_unknown error)]
           (inserted (model_text userId apology_text) w))
    | Some e =>
        (inr tt,
         yielded [error_event None (lit "Failed to save error message")]
           (answered (DbInsert (model_text userId apology_text)) w))
    end.
Proof.
  async. next. rewrite addMessage_run. destruct (next_fault w); reflexivity.
Qed.

(** [sendMessageStream] on an accepted message, up to the last item. *)
Lemma sendMessageStream_run (env : Env) (ext : External) (ctx : Context)
  (message userId : jsstring) (w : World)
  (chunks : list GeminiStreamResponse) (final : GeminiStreamResponse) :
  1 <= List.length message -> List.length message <= 2000 ->
  let text := sanitizeUserInput message in
  snd (stream_run env ext text) = chunks ++ [final] ->
  Forall (fun c => done c = false) chunks ->
  sendMessageStream env ext ctx (message_input message userId) w
  = match next_fault w with
    | Some e =>
        try_catch
          (aiMessage <- addMessage (model_text userId apology_text) ;;
           yield (error_event (Some aiMessage) (message_or_unknown e)))
          (fun dbError =>
             yield (error_event None (lit "Failed to save error message")))
          (answered (DbInsert (user_text userId text)) w)
    | None =>
        try_catch
          (consume userId [final] (accumulated chunks))
          (fun error =>
             try_catch
               (aiMessage <- addMessage (model_text userId apology_text) ;;
                yield (error_event (Some aiMessage)
                         (message_or_unknown error)))
               (fun dbError =>
                  yield (error_event None
                           (lit "Failed to save error message"))))
          (yielded
             (userMessageSaved (stored (user_text userId text) w)
              :: chunk_events chunks [])
             (advance (fst (stream_run env ext text))
                (inserted (user_text userId text) w)))
    end.
Proof.
  intros L U text E D.
  unfold sendMessageStream. rewrite procedure_public, sendMessageInput_valid
    by assumption.
  unfold sendMessageStream_resolver. cbn [sm_userId sm_message]. fold text.
  cbv zeta. unfold try_catch at 1. unfold bind at 1.
  rewrite addMessage_run. destruct (next_fault w) as [e |]; [reflexivity |].
  unfold bind at 1. rewrite yield_run. unfold bind at 1.
  rewrite generateGeminiStreamResponse_run, E.
  rewrite (consume_chunks userId [final] D). cbn [app].
  replace (yielded (chunk_events chunks [])
             (advance (fst (stream_run env ext text))
                (yielded [userMessageSaved (stored (user_text userId text) w)]
                   (inserted (user_text userId text) w))))
    with (yielded
            (userMessageSaved (stored (user_text userId text) w)
             :: chunk_events chunks [])
            (advance (fst (stream_run env ext text))
               (inserted (user_text userId text) w)));
    [reflexivity |].
  unfold yielded, advance, inserted.
  cbn [table next_id now faults log outbox]. rewrite <- !app_assoc.
  reflexivity.
Qed.

Lemma chunk_events_open (cs : list GeminiStreamResponse) (full : jsstring) :
  forallb (fun ev => negb (is_terminal ev)) (chunk_events cs full) = true.
Proof.
  revert full. induction cs as [| c cs IH]; intros full;
    cbn [chunk_events forallb is_terminal negb andb]; auto.
Qed.

Ltac next_store_answer :=
  match goal with
  | |- context [next_fault ?x] => destruct (next_fault x)
  end.

(** X7: on an accepted message [sendMessageStream] never throws, whatever
    the store and the model do, and what it yields always ends with
    exactly one terminal event, [complete] or [error]; every event before
    it is the saved user message or a chunk. *)
Theorem sendMessageStream_always_ends (env : Env) (ext : External)
  (ctx : Context) (message userId : jsstring) (w : World) :
  1 <= List.length message -> List.length message <= 2000 ->
  exists evs t w',
    sendMessageStream env ext ctx (message_input message userId) w
    = (inr tt, w')
    /\ outbox w' = outbox w ++ evs ++ [t]
    /\ is_terminal t = true
    /\ forallb (fun ev => negb (is_terminal ev)) evs = true.
Proof.
  intros L U.
  destruct (stream_run_shape env ext (sanitizeUserInput message))
    as [chunks [final [E [Fc [D _]]]]].
  assert (Forall (fun c => done c = false) chunks) as Dc
      by (eapply Forall_impl; [| exact Fc]; cbv beta; tauto).
  rewrite (@sendMessageStream_run env ext ctx message userId w chunks final
             L U E Dc).
  destruct (next_fault w) as [e |].
  - rewrite stream_recover. next_store_answer;
      (exists []; eexists; eexists; split; [reflexivity |];
       split; [reflexivity | split; reflexivity]).
  - unfold try_catch at 1. rewrite (@consume_last userId final _ _ D).
    assert (forall t w0,
              outbox w0 = outbox w
                          ++ userMessageSaved
                               (stored (user_text userId
                                          (sanitizeUserInput message)) w)
                             :: chunk_events chunks [] ->
              outbox (yielded [t] w0)
              = outbox w
                ++ (userMessageSaved
                      (stored (user_text userId
                                 (sanitizeUserInput message)) w)
                    :: chunk_events chunks []) ++ [t]) as O.
    { intros t w0 H. cbn [yielded outbox]. rewrite H, <- app_assoc.
      reflexivity. }
    destruct (chunk_success final); cbv zeta.
    + next_store_answer.
      * rewrite stream_recover. next_store_answer;
          (eexists; eexists; eexists; split; [reflexivity |];
           split; [apply O; reflexivity |];
           split; [reflexivity |];
           cbn [forallb is_terminal negb andb]; apply chunk_events_open).
      * eexists. eexists. eexists. split; [reflexivity |].
        split; [apply O; reflexivity |]. split; [reflexivity |].
        cbn [forallb is_terminal negb andb]. apply chunk_events_open.
    + next_store_answer;
        (eexists; eexists; eexists; split; [reflexivity |];
         split; [apply O; reflexivity |];
         split; [reflexivity |];
         cbn [forallb is_terminal negb andb]; apply chunk_events_open).
Qed.

Lemma sendMessageStream_always_ends_witness :
  exists evs t w',
    sendMessageStream all_keys streaming anonymous
      (message_input (lit "Hello") (lit "u1")) failing_store
    = (inr tt, w')
    /\ outbox w' = outbox failing_store ++ evs ++ [t]
    /\ is_terminal t = true
    /\ forallb (fun ev => negb (is_terminal ev)) evs = true.
Proof.
  apply (@sendMessageStream_always_ends all_keys streaming anonymous
           (lit "Hello") (lit "u1") failing_store); vm_compute; lia.
Defined.

(** X8: on an accepted message, with a store that takes both inserts,
    [sendMessageStream] adds exactly two rows, the sanitized message and a
    model text row, and yields the saved user row, one chunk event per
    readable chunk with the text accumulated so far, and one terminal
    event.  When the stream closes normally the model row holds the
    concatenation of the chunks and the event is [complete]; otherwise the
    row holds the failure's apology, never the partial text, and the event
    is [error]. *)
Theorem sendMessageStream_stores_turn (env : Env) (ext : External)
  (ctx : Context) (message userId : jsstring) (w : World) :
  1 <= List.length message -> List.length message <= 2000 ->
  store_accepts 2 w ->
  let text := sanitizeUserInput message in
  let u := stored (user_text userId text) w in
  exists chunks final a t w',
    snd (stream_run env ext text) = chunks ++ [final]
    /\ sendMessageStream env ext ctx (message_input message userId) w
       = (inr tt, w')
    /\ table w' = table w ++ [u; a]
    /\ outbox w'
       = outbox w ++ userMessageSaved u :: chunk_events chunks [] ++ [t]
    /\ (user_id a, role a, content_type a) = (userId, model_role, text_type)
    /\ (chunk_success final = true ->
        content a = accumulated chunks
        /\ t = complete_event a (accumulated chunks))
    /\ (chunk_success final = false ->
        content a = or_else (chunk final) apology_text
        /\ content a <> []
        /\ t = error_event (Some a)
                 (opt_or_else (chunk_error final) (lit "Unknown error"))).
Proof.
  intros L U SA text u.
  destruct (stream_run_shape env ext text)
    as [chunks [final [E [Fc [D [_ Hf]]]]]].
  assert (Forall (fun c => done c = false) chunks) as Dc
      by (eapply Forall_impl; [| exact Fc]; cbv beta; tauto).
  pose proof (store_accepts_next SA) as F1.
  set (w2 := yielded (userMessageSaved u :: chunk_events chunks [])
               (advance (fst (stream_run env ext text))
                  (inserted (user_text userId text) w))).
  assert (next_fault w2 = None) as F2.
  { apply (@store_accepts_next 0). eapply store_accepts_tail; [exact SA |].
    reflexivity. }
  assert (sendMessageStream env ext ctx (message_input message userId) w
          = try_catch
              (consume userId [final] (accumulated chunks))
              (fun error =>
                 try_catch
                   (aiMessage <- addMessage (model_text userId apology_text) ;;
                    yield (error_event (Some aiMessage)
                             (message_or_unknown error)))
                   (fun dbError =>
                      yield (error_event None
                               (lit "Failed to save error message"))))
              w2) as R.
  { rewrite (@sendMessageStream_run env ext ctx message userId w chunks final
               L U E Dc).
    rewrite F1. reflexivity. }
  rewrite R. unfold try_catch at 1. rewrite (@consume_last userId final _ _ D), F2.
  exists chunks, final.
  destruct (chunk_success final) eqn:S; cbv zeta.
  - eexists. eexists. eexists. split; [exact E |].
    split; [reflexivity |].
    split; [cbn [yielded inserted table w2 advance];
            rewrite <- app_assoc; reflexivity |].
    split; [cbn [yielded inserted outbox w2 advance];
            rewrite <- app_assoc; reflexivity |].
    split; [reflexivity |]. split; [split; reflexivity | discriminate].
  - eexists. eexists. eexists. split; [exact E |].
    split; [reflexivity |].
    split; [cbn [yielded inserted table w2 advance];
            rewrite <- app_assoc; reflexivity |].
    split; [cbn [yielded inserted outbox w2 advance];
            rewrite <- app_assoc; reflexivity |].
    split; [reflexivity |]. split; [discriminate |].
    intros _. split; [reflexivity |]. split; [| reflexivity].
    cbn [stored content model_text new_content].
    destruct (Hf eq_refl) as [NE _]. unfold or_else.
    destruct (chunk final); [congruence | discriminate].
Qed.

Lemma sendMessageStream_stores_turn_witness :
  map (fun m => (role m, content m))
    (table (snd (sendMessageStream all_keys streaming anonymous
                   (message_input (lit "Hello") (lit "u1")) empty_world)))
  = [ (user_role, lit "Hello"); (model_role, lit "Hi there") ]
  /\ List.length
       (outbox (snd (sendMessageStream all_keys streaming anonymous
                       (message_input (lit "Hello") (lit "u1")) empty_world)))
     = 4.
Proof.
  destruct (@sendMessageStream_stores_turn all_keys streaming anonymous
              (lit "Hello") (lit "u1") empty_world)
    as [chunks [final [a [t [w' [E [R _]]]]]]].
  - vm_compute; lia.
  - vm_compute; lia.
  - constructor.
  - clear E R. vm_compute. split; reflexivity.
Defined.

(* ================================================================== *)
(** ** sendMessage when the store fails *)
(* ================================================================== *)

Lemma next_fault_fault (w : World) : next_fault w = fault 0 w.
Proof. unfold next_fault, fault. destruct (faults w); reflexivity. Qed.

Lemma fault_tail (k : nat) (w w' : World) :
  faults w' = tl (faults w) -> fault k w' = fault (S k) w.
Proof.
  unfold fault. intros ->. destruct (faults w); [destruct k |]; reflexivity.
Qed.

Lemma fault_same (k : nat) (w w' : World) :
  faults w' = faults w -> fault k w' = fault k w.
Proof. unfold fault. intros ->. reflexivity. Qed.

Lemma store_accepts_two (w : World) :
  store_accepts 2 w <-> fault 0 w = None /\ fault 1 w = None.
Proof.
  unfold store_accepts, fault.
  destruct (faults w) as [| f0 [| f1 l]]; cbn [firstn nth].
  - split; [tauto | constructor].
  - split.
    + intros H. inversion H. tauto.
    + intros [-> _]. repeat constructor.
  - split.
    + intros H. inversion H as [| ? ? H0 H1]. inversion H1. tauto.
    + intros [-> ->]. repeat constructor.
Qed.

(** The [catch] of [sendMessage]: one attempt to store the apology, then
    the fixed error. *)
Lemma sendMessage_recover (userId : jsstring) (w : World) :
  (try_catch
     (addMessage (model_text userId apology_text) ;;; ret tt)
     (fun dbError => ret tt) ;;;
   throw (A := SendMessageOutput)
     (TRPCError INTERNAL_SERVER_ERROR
        (lit "Failed to process your message"))) w
  = (inl (TRPCError INTERNAL_SERVER_ERROR
            (lit "Failed to process your message")),
     match next_fault w with
     | None => inserted (model_text userId apology_text) w
     | Some _ => answered (DbInsert (model_text userId apology_text)) w
     end).
Proof.
  async. next. rewrite addMessage_run. destruct (next_fault w); reflexivity.
Qed.

(** X9: what [sendMessage] does to the table under every behaviour of
    the store, on an accepted message.  It returns normally exactly when
    the store takes both inserts; otherwise it throws the fixed internal
    error, after one attempt to store an apology: if the user's insert
    was refused the table gains at most that apology, and the text model
    is not asked; if the model's insert was refused the table gains the
    user's row and at most the apology. *)
Theorem sendMessage_outcomes (env : Env) (ext : External) (ctx : Context)
  (message userId : jsstring) (w : World) :
  1 <= List.length message -> List.length message <= 2000 ->
  let text := sanitizeUserInput message in
  let run := sendMessage env ext ctx (message_input message userId) w in
  let apology := model_text userId apology_text in
  (returned (fst run) = true <-> store_accepts 2 w)
  /\ (returned (fst run) = false ->
      fst run = inl (TRPCError INTERNAL_SERVER_ERROR
                       (lit "Failed to process your message")))
  /\ (fault 0 w <> None ->
      issued w (snd run) = [DbInsert (user_text userId text); DbInsert apology]
      /\ exists rows,
           table (snd run) = table w ++ rows
           /\ map message_of rows
              = match fault 1 w with None => [apology] | Some _ => [] end)
  /\ (fault 0 w = None -> fault 1 w <> None ->
      exists rows,
        table (snd run) = table w ++ rows
        /\ map message_of rows
           = user_text userId text
             :: match fault 2 w with None => [apology] | Some _ => [] end).
Proof.
  intros L U text run apology.
  assert (run
          = match next_fault w with
            | Some e =>
                (inl (TRPCError INTERNAL_SERVER_ERROR
                        (lit "Failed to process your message")),
                 match next_fault
                         (answered (DbInsert (user_text userId text)) w) with
                 | None =>
                     inserted apology
                       (answered (DbInsert (user_text userId text)) w)
                 | Some _ =>
                     answered (DbInsert apology)
                       (answered (DbInsert (user_text userId text)) w)
                 end)
            | None =>
                let r := snd (text_run env ext text) in
                let w2 := advance (fst (text_run env ext text))
                            (inserted (user_text userId text) w) in
                match next_fault w2 with
                | None =>
                    (inr {| send_success := true;
                            userMessage := stored (user_text userId text) w;
                            aiMessage :=
                              stored (model_text userId (response r)) w2;
                            aiResponse := response r;
                            geminiSuccess := success r;
                            geminiError := error r |},
                     inserted (model_text userId (response r)) w2)
                | Some e =>
                    let w3 := answered
                                (DbInsert (model_text userId (response r)))
                                w2 in
                    (inl (TRPCError INTERNAL_SERVER_ERROR
                            (lit "Failed to process your message")),
                     match next_fault w3 with
                     | None => inserted apology w3
                     | Some _ => answered (DbInsert apology) w3
                     end)
                end
            end) as R.
  { subst run. unfold sendMessage.
    rewrite procedure_public, sendMessageInput_valid by assumption.
    unfold sendMessage_resolver. cbn [sm_userId sm_message]. fold text.
    cbv zeta. unfold try_catch at 1. unfold bind at 1.
    rewrite addMessage_run. destruct (next_fault w) as [e |].
    - rewrite sendMessage_recover. reflexivity.
    - unfold bind at 1. rewrite generateGeminiResponse_run.
      unfold bind at 1. rewrite addMessage_run.
      destruct (next_fault _) as [e |]; [| reflexivity].
      rewrite sendMessage_recover. reflexivity. }
  rewrite R. clear R run. cbv zeta.
  set (w1 := answered (DbInsert (user_text userId text)) w).
  set (w2 := advance (fst (text_run env ext text))
               (inserted (user_text userId text) w)).
  set (w3 := answered
               (DbInsert
                  (model_text userId (response (snd (text_run env ext text)))))
               w2).
  assert (next_fault w1 = fault 1 w) as H1
      by (rewrite next_fault_fault; apply fault_tail; reflexivity).
  assert (next_fault w2 = fault 1 w) as H2
      by (rewrite next_fault_fault; apply fault_tail; reflexivity).
  assert (next_fault w3 = fault 2 w) as H3.
  { rewrite next_fault_fault.
    rewrite (@fault_tail 0 w2 w3 eq_refl). apply fault_tail. reflexivity. }
  rewrite H1, H2, H3, store_accepts_two, next_fault_fault.
  destruct (fault 0 w) as [e0 |].
  - split; [cbn [fst returned]; split;
            [discriminate | intros [H _]; discriminate H] |].
    split; [reflexivity |]. split; [| congruence].
    intros _. destruct (fault 1 w); cbn [snd].
    + split; [unfold issued, w1; cbn [answered log];
              rewrite <- !app_assoc, skipn_app, skipn_all, Nat.sub_diag;
              reflexivity |].
      exists []. rewrite app_nil_r. split; reflexivity.
    + split; [unfold issued, w1; cbn [inserted answered log];
              rewrite <- !app_assoc, skipn_app, skipn_all, Nat.sub_diag;
              reflexivity |].
      eexists. split; reflexivity.
  - destruct (fault 1 w) as [e1 |].
    + split; [cbn [fst returned]; split;
              [discriminate | intros [_ H]; discriminate H] |].
      split; [reflexivity |]. split; [congruence |].
      intros _ _. destruct (fault 2 w); cbn [snd].
      * eexists. split; reflexivity.
      * eexists. split;
          [unfold w3, w2; cbn [inserted answered advance table];
           rewrite <- app_assoc; reflexivity | reflexivity].
    + split; [cbn [fst returned]; tauto |].
      split; [discriminate |]. split; congruence.
Qed.

Lemma sendMessage_outcomes_witness :
  fst (sendMessage all_keys greeter anonymous
         (message_input (lit "Hello") (lit "u1")) refuse_second)
  = inl (TRPCError INTERNAL_SERVER_ERROR
           (lit "Failed to process your message"))
  /\ exists rows,
       table (snd (sendMessage all_keys greeter anonymous
                     (message_input (lit "Hello") (lit "u1")) refuse_second))
       = table refuse_second ++ rows
       /\ map message_of rows
          = [ user_text (lit "u1") (lit "Hello");
              model_text (lit "u1") apology_text ].
Proof.
  destruct (@sendMessage_outcomes all_keys greeter anonymous
              (lit "Hello") (lit "u1") refuse_second)
    as [_ [E [_ T]]].
  - vm_compute; lia.
  - vm_compute; lia.
  - split; [apply E; vm_compute; reflexivity |].
    apply T; [reflexivity | discriminate].
Defined.

(* ================================================================== *)
(** ** generateImage when the adapter succeeds *)
(* ================================================================== *)

Ltac nonempty :=
  let H := fresh "H" in
  intros H; try (apply app_eq_nil in H; destruct H as [H _]);
  vm_compute in H; discriminate H.

Lemma chain_url_nonempty (env : Env) (ext : External) (p : jsstring) :
  imageUrl (snd (chain env ext p)) <> [].
Proof.
  unfold chain.
  destruct (stepA env ext p) as [ra [r |]] eqn:EA; cbn [snd].
  { unfold stepA in EA. destruct (configured _); [| discriminate].
    injection EA as _ EA. unfold huggingface_outcome in EA.
    destruct (fetch_answer ext _) as [e | resp]; [discriminate |].
    destruct (ok resp); [| discriminate].
    destruct (blob resp); [discriminate |]. injection EA as <-.
    cbn [imageUrl]. nonempty. }
  destruct (stepB ext p) as [rb [r |]] eqn:EB; cbn [snd].
  { unfold stepB in EB. destruct (encodeURIComponent p); [| discriminate].
    injection EB as _ EB. unfold pollinations_outcome in EB.
    destruct (fetch_answer ext _) as [e | resp]; [discriminate |].
    destruct (ok resp && _); [| discriminate]. injection EB as <-.
    cbn [imageUrl]. unfold pollinations_url. nonempty. }
  destruct (stepC env ext p) as [rc [r |]] eqn:EC; cbn [snd].
  { unfold stepC in EC. destruct (configured _); [| discriminate].
    injection EC as _ EC. unfold openai_outcome in EC.
    destruct (fetch_answer ext _) as [e | resp]; [discriminate |].
    destruct (ok resp); [| discriminate].
    destruct (json_body resp) as [e | result]; [discriminate |].
    unfold first_url in EC.
    destruct (data result) as [[| first l] |]; try discriminate.
    destruct (datum_url first) as [u |]; [| discriminate].
    destruct u; cbn [truthy] in EC; [discriminate |].
    injection EC as <-. discriminate. }
  cbn [placeholder_response imageUrl]. nonempty.
Qed.

(** X10: when the image adapter, called by [generateImage] on an
    accepted input, reports success and the store takes both inserts, the
    call returns the adapter's URL and the sanitized prompt, and the table
    gains exactly two rows: the prompt as a user text row, then the URL as
    a model image row.  The stored URL is never empty; with no provider's
    answer accepted it is the placeholder's, stored like any image. *)
Theorem generateImage_stores_image (env : Env) (ext : External)
  (ctx : Context) (prompt userId : jsstring) (w w2 : World)
  (r : GeminiImageResponse) :
  1 <= List.length prompt -> List.length prompt <= 1000 ->
  1 <= List.length userId ->
  store_accepts 2 w ->
  let p := sanitizeUserInput prompt in
  let u := stored (user_text userId p) w in
  generateGeminiImage env ext p (inserted (user_text userId p) w)
  = (inr r, w2) ->
  image_success r = true ->
  let a := stored (model_image userId (imageUrl r)) w2 in
  let w' := inserted (model_image userId (imageUrl r)) w2 in
  generateImage env ext ctx (prompt_input prompt userId) w
  = (inr {| generate_success := true; generated_imageUrl := imageUrl r;
            generated_userMessage := u; generated_aiMessage := a;
            generated_prompt := p |}, w')
  /\ table w' = table w ++ [u; a]
  /\ (user_id a, role a, content_type a, content a)
     = (userId, model_role, image_type, imageUrl r)
  /\ content a <> []
  /\ (succeeded ext (issued w w') ProviderA = false ->
      succeeded ext (issued w w') ProviderB = false ->
      succeeded ext (issued w w') ProviderC = false ->
      content a = imageUrl placeholder_response).
Proof.
  intros L U V SA p u H S a w'.
  pose proof H as Hrun.
  rewrite generateGeminiImage_run in H. injection H as Hr Hw2.
  pose proof (store_accepts_next SA) as F1.
  assert (next_fault w2 = None) as F2.
  { apply (@store_accepts_next 0). eapply store_accepts_tail; [exact SA |].
    rewrite <- Hw2. reflexivity. }
  split; [| split; [| split; [reflexivity | split]]].
  - unfold generateImage.
    rewrite procedure_public, generateImageInput_valid by assumption.
    unfold generateImage_resolver. cbn [gi_prompt gi_userId]. cbv zeta.
    fold p. async. next. rewrite addMessage_run, F1. next.
    rewrite Hrun. next. rewrite S. cbn [negb]. next.
    rewrite addMessage_run, F2. reflexivity.
  - subst w' u a. rewrite <- Hw2. cbn [inserted advance table].
    rewrite <- app_assoc. reflexivity.
  - cbn [a stored content model_image new_content]. rewrite <- Hr.
    rewrite <- Hr in S. revert S. unfold image_run.
    destruct (configured (GEMINI_API_KEY env)); cbn [negb];
      [| discriminate].
    destruct (truthy (sanitizeUserInput p)); cbn [negb]; [| discriminate].
    intros _. apply chain_url_nonempty.
  - cbn [a stored content model_image new_content].
    assert (issued w w'
            = DbInsert (user_text userId p)
              :: fst (image_run env ext p)
              ++ [DbInsert (model_image userId (imageUrl r))]) as I.
    { subst w'. rewrite <- Hw2. unfold issued.
      cbn [inserted advance log].
      rewrite <- !app_assoc, skipn_app, skipn_all, Nat.sub_diag.
      reflexivity. }
    rewrite I. clear I. rewrite <- Hr. rewrite <- Hr in S. revert S.
    unfold image_run.
    destruct (configured (GEMINI_API_KEY env)); cbn [negb];
      [| discriminate].
    destruct (truthy (sanitizeUserInput p)); cbn [negb]; [| discriminate].
    intros _. unfold succeeded.
    change (DbInsert (user_text userId p)
            :: fst (chain env ext (sanitizeUserInput p))
            ++ [DbInsert (model_image userId
                            (imageUrl (snd (chain env ext
                                              (sanitizeUserInput p)))))])
      with ([DbInsert (user_text userId p)]
            ++ fst (chain env ext (sanitizeUserInput p))
            ++ [DbInsert (model_image userId
                            (imageUrl (snd (chain env ext
                                              (sanitizeUserInput p)))))]).
    rewrite !attempts_app.
    change (attempts ext [DbInsert (user_text userId p)]) with
      (@nil (provider * bool)).
    change (attempts ext
              [DbInsert (model_image userId
                           (imageUrl (snd (chain env ext
                                             (sanitizeUserInput p)))))])
      with (@nil (provider * bool)).
    rewrite app_nil_r. cbn [app].
    unfold chain, stepA, stepB, stepC.
    split_chain; cbn [fst snd]; count_attempts;
      intuition (try discriminate; try reflexivity).
Qed.

Lemma generateImage_stores_image_witness :
  map (fun m => (role m, content_type m, content m))
    (table (snd (generateImage free_keys all_down anonymous
                   (prompt_input (lit "a red cat") (lit "u1")) empty_world)))
  = [ (user_role, text_type, lit "a red cat");
      (model_role, image_type, imageUrl placeholder_response) ].
Proof.
  destruct (@generateImage_stores_image free_keys all_down anonymous
              (lit "a red cat") (lit "u1") empty_world
              (snd (generateGeminiImage free_keys all_down
                      (sanitizeUserInput (lit "a red cat"))
                      (inserted (user_text (lit "u1")
                                   (sanitizeUserInput (lit "a red cat")))
                         empty_world)))
              placeholder_response)
    as [E [T _]].
  - vm_compute; lia.
  - vm_compute; lia.
  - vm_compute; lia.
  - constructor.
  - vm_compute. reflexivity.
  - reflexivity.
  - rewrite E. cbn [snd]. rewrite T. vm_compute. reflexivity.
Defined.

(* ================================================================== *)
(** ** What the operations throw *)
(* ================================================================== *)

Lemma plain_next (w : World) (e : thrown) :
  store_errors_plain w -> next_fault w = Some e ->
  instanceof_TRPCError e = false.
Proof.
  unfold store_errors_plain, next_fault. intros P H.
  destruct (faults w) as [| f l]; [discriminate |]. subst f.
  inversion P. assumption.
Qed.

Lemma plain_tail (w w' : World) :
  store_errors_plain w -> faults w' = tl (faults w) -> store_errors_plain w'.
Proof.
  unfold store_errors_plain. intros P ->.
  destruct (faults w); [constructor |]. inversion P. assumption.
Qed.

Lemma generateImage_throws (env : Env) (ext : External) (ctx : Context)
  (input : GenerateImageInput) (w : World) (e : thrown) :
  store_errors_plain w ->
  fst (generateImage_resolver env ext ctx input w) = inl e ->
  exists m, e = TRPCError INTERNAL_SERVER_ERROR m.
Proof.
  intros P. unfold generateImage_resolver. cbv zeta.
  async. next. rewrite addMessage_run.
  destruct (next_fault w) as [e0 |] eqn:F0; next.
  - rewrite (plain_next P F0). cbn [fst]. intros H. injection H as <-.
    eexists. reflexivity.
  - rewrite generateGeminiImage_run. next.
    destruct (image_success _); cbn [negb]; next.
    + rewrite addMessage_run.
      match goal with
      | |- context [next_fault ?x] =>
          destruct (next_fault x) as [e1 |] eqn:F1;
          [assert (store_errors_plain x) as P1
              by (eapply plain_tail; [exact P | reflexivity]) |]
      end; next.
      * rewrite (plain_next P1 F1). cbn [fst]. intros H. injection H as <-.
        eexists. reflexivity.
      * cbn [fst]. discriminate.
    + cbn [instanceof_TRPCError fst]. intros H. injection H as <-.
      eexists. reflexivity.
Qed.

(** X11: no error of the store or of a provider reaches the caller as it
    is.  Whatever the input, the store and the outside do, an operation
    of the router that throws, throws a [TRPCError]: BAD_REQUEST, when
    the schema rejects the input, or INTERNAL_SERVER_ERROR;
    [sendMessageStream] throws for a rejected input only. *)
Theorem operations_throw_rpc_errors (env : Env) (ext : External)
  (ctx : Context) (raw : json) (w : World) (e : thrown) :
  store_errors_plain w ->
  (fst (getChatHistory ext ctx raw w) = inl e -> is_rpc_error e = true)
  /\ (fst (sendMessage env ext ctx raw w) = inl e -> is_rpc_error e = true)
  /\ (fst (sendMessageStream env ext ctx raw w) = inl e ->
      exists m, e = TRPCError BAD_REQUEST m)
  /\ (fst (clearHistory ext ctx raw w) = inl e -> is_rpc_error e = true)
  /\ (fst (generateImage env ext ctx raw w) = inl e -> is_rpc_error e = true).
Proof.
  intros P.
  unfold getChatHistory, sendMessage, sendMessageStream, clearHistory,
    generateImage.
  rewrite !procedure_public. repeat split.
  - destruct (userIdInput raw) as [issues | input]; cbn [throw fst].
    + intros H. injection H as <-. reflexivity.
    + unfold getChatHistory_resolver. async. next.
      rewrite getMessagesForUser_run.
      destruct (next_fault w); cbn [fst]; [| discriminate].
      intros H. injection H as <-. reflexivity.
  - destruct (sendMessageInput raw) as [issues | input]; cbn [throw fst].
    + intros H. injection H as <-. reflexivity.
    + unfold sendMessage_resolver. cbv zeta.
      unfold try_catch at 1. unfold bind at 1. rewrite addMessage_run.
      destruct (next_fault w).
      * rewrite sendMessage_recover. cbn [fst]. intros H.
        injection H as <-. reflexivity.
      * unfold bind at 1. rewrite generateGeminiResponse_run.
        unfold bind at 1. rewrite addMessage_run.
        destruct (next_fault _); [| cbn [ret fst]; discriminate].
        rewrite sendMessage_recover. cbn [fst]. intros H.
        injection H as <-. reflexivity.
  - destruct (sendMessageInput raw) as [issues | input] eqn:V;
      cbn [throw fst].
    + intros H. injection H as <-. eexists. reflexivity.
    + unfold sendMessageStream_resolver. cbv zeta.
      unfold try_catch at 1.
      match goal with
      | |- fst (let (_, _) := ?X in _) = _ -> _ =>
          destruct X as [[e0 | []] w0]
      end; [| cbn [fst]; discriminate].
      rewrite stream_recover. destruct (next_fault w0); discriminate.
  - destruct (userIdInput raw) as [issues | input]; cbn [throw fst].
    + intros H. injection H as <-. reflexivity.
    + unfold clearHistory_resolver. async. next.
      rewrite clearUserHistory_run.
      destruct (next_fault w); cbn [fst]; [| discriminate].
      intros H. injection H as <-. reflexivity.
  - destruct (generateImageInput raw) as [issues | input]; cbn [throw fst].
    + intros H. injection H as <-. reflexivity.
    + intros H. apply generateImage_throws in H; [| exact P].
      destruct H as [m ->]. reflexivity.
Qed.

Lemma operations_throw_rpc_errors_witness :
  store_errors_plain failing_store
  /\ is_rpc_error (TRPCError INTERNAL_SERVER_ERROR
                     (lit "Failed to generate image")) = true.
Proof.
  assert (store_errors_plain failing_store) as P
      by (repeat constructor).
  split; [exact P |].
  apply (proj2 (proj2 (proj2 (proj2
           (@operations_throw_rpc_errors all_keys greeter anonymous
              (prompt_input (lit "a red cat") (lit "u1")) failing_store
              _ P))))).
  vm_compute. reflexivity.
Defined.

(* ================================================================== *)
(** ** Reading the history *)
(* ================================================================== *)

Lemma insert_permutation (r : ChatMessage) (l : list ChatMessage) :
  Permutation (insert_by_created_at r l) (r :: l).
Proof.
  induction l as [| x l IH]; cbn [insert_by_created_at]; [reflexivity |].
  destruct (created_at r <=? created_at x); [reflexivity |].
  rewrite IH. apply perm_swap.
Qed.

Lemma order_permutation (l : list ChatMessage) :
  Permutation (order_by_created_at l) l.
Proof.
  unfold order_by_created_at.
  induction l as [| x l IH]; cbn [fold_right]; [reflexivity |].
  rewrite insert_permutation. constructor. exact IH.
Qed.

Lemma insert_sorted (r : ChatMessage) (l : list ChatMessage) :
  Sorted not_newer l -> Sorted not_newer (insert_by_created_at r l).
Proof.
  induction 1 as [| x l S IH H]; cbn [insert_by_created_at].
  - repeat constructor.
  - destruct (Nat.leb_spec (created_at r) (created_at x)).
    + constructor; [constructor; assumption |]. constructor. assumption.
    + constructor; [exact IH |].
      destruct l as [| y l]; cbn [insert_by_created_at].
      * constructor. unfold not_newer. lia.
      * destruct (created_at r <=? created_at y).
        -- constructor. unfold not_newer. lia.
        -- inversion H. constructor. assumption.
Qed.

Lemma order_sorted_any (l : list ChatMessage) :
  Sorted not_newer (order_by_created_at l).
Proof.
  unfold order_by_created_at.
  induction l as [| x l IH]; cbn [fold_right]; [constructor |].
  apply insert_sorted, IH.
Qed.

(** X12: whatever the table holds, what [getMessagesForUser] returns for
    a user, when the store answers, is a rearrangement of exactly the
    rows of that user, no row of another user and none twice, in
    ascending order of [created_at]. *)
Theorem getMessagesForUser_sorted (userId : jsstring) (w : World) :
  next_fault w = None ->
  exists l,
    fst (getMessagesForUser userId w) = inr l
    /\ Permutation l (filter (owned_by userId) (table w))
    /\ Sorted not_newer l
    /\ Forall (fun r => user_id r = userId) l.
Proof.
  intros F. rewrite getMessagesForUser_run, F. eexists.
  split; [reflexivity |]. split; [apply order_permutation |].
  split; [apply order_sorted_any |].
  apply Forall_forall. intros r Hr.
  apply (Permutation_in _ (order_permutation _)) in Hr.
  apply filter_In in Hr. destruct Hr as [_ O].
  apply jsstring_eqb_eq in O. exact O.
Qed.

Lemma getMessagesForUser_sorted_witness :
  exists l,
    fst (getMessagesForUser (lit "u1") two_users) = inr l
    /\ Permutation l (filter (owned_by (lit "u1")) (table two_users))
    /\ Sorted not_newer l
    /\ Forall (fun r => user_id r = lit "u1") l.
Proof. apply (@getMessagesForUser_sorted (lit "u1") two_users). reflexivity. Defined.

(** X13: [getChatHistory] never writes: the table is left as it was,
    whether the store answers or not.  When the store answers, the call
    returns the user's history with its length as count, and a second
    call returns the same messages; when it does not, the call throws the
    fixed internal error. *)
Theorem getChatHistory_reads_only (ext : External) (ctx : Context)
  (userId : jsstring) (w : World) :
  let run := getChatHistory ext ctx (userId_input userId) w in
  table (snd run) = table w
  /\ (next_fault w = None ->
      fst run = inr {| history_success := true;
                       messages := history userId w;
                       count := List.length (history userId w) |})
  /\ (next_fault w <> None ->
      fst run = inl (TRPCError INTERNAL_SERVER_ERROR
                       (lit "Failed to fetch chat history")))
  /\ (store_accepts 2 w ->
      fst (getChatHistory ext ctx (userId_input userId) (snd run)) = fst run).
Proof.
  assert (forall w0,
            getChatHistory ext ctx (userId_input userId) w0
            = (match next_fault w0 with
               | None =>
                   inr {| history_success := true;
                          messages := history userId w0;
                          count := List.length (history userId w0) |}
               | Some _ =>
                   inl (TRPCError INTERNAL_SERVER_ERROR
                          (lit "Failed to fetch chat history"))
               end, answered (DbSelect userId) w0)) as R.
  { intros w0. unfold getChatHistory.
    rewrite procedure_public, userIdInput_valid.
    unfold getChatHistory_resolver. cbn [ui_userId]. async. next.
    rewrite getMessagesForUser_run. destruct (next_fault w0); reflexivity. }
  cbv zeta. rewrite !R. cbn [fst snd]. repeat split.
  - intros ->. reflexivity.
  - intros H. destruct (next_fault w); [reflexivity | congruence].
  - intros SA. rewrite (store_accepts_next SA).
    assert (next_fault (answered (DbSelect userId) w) = None) as F2.
    { apply (@store_accepts_next 0).
      eapply store_accepts_tail; [exact SA | reflexivity]. }
    rewrite F2. reflexivity.
Qed.

Lemma getChatHistory_reads_only_witness :
  store_accepts 2 two_users
  /\ fst (getChatHistory greeter anonymous (userId_input (lit "u1"))
            (snd (getChatHistory greeter anonymous (userId_input (lit "u1"))
                    two_users)))
     = fst (getChatHistory greeter anonymous (userId_input (lit "u1"))
              two_users).
Proof.
  assert (store_accepts 2 two_users) as SA by constructor.
  split; [exact SA |].
  apply (proj2 (proj2 (proj2 (@getChatHistory_reads_only greeter anonymous
                                (lit "u1") two_users)))).
  exact SA.
Defined.

(* ================================================================== *)
(** ** Relations kept by every run *)
(* ================================================================== *)

Section Steps.

Variable R : World -> World -> Prop.
Hypothesis R_refl : forall w, R w w.
Hypothesis R_trans : forall a b c, R a b -> R b c -> R a c.
Hypothesis R_advance : forall reqs w, R w (advance reqs w).
Hypothesis R_yielded : forall evs w, R w (yielded evs w).
Hypothesis R_answered : forall r w, R w (answered r w).

(** The messages whose insertion keeps [R]. *)
Variable Q : NewMessage -> Prop.
Hypothesis R_inserted : forall m w, Q m -> R w (inserted m w).

Lemma steps_ret (A : Type) (a : A) : steps R (ret a).
Proof. intros w. apply R_refl. Qed.

Lemma steps_throw (A : Type) (e : thrown) : steps R (throw (A := A) e).
Proof. intros w. apply R_refl. Qed.

Lemma steps_bind (A B : Type) (m : M A) (k : A -> M B) :
  steps R m -> (forall a, steps R (k a)) -> steps R (bind m k).
Proof.
  intros Hm Hk w. unfold bind. specialize (Hm w).
  destruct (m w) as [[e | a] w1]; cbn [snd] in *; [exact Hm |].
  eapply R_trans; [exact Hm | apply Hk].
Qed.

Lemma steps_try_catch (A : Type) (body : M A) (handler : thrown -> M A) :
  steps R body -> (forall e, steps R (handler e)) ->
  steps R (try_catch body handler).
Proof.
  intros Hb Hh w. unfold try_catch. specialize (Hb w).
  destruct (body w) as [[e | a] w1]; cbn [snd] in *; [| exact Hb].
  eapply R_trans; [exact Hb | apply Hh].
Qed.

Lemma steps_yield (ev : StreamEvent) : steps R (yield ev).
Proof. intros w. rewrite yield_run. apply R_yielded. Qed.

Lemma steps_addMessage (m : NewMessage) : Q m -> steps R (addMessage m).
Proof.
  intros Hm w. rewrite addMessage_run.
  destruct (next_fault w); cbn [snd]; [apply R_answered | apply R_inserted, Hm].
Qed.

Lemma steps_getMessagesForUser (userId : jsstring) :
  steps R (getMessagesForUser userId).
Proof. intros w. rewrite getMessagesForUser_run. apply R_answered. Qed.

Lemma steps_text (env : Env) (ext : External) (userMessage : jsstring) :
  steps R (generateGeminiResponse env ext userMessage).
Proof. intros w. rewrite generateGeminiResponse_run. apply R_advance. Qed.

Lemma steps_stream (env : Env) (ext : External) (userMessage : jsstring) :
  steps R (generateGeminiStreamResponse env ext userMessage).
Proof. intros w. rewrite generateGeminiStreamResponse_run. apply R_advance. Qed.

Lemma steps_image (env : Env) (ext : External) (prompt : jsstring) :
  steps R (generateGeminiImage env ext prompt).
Proof. intros w. rewrite generateGeminiImage_run. apply R_advance. Qed.

Lemma steps_consume (userId : jsstring) :
  (forall x, Q (model_text userId x)) ->
  forall items full, steps R (consume userId items full).
Proof.
  intros HQ. induction items as [| c rest IH]; intros full; cbn [consume].
  - apply steps_ret.
  - destruct (done c); cbn [negb].
    + destruct (chunk_success c).
      * apply steps_bind; [apply steps_addMessage, HQ |].
        intros a. apply steps_yield.
      * cbv zeta. apply steps_try_catch.
        -- apply steps_bind; [apply steps_addMessage, HQ |].
           intros a. apply steps_yield.
        -- intros e. apply steps_yield.
    + cbv zeta. apply steps_bind; [apply steps_yield |].
      intros _. apply IH.
Qed.

Lemma steps_sendMessage (env : Env) (ext : External) (ctx : Context)
  (input : SendMessageInput) :
  Q (user_text (sm_userId input) (sanitizeUserInput (sm_message input))) ->
  (forall x, Q (model_text (sm_userId input) x)) ->
  steps R (sendMessage_resolver env ext ctx input).
Proof.
  intros Hu Hm. unfold sendMessage_resolver. cbv zeta.
  apply steps_try_catch.
  - apply steps_bind; [apply steps_addMessage, Hu |]. intros u.
    apply steps_bind; [apply steps_text |]. intros r.
    apply steps_bind; [apply steps_addMessage, Hm |]. intros a.
    apply steps_ret.
  - intros e. apply steps_bind; [| intros _; apply steps_throw].
    apply steps_try_catch; [| intros e'; apply steps_ret].
    apply steps_bind; [apply steps_addMessage, Hm |]. intros a.
    apply steps_ret.
Qed.

Lemma steps_sendMessageStream (env : Env) (ext : External) (ctx : Context)
  (input : SendMessageInput) :
  Q (user_text (sm_userId input) (sanitizeUserInput (sm_message input))) ->
  (forall x, Q (model_text (sm_userId input) x)) ->
  steps R (sendMessageStream_resolver env ext ctx input).
Proof.
  intros Hu Hm. unfold sendMessageStream_resolver. cbv zeta.
  apply steps_try_catch.
  - apply steps_bind; [apply steps_addMessage, Hu |]. intros u.
    apply steps_bind; [apply steps_yield |]. intros _.
    apply steps_bind; [apply steps_stream |]. intros items.
    apply steps_consume, Hm.
  - intros e. apply steps_try_catch; [| intros e'; apply steps_yield].
    apply steps_bind; [apply steps_addMessage, Hm |]. intros a.
    apply steps_yield.
Qed.

Lemma steps_generateImage (env : Env) (ext : External) (ctx : Context)
  (input : GenerateImageInput) :
  Q (user_text (gi_userId input) (sanitizeUserInput (gi_prompt input))) ->
  (forall x, Q (model_image (gi_userId input) x)) ->
  steps R (generateImage_resolver env ext ctx input).
Proof.
  intros Hu Hm. unfold generateImage_resolver. cbv zeta.
  apply steps_try_catch.
  - apply steps_bind; [apply steps_addMessage, Hu |]. intros u.
    apply steps_bind; [apply steps_image |]. intros r.
    destruct (negb (image_success r)); [apply steps_throw |].
    apply steps_bind; [apply steps_addMessage, Hm |]. intros a.
    apply steps_ret.
  - intros e. destruct (instanceof_TRPCError e); apply steps_throw.
Qed.

Lemma steps_getChatHistory (ctx : Context) (input : UserIdInput) :
  steps R (getChatHistory_resolver ctx input).
Proof.
  unfold getChatHistory_resolver. apply steps_try_catch.
  - apply steps_bind; [apply steps_getMessagesForUser |].
    intros l. apply steps_ret.
  - intros e. apply steps_throw.
Qed.


Lemma steps_procedure (ext : External) (I O : Type)
  (schema : json -> list ZodIssue + I) (resolver : Context -> I -> M O)
  (ctx : Context) (raw : json) :
  (forall input, schema raw = inr input -> steps R (resolver ctx input)) ->
  steps R (procedure ext t_procedure schema resolver ctx raw).
Proof.
  intros H. rewrite procedure_public.
  destruct (schema raw) as [issues | input]; [apply steps_throw |].
  apply H. reflexivity.
Qed.

End Steps.

(* ================================================================== *)
(** ** The operations only append *)
(* ================================================================== *)

Lemma appends_refl (Q : NewMessage -> Prop) (w : World) : appends Q w w.
Proof. exists []. split; [symmetry; apply app_nil_r | constructor]. Qed.

Lemma appends_trans (Q : NewMessage -> Prop) (a b c : World) :
  appends Q a b -> appends Q b c -> appends Q a c.
Proof.
  intros [x [Tx Fx]] [y [Ty Fy]]. exists (x ++ y). split.
  - rewrite Ty, Tx. symmetry. apply app_assoc.
  - apply Forall_app. split; assumption.
Qed.

Lemma appends_same_table (Q : NewMessage -> Prop) (w w' : World) :
  table w' = table w -> appends Q w w'.
Proof.
  intros T. exists []. split; [rewrite T; symmetry; apply app_nil_r |].
  constructor.
Qed.

Lemma appends_inserted (Q : NewMessage -> Prop) (m : NewMessage) (w : World) :
  Q m -> appends Q w (inserted m w).
Proof.
  intros Hm. exists [stored m w]. split; [reflexivity |].
  constructor; [| constructor]. destruct m. exact Hm.
Qed.

Lemma turn_row_user (userId text : jsstring) :
  turn_row userId text (user_text userId (sanitizeUserInput text)).
Proof. split; [reflexivity |]. intros _. split; reflexivity. Qed.

Lemma turn_row_model_text (userId text x : jsstring) :
  turn_row userId text (model_text userId x).
Proof. split; [reflexivity |]. intros C. discriminate C. Qed.

Lemma turn_row_model_image (userId text x : jsstring) :
  turn_row userId text (model_image userId x).
Proof. split; [reflexivity |]. intros C. discriminate C. Qed.

Lemma appends_other_rows (Q : NewMessage -> Prop) (userId other : jsstring)
  (w w' : World) :
  (forall m, Q m -> new_user_id m = userId) ->
  other <> userId ->
  appends Q w w' ->
  filter (owned_by other) (table w') = filter (owned_by other) (table w).
Proof.
  intros HQ Hne [added [T F]]. rewrite T, filter_app. clear T.
  replace (filter (owned_by other) added) with (@nil ChatMessage);
    [apply app_nil_r |].
  symmetry. induction F as [| r l Hr _ IH]; [reflexivity |].
  cbn [filter]. unfold owned_by at 1.
  apply HQ in Hr. cbn [message_of new_user_id] in Hr.
  rewrite Hr, (jsstring_eqb_neq (a := userId) (b := other));
    [exact IH | congruence].
Qed.

Lemma sendMessage_appends (env : Env) (ext : External) (ctx : Context)
  (input : SendMessageInput) :
  steps (appends (turn_row (sm_userId input) (sm_message input)))
    (sendMessage_resolver env ext ctx input).
Proof.
  apply steps_sendMessage
    with (Q := turn_row (sm_userId input) (sm_message input)).
  - apply appends_refl.
  - apply appends_trans.
  - intros reqs w. apply appends_same_table. reflexivity.
  - intros r w. apply appends_same_table. reflexivity.
  - apply appends_inserted.
  - apply turn_row_user.
  - apply turn_row_model_text.
Qed.

Lemma sendMessageStream_appends (env : Env) (ext : External) (ctx : Context)
  (input : SendMessageInput) :
  steps (appends (turn_row (sm_userId input) (sm_message input)))
    (sendMessageStream_resolver env ext ctx input).
Proof.
  apply steps_sendMessageStream
    with (Q := turn_row (sm_userId input) (sm_message input)).
  - apply appends_refl.
  - apply appends_trans.
  - intros reqs w. apply appends_same_table. reflexivity.
  - intros evs w. apply appends_same_table. reflexivity.
  - intros r w. apply appends_same_table. reflexivity.
  - apply appends_inserted.
  - apply turn_row_user.
  - apply turn_row_model_text.
Qed.

Lemma generateImage_appends (env : Env) (ext : External) (ctx : Context)
  (input : GenerateImageInput) :
  steps (appends (turn_row (gi_userId input) (gi_prompt input)))
    (generateImage_resolver env ext ctx input).
Proof.
  apply steps_generateImage
    with (Q := turn_row (gi_userId input) (gi_prompt input)).
  - apply appends_refl.
  - apply appends_trans.
  - intros reqs w. apply appends_same_table. reflexivity.
  - intros r w. apply appends_same_table. reflexivity.
  - apply appends_inserted.
  - apply turn_row_user.
  - apply turn_row_model_image.
Qed.

Lemma getChatHistory_same_table (ext : External) (ctx : Context) (raw : json)
  (w : World) :
  table (snd (getChatHistory ext ctx raw w)) = table w.
Proof.
  unfold getChatHistory.
  apply (@steps_procedure (fun a b => table b = table a)).
  - reflexivity.
  - intros input _.
    apply (@steps_getChatHistory (fun a b => table b = table a)).
    + reflexivity.
    + intros a b c H1 H2. congruence.
    + reflexivity.
Qed.

(** X14: Whatever the store and the model do, [sendMessage],
    [sendMessageStream] and [generateImage] only append to the table:
    the rows present before the call are still there, unchanged and in
    the same order, and every row added belongs to the [userId] of the
    input; a row added with role user holds the sanitized input as text.
    An input the schema rejects leaves the world as it was, and
    [getChatHistory] never changes the table. *)
Theorem operations_append_only (env : Env) (ext : External) (ctx : Context)
  (raw : json) (w : World) :
  match sendMessageInput raw with
  | inr input =>
      appends (turn_row (sm_userId input) (sm_message input)) w
        (snd (sendMessage env ext ctx raw w))
      /\ appends (turn_row (sm_userId input) (sm_message input)) w
           (snd (sendMessageStream env ext ctx raw w))
  | inl _ =>
      snd (sendMessage env ext ctx raw w) = w
      /\ snd (sendMessageStream env ext ctx raw w) = w
  end
  /\ match generateImageInput raw with
     | inr input =>
         appends (turn_row (gi_userId input) (gi_prompt input)) w
           (snd (generateImage env ext ctx raw w))
     | inl _ => snd (generateImage env ext ctx raw w) = w
     end
  /\ table (snd (getChatHistory ext ctx raw w)) = table w.
Proof.
  unfold sendMessage, sendMessageStream, generateImage.
  rewrite !procedure_public.
  split; [| split].
  - destruct (sendMessageInput raw) as [issues | input].
    + split; reflexivity.
    + split; [apply sendMessage_appends | apply sendMessageStream_appends].
  - destruct (generateImageInput raw) as [issues | input].
    + reflexivity.
    + apply generateImage_appends.
  - apply getChatHistory_same_table.
Qed.

Lemma sendMessageInput_fields (text userId : jsstring)
  (input : SendMessageInput) :
  sendMessageInput (message_input text userId) = inr input ->
  input = {| sm_message := text; sm_userId := userId |}.
Proof.
  unfold sendMessageInput, message_input.
  rewrite get_field_first, get_field_next, get_field_first by lit_neq.
  rewrite string_bounded, string_unchecked.
  destruct (List.length text <? 1); [intros C; discriminate C |].
  destruct (2000 <? List.length text); [intros C; discriminate C |].
  intros E. congruence.
Qed.

Lemma string_accepts (checks : list Zod.check) (path : list jsstring)
  (v : json) (s : jsstring) :
  Zod.string checks path v = inr s -> v = JString s.
Proof.
  destruct v; try (intros C; discriminate C).
  unfold Zod.string. destruct (Zod.issues_of _ _ _); intros E; congruence.
Qed.

Lemma generateImageInput_fields (text userId : jsstring)
  (input : GenerateImageInput) :
  generateImageInput (prompt_input text userId) = inr input ->
  input = {| gi_prompt := text; gi_userId := userId |}.
Proof.
  unfold generateImageInput, prompt_input.
  rewrite get_field_first, get_field_next, get_field_first by lit_neq.
  cbv zeta.
  destruct (Zod.string _ _ (JString text)) as [i | p] eqn:P;
    [intros C; discriminate C |].
  destruct (Zod.string _ _ (JString userId)) as [i | u] eqn:U;
    [intros C; discriminate C |].
  apply string_accepts in P. apply string_accepts in U.
  intros E. congruence.
Qed.

Lemma turn_row_owner (userId text : jsstring) (m : NewMessage) :
  turn_row userId text m -> new_user_id m = userId.
Proof. intros [H _]. exact H. Qed.

(** X15: A turn of one user never touches what another user reads:
    after [sendMessage], [sendMessageStream] or [generateImage] on an
    input for [userId], with any store and model behaviour, the history
    of every other user is what it was. *)
Theorem turn_leaves_other_histories (env : Env) (ext : External)
  (ctx : Context) (text userId other : jsstring) (w : World) :
  other <> userId ->
  history other (snd (sendMessage env ext ctx (message_input text userId) w))
  = history other w
  /\ history other
       (snd (sendMessageStream env ext ctx (message_input text userId) w))
     = history other w
  /\ history other
       (snd (generateImage env ext ctx (prompt_input text userId) w))
     = history other w.
Proof.
  intros Hne. unfold history, sendMessage, sendMessageStream, generateImage.
  rewrite !procedure_public.
  split; [| split]; f_equal.
  - destruct (sendMessageInput _) as [issues | input] eqn:E; [reflexivity |].
    apply sendMessageInput_fields in E.
    apply (appends_other_rows (@turn_row_owner userId text) Hne).
    subst input. apply (@sendMessage_appends env ext ctx
                          {| sm_message := text; sm_userId := userId |}).
  - destruct (sendMessageInput _) as [issues | input] eqn:E; [reflexivity |].
    apply sendMessageInput_fields in E.
    apply (appends_other_rows (@turn_row_owner userId text) Hne).
    subst input. apply (@sendMessageStream_appends env ext ctx
                          {| sm_message := text; sm_userId := userId |}).
  - destruct (generateImageInput _) as [issues | input] eqn:E;
      [reflexivity |].
    apply generateImageInput_fields in E.
    apply (appends_other_rows (@turn_row_owner userId text) Hne).
    subst input. apply (@generateImage_appends env ext ctx
                          {| gi_prompt := text; gi_userId := userId |}).
Qed.

Lemma turn_leaves_other_histories_witness :
  lit "u2" <> lit "u1"
  /\ history (lit "u2")
       (snd (sendMessage all_keys greeter anonymous
               (message_input (lit "Hello") (lit "u1")) two_users))
     = history (lit "u2") two_users.
Proof.
  split; [intros C; discriminate C |].
  apply (@turn_leaves_other_histories all_keys greeter anonymous
           (lit "Hello") (lit "u1") (lit "u2") two_users).
  intros C. discriminate C.
Defined.

(* ================================================================== *)
(** ** Clearing a history *)
(* ================================================================== *)

Lemma clearHistory_run (ext : External) (ctx : Context) (userId : jsstring)
  (w : World) :
  clearHistory ext ctx (userId_input userId) w
  = match next_fault w with
    | Some e =>
        (inl (TRPCError INTERNAL_SERVER_ERROR
                (lit "Failed to clear chat history")),
         answered (DbDelete userId) w)
    | None =>
        (inr {| clear_success := true;
                clear_message := lit "Chat history cleared successfully" |},
         cleared userId w)
    end.
Proof.
  unfold clearHistory. rewrite procedure_public, userIdInput_valid.
  unfold clearHistory_resolver. cbn [ui_userId]. async.
  rewrite clearUserHistory_run. destruct (next_fault w); reflexivity.
Qed.

Lemma filter_twice (f : ChatMessage -> bool) (l : list ChatMessage) :
  filter f (filter f l) = filter f l.
Proof.
  induction l as [| r l IH]; [reflexivity |].
  cbn [filter]. destruct (f r) eqn:E; [| exact IH].
  cbn [filter]. rewrite E, IH. reflexivity.
Qed.

(** X17: [clearHistory] sends the store one delete for the user and
    nothing else.  If the store refuses it, with whatever error, the
    call throws the fixed internal error, not the store's, and no row is
    removed; if the store accepts it, the call returns success, the
    table is the old one without the user's rows, and a second
    [clearHistory] for the same user, answered or refused, leaves that
    table as it is. *)
Theorem clearHistory_outcomes (ext : External) (ctx : Context)
  (userId : jsstring) (w : World) :
  let run := clearHistory ext ctx (userId_input userId) w in
  issued w (snd run) = [DbDelete userId]
  /\ match fault 0 w with
     | Some e =>
         fst run = inl (TRPCError INTERNAL_SERVER_ERROR
                          (lit "Failed to clear chat history"))
         /\ table (snd run) = table w
     | None =>
         fst run = inr {| clear_success := true;
                          clear_message :=
                            lit "Chat history cleared successfully" |}
         /\ table (snd run)
            = filter (fun r => negb (owned_by userId r)) (table w)
         /\ table (snd (clearHistory ext ctx (userId_input userId) (snd run)))
            = table (snd run)
     end.
Proof.
  cbv zeta. rewrite <- next_fault_fault, !clearHistory_run.
  destruct (next_fault w) as [e |]; cbn [fst snd].
  - split; [| split; reflexivity].
    unfold issued, answered. cbn [log]. rewrite skipn_app, skipn_all.
    rewrite Nat.sub_diag. reflexivity.
  - split; [| split; [reflexivity | split; [reflexivity |]]].
    + unfold issued, cleared. cbn [log]. rewrite skipn_app, skipn_all.
      rewrite Nat.sub_diag. reflexivity.
    + destruct (next_fault (cleared userId w)); cbn [snd];
        [reflexivity |].
      cbn [cleared table]. apply filter_twice.
Qed.

(* ================================================================== *)
(** ** The identity of a request *)
(* ================================================================== *)

(** X18: the identity of a call is the [x-user-id] header and nothing
    else.  The header is looked up as [req.headers.get] does: by name
    whatever its case, its values without the blanks around them and
    joined when there are several.  If what is found is not empty,
    [createContext] attaches a user whose [sub] is that value, a
    procedure behind [isAuthenticated] runs as the public one, and
    [user.profile] reports that user as authenticated; empty
    [x-user-name] and [x-user-email] headers are dropped.  If the header
    is absent or empty, no user is attached whatever the other headers
    say, the gated procedure throws UNAUTHORIZED without touching the
    world, and [user.profile] reports no user. *)
Theorem identity_from_header (ext : External) (I O : Type)
  (schema : json -> list ZodIssue + I) (resolver : Context -> I -> M O)
  (headers : Headers) (raw : json) (w : World) :
  let ctx := createContext headers in
  match headers_get headers (lit "x-user-id") with
  | Some (c :: s) =>
      user ctx
      = Some {| sub := c :: s;
                name := or_undefined (headers_get headers (lit "x-user-name"));
                email :=
                  or_undefined (headers_get headers (lit "x-user-email"));
                picture := None |}
      /\ procedure ext protectedProcedure schema resolver ctx raw w
         = procedure ext t_procedure schema resolver ctx raw w
      /\ profile ctx w
         = (inr {| profile_user := user ctx; authenticated := true |}, w)
  | _ =>
      user ctx = None
      /\ procedure ext protectedProcedure schema resolver ctx raw w
         = (inl (TRPCError UNAUTHORIZED
                   (lit "You must be logged in to access this resource")), w)
      /\ profile ctx w
         = (inr {| profile_user := None; authenticated := false |}, w)
  end.
Proof.
  cbv zeta. unfold createContext.
  destruct (headers_get headers (lit "x-user-id")) as [[| c s] |];
    cbn [or_undefined truthy]; repeat split.
Qed.

(* ================================================================== *)
(** ** Sessions *)
(* ================================================================== *)

Lemma now_greater_than_earlier (ToNumber : json -> option Q)
  (now now' : Z) (v : json) :
  (now <= now')%Z ->
  now_greater_than ToNumber now' v = false ->
  now_greater_than ToNumber now v = false.
Proof.
  intros L. unfold now_greater_than.
  destruct (match v with
            | JNumber q => Some q
            | JBool true => Some 1%Q
            | JBool false | JNull => Some 0%Q
            | JUndefined => None
            | JString _ | JArray _ | JObject _ => ToNumber v
            end) as [q |]; [| reflexivity].
  intros H. apply negb_false_iff in H. apply negb_false_iff.
  apply Qle_bool_iff in H. apply Qle_bool_iff.
  eapply Qle_trans; [| exact H]. rewrite <- Zle_Qle. exact L.
Qed.

(** X19: a session does not come back with time.  If [getSession]
    returns a session at some time, it returns the same session at every
    earlier time, for the same cookies; so once it has answered [null]
    for expiry, it answers [null] from then on. *)
Theorem getSession_earlier (JSON_parse : jsstring -> thrown + json)
  (ToNumber : json -> option Q) (cookies : thrown + CookieStore)
  (now now' : Z) (session : json) :
  (now <= now')%Z ->
  getSession JSON_parse ToNumber cookies now' = Some session ->
  getSession JSON_parse ToNumber cookies now = Some session.
Proof.
  intros L. unfold getSession.
  destruct cookies as [e | cookieStore]; [intros C; discriminate C |].
  cbv zeta.
  destruct (cookie_get cookieStore (lit "auth0.is.authenticated"))
    as [flag |]; [| intros C; discriminate C].
  destruct (cookie_get cookieStore (lit "auth0.session")) as [value |];
    [| intros C; discriminate C].
  destruct (negb (jsstring_eqb flag (lit "true")));
    [intros C; discriminate C |].
  destruct (JSON_parse value) as [e | parsed]; [intros C; discriminate C |].
  destruct (read_expiresAt parsed) as [e | expiresAt];
    [intros C; discriminate C |].
  destruct (json_truthy expiresAt); cbn [andb]; [| intros H; exact H].
  destruct (now_greater_than ToNumber now' expiresAt) eqn:G;
    [intros C; discriminate C |].
  rewrite (now_greater_than_earlier ToNumber expiresAt L G).
  intros H. exact H.
Qed.

Lemma getSession_earlier_witness :
  (999 <= 1000)%Z
  /\ getSession parse_sample no_number
       (cookies_of (lit "{expiresAt:1000}")) 999
     = getSession parse_sample no_number
         (cookies_of (lit "{expiresAt:1000}")) 1000.
Proof.
  split; [lia |].
  rewrite (@getSession_earlier parse_sample no_number
             (cookies_of (lit "{expiresAt:1000}")) 999 1000
             (JObject [ (lit "user",
                         JObject [(lit "sub", JString (lit "u1"))]);
                        (lit "expiresAt", JNumber 1000) ])).
  - vm_compute. reflexivity.
  - lia.
  - vm_compute. reflexivity.
Defined.

(* ================================================================== *)
(** ** A prompt that cannot be encoded *)
(* ================================================================== *)

Lemma encode_nonempty (s : jsstring) :
  encodeURIComponent s = None -> truthy s = true.
Proof. destruct s; [intros C; discriminate C | reflexivity]. Qed.

(** X20: a prompt that [encodeURIComponent] rejects (an unpaired
    surrogate is left after sanitization) does not stop
    [generateGeminiImage]: the error is caught inside the second step, no
    request goes to the second provider, and the call still returns with
    success; with neither the first nor the third provider configured
    it sends nothing at all and returns the placeholder. *)
Theorem unencodable_prompt_skips_pollinations (env : Env) (ext : External)
  (prompt : jsstring) (w : World) :
  configured (GEMINI_API_KEY env) = true ->
  encodeURIComponent (sanitizeUserInput prompt) = None ->
  let run := generateGeminiImage env ext prompt w in
  (exists r, fst run = inr r /\ image_success r = true)
  /\ Forall (fun q => provider_of q <> Some ProviderB) (issued w (snd run))
  /\ (configured (HUGGINGFACE_API_KEY env) = false ->
      configured (OPENAI_API_KEY env) = false ->
      run = (inr placeholder_response, w)).
Proof.
  intros G E. cbv zeta. rewrite generateGeminiImage_run. cbn [fst snd].
  rewrite issued_advance. unfold image_run. rewrite G.
  rewrite (encode_nonempty _ E). cbn [negb].
  split; [| split].
  - eexists. split; [reflexivity |]. apply chain_cases.
  - apply Forall_forall. intros q Hq B.
    apply (provider_of_B_inv _ _ _ _ Hq) in B.
    unfold stepB in B. rewrite E in B. exact B.
  - intros HA HC. unfold chain, stepA, stepB, stepC.
    rewrite HA, HC, E. cbn [app fst snd]. rewrite advance_nil. reflexivity.
Qed.

Lemma unencodable_prompt_skips_pollinations_witness :
  configured (GEMINI_API_KEY gemini_only) = true
  /\ encodeURIComponent (sanitizeUserInput [55296%N]) = None
  /\ generateGeminiImage gemini_only all_down [55296%N] empty_world
     = (inr placeholder_response, empty_world).
Proof.
  split; [reflexivity |]. split; [vm_compute; reflexivity |].
  apply (@unencodable_prompt_skips_pollinations gemini_only all_down
           [55296%N] empty_world); reflexivity.
Defined.

(* ================================================================== *)
(** ** Writing a row and reading it back *)
(* ================================================================== *)

(** X21: in a well-formed store that answers, a row written with
    [addMessage] is what the next [getMessagesForUser] of its user ends
    with: the read returns the user's history from before the write,
    followed by the new row, which holds the message as given; the
    history of any other user is what it was. *)
Theorem addMessage_then_read (m : NewMessage) (other : jsstring) (w : World) :
  store_wf w ->
  store_accepts 2 w ->
  other <> new_user_id m ->
  exists row,
    fst (addMessage m w) = inr row
    /\ message_of row = m
    /\ fst (getMessagesForUser (new_user_id m) (snd (addMessage m w)))
       = inr (history (new_user_id m) w ++ [row])
    /\ fst (getMessagesForUser other (snd (addMessage m w)))
       = inr (history other w).
Proof.
  intros WF SA Hne. apply store_accepts_two in SA. destruct SA as [F0 F1].
  rewrite addMessage_run, next_fault_fault, F0. cbn [fst snd].
  exists (stored m w). split; [reflexivity |].
  split; [destruct m; reflexivity |].
  rewrite !getMessagesForUser_run. cbn [fst].
  rewrite next_fault_fault, (@fault_tail 0 w (inserted m w) eq_refl), F1.
  pose proof (store_wf_inserted m WF) as WF'.
  fold (history (new_user_id m) (inserted m w)).
  fold (history other (inserted m w)).
  rewrite !(history_wf _ WF'), !(history_wf _ WF).
  assert (owned_by (new_user_id m) (stored m w) = true) as Own
    by apply jsstring_eqb_refl.
  assert (owned_by other (stored m w) = false) as Oth
    by (apply jsstring_eqb_neq; cbn [stored user_id]; congruence).
  cbn [inserted table]. rewrite !filter_app. cbn [filter].
  rewrite Own, Oth, app_nil_r. split; reflexivity.
Qed.

Lemma addMessage_then_read_witness :
  fst (getMessagesForUser (lit "u2")
         (snd (addMessage (user_text (lit "u2") (lit "Salut")) two_users)))
  = inr (history (lit "u2") two_users
         ++ [stored (user_text (lit "u2") (lit "Salut")) two_users]).
Proof.
  destruct (@addMessage_then_read (user_text (lit "u2") (lit "Salut"))
              (lit "u1") two_users) as [row [E [_ [R _]]]].
  - unfold store_wf, older, two_users. cbn [table now].
    split; repeat constructor; cbn; lia.
  - constructor.
  - intros C. discriminate C.
  - assert (row = stored (user_text (lit "u2") (lit "Salut")) two_users)
      as Row by (vm_compute in E; vm_compute; congruence).
    rewrite <- Row. exact R.
Defined.

(* ================================================================== *)
(** ** What the schemas accept *)
(* ================================================================== *)

Lemma string_bounded_accepts (hi : nat) (a b : jsstring)
  (path : list jsstring) (v : json) (s : jsstring) :
  Zod.string [Zod.min 1 a; Zod.max hi b] path v = inr s
  <-> v = JString s /\ 1 <= List.length s <= hi.
Proof.
  split.
  - intros E. pose proof (string_accepts _ _ _ E) as V. subst v.
    split; [reflexivity |]. rewrite string_bounded in E.
    destruct (List.length s <? 1) eqn:L; [discriminate E |].
    destruct (hi <? List.length s) eqn:U; [discriminate E |].
    apply Nat.ltb_ge in L. apply Nat.ltb_ge in U. lia.
  - intros [-> [L U]]. rewrite string_bounded.
    apply Nat.ltb_ge in L. apply Nat.ltb_ge in U. rewrite L, U. reflexivity.
Qed.

Lemma string_nonempty_accepts (a : jsstring) (path : list jsstring)
  (v : json) (s : jsstring) :
  Zod.string [Zod.min 1 a] path v = inr s
  <-> v = JString s /\ 1 <= List.length s.
Proof.
  split.
  - intros E. pose proof (string_accepts _ _ _ E) as V. subst v.
    split; [reflexivity |].
    unfold Zod.string, Zod.issues_of, Zod.violated in E. cbn [flat_map] in E.
    destruct (List.length s <? 1) eqn:L; [discriminate E |].
    apply Nat.ltb_ge in L. exact L.
  - intros [-> L]. unfold Zod.string, Zod.issues_of, Zod.violated.
    cbn [flat_map]. apply Nat.ltb_ge in L. rewrite L. reflexivity.
Qed.

Lemma string_unchecked_accepts (path : list jsstring) (v : json)
  (s : jsstring) :
  Zod.string [] path v = inr s <-> v = JString s.
Proof.
  split; [apply string_accepts | intros ->; reflexivity].
Qed.

(** X22: what the three input schemas accept, for any raw value.  An
    input is accepted exactly when it is an object whose fields have the
    right shape: for [sendMessage] and [sendMessageStream] a [message]
    string of 1 to 2000 code units and a [userId] string, which may be
    empty; for [generateImage] a [prompt] string of 1 to 1000 code units
    and a [userId] string that is not empty; for [getChatHistory] and
    [clearHistory] a [userId] string, which may be empty.  The parsed
    input holds these strings unchanged, and other fields are ignored. *)
Theorem schemas_accept (raw : json) :
  (forall input,
      sendMessageInput raw = inr input
      <-> exists fields,
            raw = JObject fields
            /\ get_field fields (lit "message") = JString (sm_message input)
            /\ 1 <= List.length (sm_message input) <= 2000
            /\ get_field fields (lit "userId") = JString (sm_userId input))
  /\ (forall input,
         generateImageInput raw = inr input
         <-> exists fields,
               raw = JObject fields
               /\ get_field fields (lit "prompt") = JString (gi_prompt input)
               /\ 1 <= List.length (gi_prompt input) <= 1000
               /\ get_field fields (lit "userId") = JString (gi_userId input)
               /\ 1 <= List.length (gi_userId input))
  /\ (forall input,
         userIdInput raw = inr input
         <-> exists fields,
               raw = JObject fields
               /\ get_field fields (lit "userId")
                  = JString (ui_userId input)).
Proof.
  split; [| split]; intros input; split.
  - destruct raw as [| | | | | | l]; try (intros C; discriminate C).
    unfold sendMessageInput. cbv zeta.
    destruct (Zod.string _ _ (get_field l (lit "message")))
      as [i | m] eqn:Hm; [intros C; discriminate C |].
    destruct (Zod.string _ _ (get_field l (lit "userId")))
      as [i | u] eqn:Hu; [intros C; discriminate C |].
    intros E. assert (input = {| sm_message := m; sm_userId := u |})
      as -> by congruence.
    apply string_bounded_accepts in Hm. apply string_unchecked_accepts in Hu.
    exists l. cbn [sm_message sm_userId]. tauto.
  - intros [fields [-> [Hm [L Hu]]]]. unfold sendMessageInput. cbv zeta.
    rewrite (proj2 (string_bounded_accepts _ _ _ _ _ _) (conj Hm L)).
    rewrite (proj2 (string_unchecked_accepts _ _ _) Hu).
    destruct input. reflexivity.
  - destruct raw as [| | | | | | l]; try (intros C; discriminate C).
    unfold generateImageInput. cbv zeta.
    destruct (Zod.string _ _ (get_field l (lit "prompt")))
      as [i | m] eqn:Hm; [intros C; discriminate C |].
    destruct (Zod.string _ _ (get_field l (lit "userId")))
      as [i | u] eqn:Hu; [intros C; discriminate C |].
    intros E. assert (input = {| gi_prompt := m; gi_userId := u |})
      as -> by congruence.
    apply string_bounded_accepts in Hm. apply string_nonempty_accepts in Hu.
    exists l. cbn [gi_prompt gi_userId]. tauto.
  - intros [fields [-> [Hm [L [Hu V]]]]]. unfold generateImageInput.
    cbv zeta.
    rewrite (proj2 (string_bounded_accepts _ _ _ _ _ _) (conj Hm L)).
    rewrite (proj2 (string_nonempty_accepts _ _ _ _) (conj Hu V)).
    destruct input. reflexivity.
  - destruct raw as [| | | | | | l]; try (intros C; discriminate C).
    unfold userIdInput.
    destruct (Zod.string _ _ (get_field l (lit "userId")))
      as [i | u] eqn:Hu; [intros C; discriminate C |].
    intros E. assert (input = {| ui_userId := u |}) as -> by congruence.
    apply string_unchecked_accepts in Hu. exists l. split; [reflexivity | exact Hu].
  - intros [fields [-> Hu]]. unfold userIdInput.
    rewrite (proj2 (string_unchecked_accepts _ _ _) Hu).
    destruct input. reflexivity.
Qed.
